(** * The scheduler cache: assumed-pod life cycle and in-place resize

    A shallow embedding of [schedulerCache] (package [cache]) and of the
    operations it offers to the scheduler and to the event feed, followed
    by the properties its specification states about them.

    Conventions of the embedding.
    - [*v1.Pod] values are addresses ([loc]) into a store of pod objects
      ([gmap loc Pod]); the cache keeps such addresses in [podStates] and
      in [NodeInfo.pods], and the resize engine writes through them.
      Every address denotes an object (Go has no dangling pointers): an
      address the store does not list holds the zero pod.  A pod object
      is a tree: its containers and resource lists are held by value.
    - [*podState] and [*NodeInfo] are only reachable through the maps of
      the cache, so the maps hold them by value.
    - [map[string]bool] [assumedPods] only ever receives [true] and is a
      set of keys ([gset string]).
    - A Go function [f(...) error] that runs under the cache mutex becomes
      a function to [exec (option error * state)]: it either returns (with
      a nil or non-nil error and the state it leaves) or it crashes
      (run-time panic, [glog.Fatalf]).
    - The mutex, the stop channel and the reaper's timer are not modelled:
      every operation is one atomic step. *)

From stdpp Require Import gmap strings list fin_maps sorting.
From Stdlib Require Import ZArith Lia.

Local Open Scope string_scope.
Local Open Scope list_scope.

(** ** API objects *)

(** [v1.ResourceList] is a Go map and may be nil: [None] is the nil map.
    A quantity is kept as the integer the accounting reads from it
    (milli-units for ["cpu"], bytes for ["memory"]). *)
Record ResourceRequirements := {
  Limits : option (gmap string Z);
  Requests : option (gmap string Z)
}.

Record Container := {
  c_Name : string;
  c_Resources : ResourceRequirements
}.

Record ContainerResources := {
  cr_Name : string;
  cr_Resources : ResourceRequirements
}.

Inductive ResizeAction :=
| ResizeActionUnset
| ResizeActionUpdate
| ResizeActionUpdateDone
| ResizeActionReschedule
| ResizeActionNonePerPolicy
| ResizeActionNonePerPDBViolation.

(** The policy is a string type: [ResizePolicyUnset] is the empty string
    and [ResizePolicyOther] any string that is none of the constants. *)
Inductive ResizePolicy :=
| ResizePolicyUnset
| ResizePolicyInPlacePreferred
| ResizePolicyInPlaceOnly
| ResizePolicyRestart
| ResizePolicyOther (s : string).

(** [Request] and [Rollback] are slices: [None] is the nil slice. *)
Record PodResizeResources := {
  Request : option (list ContainerResources);
  ActionVersion : string;
  Action : ResizeAction;
  Rollback : option (list ContainerResources)
}.

Inductive PodConditionType :=
| PodResourcesResizeStatus
| PodConditionOther (s : string).

Inductive ConditionStatus := ConditionTrue | ConditionFalse | ConditionUnknown.

Record PodCondition := {
  cond_Type : PodConditionType;
  cond_Status : ConditionStatus;
  cond_Message : string
}.

Inductive PodPhase := PodPending | PodRunning | PodSucceeded | PodFailed | PodUnknown.

Record PodSpec := {
  NodeName : string;
  Containers : list Container;
  ResizeResources : option PodResizeResources;
  ResizeResourcesPolicy : ResizePolicy
}.

Record PodStatus := {
  Phase : PodPhase;
  Conditions : list PodCondition
}.

Record Pod := {
  Name : string;
  Namespace : string;
  UID : string;
  ResourceVersion : string;
  DeletionTimestamp : option Z;
  Labels : gmap string string;
  Spec : PodSpec;
  Status : PodStatus
}.

Record Node := {
  node_Name : string;
  node_Allocatable : gmap string Z
}.

(** [metav1.LabelSelector], the selector a budget carries before it is
    converted. *)
Record LabelSelectorRequirement := {
  lsr_Key : string;
  lsr_Operator : string;
  lsr_Values : list string
}.

Record LabelSelector := {
  MatchLabels : gmap string string;
  MatchExpressions : list LabelSelectorRequirement
}.

(** [labels.Selector] is an interface; the cache uses two of its methods. *)
Record Selector := {
  Matches : gmap string string -> bool;
  Empty : bool
}.

(** [labels.Everything()]. *)
Definition Everything : Selector :=
  {| Matches := fun _ => true; Empty := true |}.

Record PodDisruptionBudget := {
  pdb_Name : string;
  pdb_UID : string;
  pdb_Labels : gmap string string;
  pdb_Selector : option LabelSelector;
  PodDisruptionsAllowed : Z
}.

#[global] Instance ResourceRequirements_eq_dec : EqDecision ResourceRequirements.
Proof. solve_decision. Defined.
#[global] Instance Container_eq_dec : EqDecision Container.
Proof. solve_decision. Defined.
#[global] Instance ContainerResources_eq_dec : EqDecision ContainerResources.
Proof. solve_decision. Defined.
#[global] Instance ResizeAction_eq_dec : EqDecision ResizeAction.
Proof. solve_decision. Defined.
#[global] Instance ResizePolicy_eq_dec : EqDecision ResizePolicy.
Proof. solve_decision. Defined.
#[global] Instance PodConditionType_eq_dec : EqDecision PodConditionType.
Proof. solve_decision. Defined.
#[global] Instance ConditionStatus_eq_dec : EqDecision ConditionStatus.
Proof. solve_decision. Defined.
#[global] Instance PodPhase_eq_dec : EqDecision PodPhase.
Proof. solve_decision. Defined.
#[global] Instance Node_eq_dec : EqDecision Node.
Proof. solve_decision. Defined.

(** ** Errors and crashes *)

(** The errors of the cache are formatted strings; the embedding keeps the
    kind of each (the names of the specification) and its arguments. *)
Inductive error :=
| ErrPodKey                       (* getPodKey failed *)
| AlreadyPresent (key : string)   (* "pod %v is in the cache, so can't be assumed" *)
| NodeMismatch (key : string)     (* "pod %v was assumed on %v but assigned to %v" *)
| NotAssumed (key : string)       (* "pod %v wasn't assumed so cannot be forgotten" *)
| AlreadyAdded (key : string)     (* "pod %v was already in added state" *)
| NotAdded (key : string)         (* "pod %v is not added to scheduler cache, so cannot be updated" *)
| NotFound (key : string)         (* "pod %v is not found in scheduler cache, so cannot be removed from it" *)
| UnknownNode (name : string)     (* "Node %s not found for pod %s" *)
| NoCorrespondingPod              (* NodeInfo.RemovePod: the pod is not on the node *)
| SelectorInvalid (pdb : string). (* "Failure transforming LabelSelector for pdb %s" *)

#[global] Instance error_eq_dec : EqDecision error.
Proof. solve_decision. Defined.

Inductive crash :=
| NilDereference
| NilMapAssignment
| IndexOutOfRange
| Fatalf
| ExplicitPanic.

Inductive exec (A : Type) :=
| Done (a : A)
| Crashed (why : crash).
Arguments Done {A} a.
Arguments Crashed {A} why.

#[global] Instance exec_ret : MRet exec := fun A a => Done a.
#[global] Instance exec_bind : MBind exec := fun A B f m =>
  match m with
  | Done a => f a
  | Crashed w => Crashed w
  end.

(** [Returned err s]: the Go function returned [err] and left state [s]. *)
Abbreviation Returned err s := (Done (err, s)).

(** ** 64-bit counters *)

Definition wrap64 (z : Z) : Z := ((z + 2 ^ 63) mod 2 ^ 64 - 2 ^ 63)%Z.
Definition add64 (a b : Z) : Z := wrap64 (a + b).
Definition sub64 (a b : Z) : Z := wrap64 (a - b).
Definition int64_range (z : Z) : Prop := (- 2 ^ 63 <= z < 2 ^ 63)%Z.

(** ** The pod store *)

Definition loc := positive.

Definition zeroPod : Pod :=
  {| Name := ""; Namespace := ""; UID := ""; ResourceVersion := "";
     DeletionTimestamp := None; Labels := ∅;
     Spec := {| NodeName := ""; Containers := []; ResizeResources := None;
                ResizeResourcesPolicy := ResizePolicyUnset |};
     Status := {| Phase := PodUnknown; Conditions := [] |} |}.

Definition deref (h : gmap loc Pod) (l : loc) : Pod := default zeroPod (h !! l).

Definition with_Spec (f : PodSpec -> PodSpec) (p : Pod) : Pod :=
  {| Name := Name p; Namespace := Namespace p; UID := UID p;
     ResourceVersion := ResourceVersion p;
     DeletionTimestamp := DeletionTimestamp p; Labels := Labels p;
     Spec := f (Spec p); Status := Status p |}.

Definition with_Containers (f : list Container -> list Container) : Pod -> Pod :=
  with_Spec (fun s =>
    {| NodeName := NodeName s; Containers := f (Containers s);
       ResizeResources := ResizeResources s;
       ResizeResourcesPolicy := ResizeResourcesPolicy s |}).

Definition with_ResizeResources (rr : PodResizeResources) : Pod -> Pod :=
  with_Spec (fun s =>
    {| NodeName := NodeName s; Containers := Containers s;
       ResizeResources := Some rr;
       ResizeResourcesPolicy := ResizeResourcesPolicy s |}).

Definition with_Requests (r : option (gmap string Z)) (c : Container) : Container :=
  {| c_Name := c_Name c;
     c_Resources := {| Limits := Limits (c_Resources c); Requests := r |} |}.

Definition with_Limits (r : option (gmap string Z)) (c : Container) : Container :=
  {| c_Name := c_Name c;
     c_Resources := {| Limits := r; Requests := Requests (c_Resources c) |} |}.

(** ** Node accounting *)

Record Resource := {
  MilliCPU : Z;
  Memory : Z;
  EphemeralStorage : Z;
  ScalarResources : gmap string Z
}.

Record NodeInfo := {
  node : option Node;
  pods : list loc;
  requestedResource : Resource;
  nonzeroRequest : Resource;
  allocatableResource : Resource;
  generation : Z
}.

Record podState := {
  pod : loc;
  deadline : option Z;
  bindingFinished : bool
}.

Record schedulerCache := {
  ttl : Z;
  assumedPods : gset string;
  podStates : gmap string podState;
  nodes : gmap string NodeInfo;
  pdbs : gmap string PodDisruptionBudget
}.

Definition with_nodes (ns : gmap string NodeInfo) (c : schedulerCache) : schedulerCache :=
  {| ttl := ttl c; assumedPods := assumedPods c; podStates := podStates c;
     nodes := ns; pdbs := pdbs c |}.

Definition with_podStates (ps : gmap string podState) (c : schedulerCache) : schedulerCache :=
  {| ttl := ttl c; assumedPods := assumedPods c; podStates := ps;
     nodes := nodes c; pdbs := pdbs c |}.

Definition with_assumedPods (a : gset string) (c : schedulerCache) : schedulerCache :=
  {| ttl := ttl c; assumedPods := a; podStates := podStates c;
     nodes := nodes c; pdbs := pdbs c |}.

Definition with_pdbs (ps : gmap string PodDisruptionBudget) (c : schedulerCache) : schedulerCache :=
  {| ttl := ttl c; assumedPods := assumedPods c; podStates := podStates c;
     nodes := nodes c; pdbs := ps |}.

(** [newSchedulerCache]. *)
Definition newSchedulerCache (ttl : Z) : schedulerCache :=
  {| ttl := ttl; assumedPods := ∅; podStates := ∅; nodes := ∅; pdbs := ∅ |}.

(** ** What the cache calls and the sources do not define *)

(** The functions and constants of other files that the cache uses:
    - [getPodKey] of [node_info.go], which returns a key and an error;
    - [utilfeature.DefaultFeatureGate.Enabled(features.VerticalScaling)];
    - [metav1.LabelSelectorAsSelector], where [None] is a non-nil error;
    - the floors of the non-zero request vector. *)
Class Collaborators := {
  getPodKey : Pod -> string * option error;
  VerticalScaling : bool;
  LabelSelectorAsSelector : option LabelSelector -> option Selector;
  DefaultMilliCPURequest : Z;
  DefaultMemoryRequest : Z
}.

(** Two pods that differ at most in their [Spec]. *)
Definition same_identity (p q : Pod) : Prop :=
  with_Spec (fun _ => Spec zeroPod) p = with_Spec (fun _ => Spec zeroPod) q.

Section Model.

Context {K : Collaborators}.

(** Modelled from the spec: [Resource.Add] of [node_info.go], which adds a
    resource list to a resource vector: "CPU in milli-units, memory in
    bytes, ephemeral storage, and extended resources".  The counters are
    64-bit. *)
Definition Resource_Add (r : Resource) (rl : option (gmap string Z)) : Resource :=
  let l := default ∅ rl in
  {| MilliCPU := add64 (MilliCPU r) (default 0%Z (l !! "cpu"));
     Memory := add64 (Memory r) (default 0%Z (l !! "memory"));
     EphemeralStorage :=
       add64 (EphemeralStorage r) (default 0%Z (l !! "ephemeral-storage"));
     ScalarResources :=
       union_with (fun a b => Some (add64 a b)) (ScalarResources r)
         (delete "cpu" (delete "memory" (delete "ephemeral-storage" l))) |}.

Definition emptyResource : Resource :=
  {| MilliCPU := 0; Memory := 0; EphemeralStorage := 0; ScalarResources := ∅ |}.

(** Modelled from the spec: the request vector of a pod, which
    [node_info.go] computes: "the sum over ... each workload's
    per-container request vector". *)
Definition calculateResource (p : Pod) : Resource :=
  foldl (fun r c => Resource_Add r (Requests (c_Resources c)))
        emptyResource (Containers (Spec p)).

(** Modelled from the spec: the non-zero CPU and memory of a pod, which
    [node_info.go] computes: a "vector [that] substitutes a floor value
    for containers that declare zero on a dimension". *)
Definition nonzeroOf (floor : Z) (q : option Z) : Z :=
  match q with
  | Some v => if bool_decide (v = 0%Z) then floor else v
  | None => floor
  end.

Definition calculateNonzero (p : Pod) : Z * Z :=
  foldl (fun '(cpu, mem) c =>
           let l := default ∅ (Requests (c_Resources c)) in
           (add64 cpu (nonzeroOf DefaultMilliCPURequest (l !! "cpu")),
            add64 mem (nonzeroOf DefaultMemoryRequest (l !! "memory"))))
        (0%Z, 0%Z) (Containers (Spec p)).

Definition Resource_plus (a b : Resource) : Resource :=
  {| MilliCPU := add64 (MilliCPU a) (MilliCPU b);
     Memory := add64 (Memory a) (Memory b);
     EphemeralStorage := add64 (EphemeralStorage a) (EphemeralStorage b);
     ScalarResources :=
       union_with (fun x y => Some (add64 x y))
                  (ScalarResources a) (ScalarResources b) |}.

Definition Resource_minus (a b : Resource) : Resource :=
  {| MilliCPU := sub64 (MilliCPU a) (MilliCPU b);
     Memory := sub64 (Memory a) (Memory b);
     EphemeralStorage := sub64 (EphemeralStorage a) (EphemeralStorage b);
     ScalarResources :=
       map_imap (fun k x => Some (sub64 x (default 0%Z (ScalarResources b !! k))))
                (ScalarResources a) |}.

(** Modelled from the spec: [NewNodeInfo] of [node_info.go], a node
    record with no descriptor, no pods and zero sums. *)
Definition NewNodeInfo : NodeInfo :=
  {| node := None; pods := []; requestedResource := emptyResource;
     nonzeroRequest := emptyResource; allocatableResource := emptyResource;
     generation := 0 |}.

(** Modelled from the spec: [NodeInfo.AddPod] of [node_info.go]:
    "appends w to pods, adds its resource vector (requests and non-zero
    requests) to the running sums, bumps generation". *)
Definition NodeInfo_AddPod (h : gmap loc Pod) (n : NodeInfo) (p : loc) : NodeInfo :=
  let res := calculateResource (deref h p) in
  let '(cpu0, mem0) := calculateNonzero (deref h p) in
  {| node := node n;
     pods := pods n ++ [p];
     requestedResource := Resource_plus (requestedResource n) res;
     nonzeroRequest :=
       {| MilliCPU := add64 (MilliCPU (nonzeroRequest n)) cpu0;
          Memory := add64 (Memory (nonzeroRequest n)) mem0;
          EphemeralStorage := EphemeralStorage (nonzeroRequest n);
          ScalarResources := ScalarResources (nonzeroRequest n) |};
     allocatableResource := allocatableResource n;
     generation := add64 (generation n) 1 |}.

(** The pod of [l] that a key locates: the first one that carries it. *)
Definition has_key (h : gmap loc Pod) (k : string) (p : loc) : bool :=
  match getPodKey (deref h p) with
  | (k2, None) => bool_decide (k = k2)
  | (_, Some _) => false
  end.

Fixpoint remove_by_key (h : gmap loc Pod) (k : string) (l : list loc) : option (list loc) :=
  match l with
  | [] => None
  | p :: rest =>
      if has_key h k p then Some rest
      else cons p <$> remove_by_key h k rest
  end.

(** Modelled from the spec: [NodeInfo.RemovePod] of [node_info.go]:
    "locates w by key within pods; fails with NotFound if absent.
    Subtracts its resource vector, removes from pods, bumps generation".
    A pod without a key locates nothing. *)
Definition NodeInfo_RemovePod (h : gmap loc Pod) (n : NodeInfo) (p : loc) : error + NodeInfo :=
  match getPodKey (deref h p) with
  | (_, Some err) => inl err
  | (k, None) =>
      match remove_by_key h k (pods n) with
      | None => inl NoCorrespondingPod
      | Some rest =>
          let res := calculateResource (deref h p) in
          let '(cpu0, mem0) := calculateNonzero (deref h p) in
          inr {| node := node n;
                 pods := rest;
                 requestedResource := Resource_minus (requestedResource n) res;
                 nonzeroRequest :=
                   {| MilliCPU := sub64 (MilliCPU (nonzeroRequest n)) cpu0;
                      Memory := sub64 (Memory (nonzeroRequest n)) mem0;
                      EphemeralStorage := EphemeralStorage (nonzeroRequest n);
                      ScalarResources := ScalarResources (nonzeroRequest n) |};
                 allocatableResource := allocatableResource n;
                 generation := add64 (generation n) 1 |}
      end
  end.

(** Modelled from the spec: [NodeInfo.SetNode] of [node_info.go]: "stores
    the node descriptor; recomputes allocatableResource from it; bumps
    generation".  It states no failure. *)
Definition NodeInfo_SetNode (n : NodeInfo) (nd : Node) : option error * NodeInfo :=
  (None,
   {| node := Some nd; pods := pods n;
      requestedResource := requestedResource n;
      nonzeroRequest := nonzeroRequest n;
      allocatableResource := Resource_Add emptyResource (Some (node_Allocatable nd));
      generation := add64 (generation n) 1 |}).

(** Modelled from the spec: [NodeInfo.RemoveNode] of [node_info.go]:
    "clears the node descriptor; bumps generation".  It states no
    failure. *)
Definition NodeInfo_RemoveNode (n : NodeInfo) (nd : Node) : option error * NodeInfo :=
  (None,
   {| node := None; pods := pods n;
      requestedResource := requestedResource n;
      nonzeroRequest := nonzeroRequest n;
      allocatableResource := allocatableResource n;
      generation := add64 (generation n) 1 |}).

(** ** The assumed-pod state machine *)

(** [addPod]: the node record is created on first reference. *)
Definition addPod (h : gmap loc Pod) (c : schedulerCache) (p : loc) : schedulerCache :=
  let name := NodeName (Spec (deref h p)) in
  let n := default NewNodeInfo (nodes c !! name) in
  with_nodes (<[name := NodeInfo_AddPod h n p]> (nodes c)) c.

(** [removePod]: [n] is the nil pointer when the node is not in the map,
    and both [n.RemovePod], which reads [n.pods], and [len(n.pods)]
    dereference it. *)
Definition removePod (h : gmap loc Pod) (c : schedulerCache) (p : loc)
  : exec (option error * schedulerCache) :=
  let name := NodeName (Spec (deref h p)) in
  match nodes c !! name with
  | None => Crashed NilDereference
  | Some n =>
      match NodeInfo_RemovePod h n p with
      | inl err => Returned (Some err) c
      | inr n' =>
          if bool_decide (length (pods n') = 0%nat) && bool_decide (node n' = None)
          then Returned None (with_nodes (delete name (nodes c)) c)
          else Returned None (with_nodes (<[name := n']> (nodes c)) c)
      end
  end.

Definition AssumePod (h : gmap loc Pod) (c : schedulerCache) (p : loc)
  : exec (option error * schedulerCache) :=
  match getPodKey (deref h p) with
  | (_, Some err) => Returned (Some err) c
  | (key, None) =>
      match podStates c !! key with
      | Some _ => Returned (Some (AlreadyPresent key)) c
      | None =>
          let c1 := addPod h c p in
          let ps := {| pod := p; deadline := None; bindingFinished := false |} in
          let c2 := with_podStates (<[key := ps]> (podStates c1)) c1 in
          Returned None (with_assumedPods ({[key]} ∪ assumedPods c2) c2)
      end
  end.

(** [finishBinding], with [now] injected; [now.Add(cache.ttl)] is the sum
    of two integers (time in ticks). *)
Definition finishBinding (h : gmap loc Pod) (c : schedulerCache) (p : loc) (now : Z)
  : exec (option error * schedulerCache) :=
  match getPodKey (deref h p) with
  | (_, Some err) => Returned (Some err) c
  | (key, None) =>
      match podStates c !! key with
      | Some currState =>
          if bool_decide (key ∈ assumedPods c) then
            let dl := (now + ttl c)%Z in
            Returned None
              (with_podStates
                 (<[key := {| pod := pod currState; deadline := Some dl;
                              bindingFinished := true |}]> (podStates c)) c)
          else Returned None c
      | None => Returned None c
      end
  end.

Definition ForgetPod (h : gmap loc Pod) (c : schedulerCache) (p : loc)
  : exec (option error * schedulerCache) :=
  match getPodKey (deref h p) with
  | (_, Some err) => Returned (Some err) c
  | (key, None) =>
      match podStates c !! key with
      | Some currState =>
          if bool_decide (NodeName (Spec (deref h (pod currState)))
                          ≠ NodeName (Spec (deref h p)))
          then Returned (Some (NodeMismatch key)) c
          else if bool_decide (key ∈ assumedPods c) then
            '(err, c1) ← removePod h c p;
            match err with
            | Some e => Returned (Some e) c1
            | None =>
                let c2 := with_assumedPods (assumedPods c1 ∖ {[key]}) c1 in
                Returned None (with_podStates (delete key (podStates c2)) c2)
            end
          else Returned (Some (NotAssumed key)) c
      | None => Returned (Some (NotAssumed key)) c
      end
  end.

(** ** The resize decision engine *)

(** A Go [for] loop whose body may panic. *)
Fixpoint forM {S I : Type} (body : S -> I -> exec S) (l : list I) (s : S) : exec S :=
  match l with
  | [] => Done s
  | i :: rest => s' ← body s i; forM body rest s'
  end.

(** [for k, v := range upd { base[k] = v }]: no iteration for a nil or
    empty [upd]; otherwise an assignment to an entry of [base], which
    panics on the nil map. *)
Definition overlay (base upd : option (gmap string Z)) : exec (option (gmap string Z)) :=
  match upd with
  | None => Done base
  | Some u =>
      if bool_decide (u = ∅) then Done base
      else match base with
           | None => Crashed NilMapAssignment
           | Some b => Done (Some (u ∪ b))
           end
  end.

Definition resizeContainersMap_of (req : option (list ContainerResources))
  : gmap string Container :=
  foldl (fun m c => <[cr_Name c := {| c_Name := cr_Name c;
                                      c_Resources := cr_Resources c |}]> m)
        ∅ (default [] req).

Definition resizeRequirements_step (rmap : gmap string Container)
    (podResource : Resource) (container : Container) : exec Resource :=
  let containerResourcesRequests := Requests (c_Resources container) in
  r ← match rmap !! c_Name container with
      | Some resizeContainer =>
          overlay containerResourcesRequests (Requests (c_Resources resizeContainer))
      | None => Done containerResourcesRequests
      end;
  Done (Resource_Add podResource r).

(** [getPodResizeRequirements]; its error is always nil. *)
Definition getPodResizeRequirements (p : Pod) : exec (gmap string Container * Resource) :=
  match ResizeResources (Spec p) with
  | None => Crashed NilDereference
  | Some rr =>
      let resizeContainersMap := resizeContainersMap_of (Request rr) in
      podResource ← forM (resizeRequirements_step resizeContainersMap)
                         (Containers (Spec p)) emptyResource;
      Done (resizeContainersMap, podResource)
  end.

(** A write to a field of [l.Spec.ResizeResources], a pointer. *)
Definition update_resize (l : loc)
    (f : Pod -> PodResizeResources -> PodResizeResources) (h : gmap loc Pod)
  : exec (gmap loc Pod) :=
  let p := deref h l in
  match ResizeResources (Spec p) with
  | None => Crashed NilDereference
  | Some rr => Done (<[l := with_ResizeResources (f p rr) p]> h)
  end.

(** [l.Spec.Containers[i].Resources.X = v]. *)
Definition assignList (set : option (gmap string Z) -> Container -> Container)
    (l : loc) (i : nat) (v : option (gmap string Z)) (h : gmap loc Pod)
  : exec (gmap loc Pod) :=
  match Containers (Spec (deref h l)) !! i with
  | None => Crashed IndexOutOfRange
  | Some c => Done (<[l := with_Containers (<[i := set v c]>) (deref h l)]> h)
  end.

(** [for k, v := range u { l.Spec.Containers[i].Resources.X[k] = v }]
    for a non-empty [u]. *)
Definition overwriteList (get : ResourceRequirements -> option (gmap string Z))
    (set : option (gmap string Z) -> Container -> Container)
    (l : loc) (i : nat) (u : gmap string Z) (h : gmap loc Pod)
  : exec (gmap loc Pod) :=
  match Containers (Spec (deref h l)) !! i with
  | None => Crashed IndexOutOfRange
  | Some c =>
      match get (c_Resources c) with
      | None => Crashed NilMapAssignment
      | Some b => Done (<[l := with_Containers (<[i := set (Some (u ∪ b)) c]>) (deref h l)]> h)
      end
  end.

Definition restoreList (set : option (gmap string Z) -> Container -> Container)
    (saved : option (gmap string Z)) (newPod cachedPod : loc) (i : nat)
    (h : gmap loc Pod) : exec (gmap loc Pod) :=
  match saved with
  | None => Done h
  | Some v =>
      h1 ← assignList set newPod i (Some v) h;
      assignList set cachedPod i (Some v) h1
  end.

Definition rollback_step (newPod cachedPod : loc) (h : gmap loc Pod) (i : nat)
  : exec (gmap loc Pod) :=
  match Containers (Spec (deref h newPod)) !! i with
  | None => Crashed IndexOutOfRange
  | Some container =>
      match ResizeResources (Spec (deref h newPod)) with
      | None => Crashed NilDereference
      | Some rr =>
          match List.find (fun rb => bool_decide (cr_Name rb = c_Name container))
                          (default [] (Rollback rr)) with
          | None => Done h
          | Some rollbackResources =>
              h1 ← restoreList with_Requests
                     (Requests (cr_Resources rollbackResources)) newPod cachedPod i h;
              restoreList with_Limits
                (Limits (cr_Resources rollbackResources)) newPod cachedPod i h1
          end
      end
  end.

(** [rollbackPodResources]: the error of [getPodKey] is dropped, and the
    state found under the key is dereferenced without a check. *)
Definition rollbackPodResources (h : gmap loc Pod) (c : schedulerCache)
    (oldPod newPod : loc) : exec (gmap loc Pod) :=
  let podKey := fst (getPodKey (deref h oldPod)) in
  match podStates c !! podKey with
  | None => Crashed NilDereference
  | Some currPodState =>
      let cachedPod := pod currPodState in
      forM (rollback_step newPod cachedPod)
           (seq 0 (length (Containers (Spec (deref h newPod))))) h
  end.

Definition resizeList (get : ResourceRequirements -> option (gmap string Z))
    (set : option (gmap string Z) -> Container -> Container)
    (upd : option (gmap string Z)) (newPod cachedPod : loc) (i : nat)
    (h : gmap loc Pod) : exec (gmap loc Pod) :=
  match upd with
  | None => Done h
  | Some u =>
      if bool_decide (u = ∅) then Done h
      else h1 ← overwriteList get set newPod i u h;
           overwriteList get set cachedPod i u h1
  end.

Definition setupInPlace_step (rmap : gmap string Container) (newPod cachedPod : loc)
    (st : gmap loc Pod * option (list ContainerResources)) (i : nat)
  : exec (gmap loc Pod * option (list ContainerResources)) :=
  let '(h, rollbackResources) := st in
  match Containers (Spec (deref h newPod)) !! i with
  | None => Crashed IndexOutOfRange
  | Some container =>
      match rmap !! c_Name container with
      | None => Done (h, rollbackResources)
      | Some resizeContainer =>
          let rollbackRes :=
            {| cr_Name := c_Name container;
               cr_Resources :=
                 {| Limits := Limits (c_Resources container);
                    Requests := Requests (c_Resources container) |} |} in
          h1 ← resizeList Requests with_Requests
                 (Requests (c_Resources resizeContainer)) newPod cachedPod i h;
          h2 ← resizeList Limits with_Limits
                 (Limits (c_Resources resizeContainer)) newPod cachedPod i h1;
          Done (h2, Some (default [] rollbackResources ++ [rollbackRes])%list)
      end
  end.

Definition stamp (a : ResizeAction) (rb : option (list ContainerResources))
    (p : Pod) (rr : PodResizeResources) : PodResizeResources :=
  {| Request := Request rr; ActionVersion := ResourceVersion p;
     Action := a; Rollback := rb |}.

Definition setupInPlaceResizeAction (h : gmap loc Pod) (c : schedulerCache)
    (oldPod newPod : loc) (resizeContainersMap : gmap string Container)
  : exec (gmap loc Pod) :=
  let podKey := fst (getPodKey (deref h oldPod)) in
  match podStates c !! podKey with
  | None => Crashed NilDereference
  | Some currPodState =>
      let cachedPod := pod currPodState in
      '(h1, rollbackResources) ←
        forM (setupInPlace_step resizeContainersMap newPod cachedPod)
             (seq 0 (length (Containers (Spec (deref h newPod))))) (h, None);
      update_resize newPod (stamp ResizeActionUpdate rollbackResources) h1
  end.

(** [processPodResizeStatus]: only the first condition of type
    [PodResourcesResizeStatus] is looked at. *)
Definition processPodResizeStatus (h : gmap loc Pod) (c : schedulerCache)
    (oldPod newPod : loc) : exec (gmap loc Pod) :=
  match List.find (fun pc => bool_decide (cond_Type pc = PodResourcesResizeStatus))
                  (Conditions (Status (deref h newPod))) with
  | None => Done h
  | Some podCondition =>
      match ResizeResources (Spec (deref h newPod)) with
      | None => Crashed NilDereference
      | Some rr =>
          if bool_decide (cond_Message podCondition = ActionVersion rr) then
            h1 ← (if bool_decide (cond_Status podCondition = ConditionFalse)
                     && bool_decide (Rollback rr ≠ None)
                  then rollbackPodResources h c oldPod newPod
                  else Done h);
            update_resize newPod (stamp ResizeActionUpdateDone None) h1
          else Done h
      end
  end.

(** [listPDBs]: [order] is the sequence in which the [range] over the
    map [pdbs] yields its values, which Go leaves unspecified.  The error
    is always nil. *)
Definition listPDBs (selector : Selector) (order : list PodDisruptionBudget)
  : list PodDisruptionBudget :=
  filter (fun pdb => Matches selector (pdb_Labels pdb) = true) order.

Definition pdb_order (c : schedulerCache) (order : list PodDisruptionBudget) : Prop :=
  order ≡ₚ (map_to_list (pdbs c)).*2.

Fixpoint checkPodDisruptionBudget_loop (p : Pod) (l : list PodDisruptionBudget)
  : bool * option error :=
  match l with
  | [] => (true, None)
  | pdb :: rest =>
      match LabelSelectorAsSelector (pdb_Selector pdb) with
      | Some selector =>
          if Empty selector || negb (Matches selector (Labels p))
          then checkPodDisruptionBudget_loop p rest
          else if bool_decide (PodDisruptionsAllowed pdb <= 0)%Z
               then (false, None)
               else checkPodDisruptionBudget_loop p rest
      | None => (false, Some (SelectorInvalid (pdb_Name pdb)))
      end
  end.

Definition checkPodDisruptionBudgetOk (p : Pod) (order : list PodDisruptionBudget)
  : bool * option error :=
  checkPodDisruptionBudget_loop p (listPDBs Everything order).

Definition clear_request (p : Pod) (rr : PodResizeResources) : PodResizeResources :=
  {| Request := None; ActionVersion := ActionVersion rr;
     Action := Action rr; Rollback := Rollback rr |}.

Definition set_actionVersion (p : Pod) (rr : PodResizeResources) : PodResizeResources :=
  {| Request := Request rr; ActionVersion := ResourceVersion p;
     Action := Action rr; Rollback := Rollback rr |}.

Definition set_action (a : ResizeAction) (p : Pod) (rr : PodResizeResources)
  : PodResizeResources :=
  {| Request := Request rr; ActionVersion := ActionVersion rr;
     Action := a; Rollback := Rollback rr |}.

Definition restart_request (p : Pod) (rr : PodResizeResources) : PodResizeResources :=
  {| Request := None; ActionVersion := ResourceVersion p;
     Action := ResizeActionReschedule; Rollback := Rollback rr |}.

Definition processPodResourcesScaling (h : gmap loc Pod) (c : schedulerCache)
    (oldPod newPod : loc) (order : list PodDisruptionBudget)
  : exec (option error * gmap loc Pod) :=
  match nodes c !! NodeName (Spec (deref h newPod)) with
  | None => Returned (Some (UnknownNode (NodeName (Spec (deref h newPod))))) h
  | Some node =>
      let resizeResourcesPolicy :=
        if bool_decide (ResizeResourcesPolicy (Spec (deref h newPod)) ≠ ResizePolicyUnset)
        then ResizeResourcesPolicy (Spec (deref h newPod))
        else ResizePolicyInPlacePreferred in
      h1 ← processPodResizeStatus h c oldPod newPod;
      match ResizeResources (Spec (deref h1 newPod)) with
      | None => Crashed NilDereference
      | Some rr =>
          if bool_decide (length (default [] (Request rr)) ≠ 0%nat) then
            if bool_decide (resizeResourcesPolicy = ResizePolicyRestart) then
              h2 ← update_resize newPod restart_request h1;
              Returned None h2
            else
              '(resizeContainersMap, podResource) ←
                getPodResizeRequirements (deref h1 newPod);
              h2 ← update_resize newPod clear_request h1;
              let allocatable := allocatableResource node in
              let nodeMilliCPU := MilliCPU (requestedResource node) in
              let nodeMemory := Memory (requestedResource node) in
              if (MilliCPU allocatable >? add64 (MilliCPU podResource) nodeMilliCPU)%Z
                 && (Memory allocatable >? add64 (Memory podResource) nodeMemory)%Z
              then
                h3 ← setupInPlaceResizeAction h2 c oldPod newPod resizeContainersMap;
                Returned None h3
              else
                h3 ← update_resize newPod set_actionVersion h2;
                if bool_decide (resizeResourcesPolicy = ResizePolicyInPlaceOnly) then
                  h4 ← update_resize newPod (set_action ResizeActionNonePerPolicy) h3;
                  Returned None h4
                else if (0 <? size (Labels (deref h3 newPod)))%nat then
                  match checkPodDisruptionBudgetOk (deref h3 newPod) order with
                  | (_, Some err) => Returned (Some err) h3
                  | (false, None) =>
                      h4 ← update_resize newPod
                             (set_action ResizeActionNonePerPDBViolation) h3;
                      Returned None h4
                  | (true, None) =>
                      h4 ← update_resize newPod (set_action ResizeActionReschedule) h3;
                      Returned None h4
                  end
                else
                  h4 ← update_resize newPod (set_action ResizeActionReschedule) h3;
                  Returned None h4
          else Returned None h1
      end
  end.

(** ** Authoritative events *)

(** [updatePod]: the new pod is added even when the resize engine
    returned an error. *)
Definition updatePod (h : gmap loc Pod) (c : schedulerCache) (oldPod newPod : loc)
    (order : list PodDisruptionBudget)
  : exec (option error * (gmap loc Pod * schedulerCache)) :=
  '(err, c1) ← removePod h c oldPod;
  match err with
  | Some e => Returned (Some e) (h, c1)
  | None =>
      '(err2, h1) ←
        (if VerticalScaling
            && bool_decide (Phase (Status (deref h oldPod)) = PodRunning)
            && bool_decide (Phase (Status (deref h newPod)) = PodRunning)
            && bool_decide (DeletionTimestamp (deref h newPod) = None)
            && bool_decide (ResizeResources (Spec (deref h newPod)) ≠ None)
         then processPodResourcesScaling h c1 oldPod newPod order
         else Returned None h);
      Returned err2 (h1, addPod h1 c1 newPod)
  end.

(** [AddPod]: the error of [removePod] is dropped in the confirming
    case. *)
Definition AddPod (h : gmap loc Pod) (c : schedulerCache) (p : loc)
  : exec (option error * schedulerCache) :=
  match getPodKey (deref h p) with
  | (_, Some err) => Returned (Some err) c
  | (key, None) =>
      match podStates c !! key with
      | Some currState =>
          if bool_decide (key ∈ assumedPods c) then
            c1 ← (if bool_decide (NodeName (Spec (deref h (pod currState)))
                                  ≠ NodeName (Spec (deref h p)))
                  then '(_, c') ← removePod h c (pod currState);
                       Done (addPod h c' p)
                  else Done c);
            let c2 := with_assumedPods (assumedPods c1 ∖ {[key]}) c1 in
            match podStates c2 !! key with
            | None => Crashed NilDereference
            | Some ps =>
                Returned None
                  (with_podStates
                     (<[key := {| pod := p; deadline := None;
                                  bindingFinished := bindingFinished ps |}]>
                        (podStates c2)) c2)
            end
          else Returned (Some (AlreadyAdded key)) c
      | None =>
          let c1 := addPod h c p in
          let ps := {| pod := p; deadline := None; bindingFinished := false |} in
          Returned None (with_podStates (<[key := ps]> (podStates c1)) c1)
      end
  end.

Definition UpdatePod (h : gmap loc Pod) (c : schedulerCache) (oldPod newPod : loc)
    (order : list PodDisruptionBudget)
  : exec (option error * (gmap loc Pod * schedulerCache)) :=
  match getPodKey (deref h oldPod) with
  | (_, Some err) => Returned (Some err) (h, c)
  | (key, None) =>
      match podStates c !! key with
      | Some currState =>
          if negb (bool_decide (key ∈ assumedPods c)) then
            if bool_decide (NodeName (Spec (deref h (pod currState)))
                            ≠ NodeName (Spec (deref h newPod)))
            then Crashed Fatalf
            else updatePod h c oldPod newPod order
          else Returned (Some (NotAdded key)) (h, c)
      | None => Returned (Some (NotAdded key)) (h, c)
      end
  end.

Definition RemovePod (h : gmap loc Pod) (c : schedulerCache) (p : loc)
  : exec (option error * schedulerCache) :=
  match getPodKey (deref h p) with
  | (_, Some err) => Returned (Some err) c
  | (key, None) =>
      match podStates c !! key with
      | Some currState =>
          if negb (bool_decide (key ∈ assumedPods c)) then
            if bool_decide (NodeName (Spec (deref h (pod currState)))
                            ≠ NodeName (Spec (deref h p)))
            then Crashed Fatalf
            else
              '(err, c1) ← removePod h c (pod currState);
              match err with
              | Some e => Returned (Some e) c1
              | None => Returned None (with_podStates (delete key (podStates c1)) c1)
              end
          else Returned (Some (NotFound key)) c
      | None => Returned (Some (NotFound key)) c
      end
  end.

Definition IsAssumedPod (h : gmap loc Pod) (c : schedulerCache) (p : loc)
  : bool * option error :=
  match getPodKey (deref h p) with
  | (_, Some err) => (false, Some err)
  | (key, None) => (bool_decide (key ∈ assumedPods c), None)
  end.

Definition AddNode (c : schedulerCache) (nd : Node) : exec (option error * schedulerCache) :=
  let n := default NewNodeInfo (nodes c !! node_Name nd) in
  let '(err, n') := NodeInfo_SetNode n nd in
  Returned err (with_nodes (<[node_Name nd := n']> (nodes c)) c).

Definition UpdateNode (c : schedulerCache) (oldNode newNode : Node)
  : exec (option error * schedulerCache) :=
  let n := default NewNodeInfo (nodes c !! node_Name newNode) in
  let '(err, n') := NodeInfo_SetNode n newNode in
  Returned err (with_nodes (<[node_Name newNode := n']> (nodes c)) c).

(** [RemoveNode]: the looked-up [n] is used without a presence check;
    for an untracked name it is the nil pointer, through which
    [n.RemoveNode] writes the descriptor and [len(n.pods)] reads. *)
Definition RemoveNode (c : schedulerCache) (nd : Node) : exec (option error * schedulerCache) :=
  match nodes c !! node_Name nd with
  | None => Crashed NilDereference
  | Some n =>
      match NodeInfo_RemoveNode n nd with
      | (Some err, n') => Returned (Some err) (with_nodes (<[node_Name nd := n']> (nodes c)) c)
      | (None, n') =>
          if bool_decide (length (pods n') = 0%nat) && bool_decide (node n' = None)
          then Returned None (with_nodes (delete (node_Name nd) (nodes c)) c)
          else Returned None (with_nodes (<[node_Name nd := n']> (nodes c)) c)
      end
  end.

Definition AddPDB (c : schedulerCache) (pdb : PodDisruptionBudget)
  : exec (option error * schedulerCache) :=
  Returned None (with_pdbs (<[pdb_UID pdb := pdb]> (pdbs c)) c).

Definition UpdatePDB (c : schedulerCache) (oldPDB newPDB : PodDisruptionBudget)
  : exec (option error * schedulerCache) :=
  AddPDB c newPDB.

Definition RemovePDB (c : schedulerCache) (pdb : PodDisruptionBudget)
  : exec (option error * schedulerCache) :=
  Returned None (with_pdbs (delete (pdb_UID pdb) (pdbs c)) c).

(** ** The expiration reaper *)

Definition expirePod (h : gmap loc Pod) (c : schedulerCache) (key : string) (ps : podState)
  : exec (option error * schedulerCache) :=
  '(err, c1) ← removePod h c (pod ps);
  match err with
  | Some e => Returned (Some e) c1
  | None =>
      let c2 := with_assumedPods (assumedPods c1 ∖ {[key]}) c1 in
      Returned None (with_podStates (delete key (podStates c2)) c2)
  end.

(** One iteration of the [range] over [assumedPods]; an error of
    [expirePod] is logged and the loop goes on. *)
Definition cleanup_step (h : gmap loc Pod) (now : Z) (c : schedulerCache) (key : string)
  : exec schedulerCache :=
  match podStates c !! key with
  | None => Crashed ExplicitPanic
  | Some ps =>
      if negb (bindingFinished ps) then Done c
      else match deadline ps with
           | None => Crashed NilDereference
           | Some dl =>
               if (now >? dl)%Z then
                 '(_, c1) ← expirePod h c key ps; Done c1
               else Done c
           end
  end.

(** [cleanupAssumedPods], with [now] injected.  [keys] is the sequence in
    which the [range] yields the keys of [assumedPods]; the loop deletes
    no key but the current one, so every key of the set is yielded
    once. *)
Definition cleanupAssumedPods (h : gmap loc Pod) (c : schedulerCache) (now : Z)
    (keys : list string) : exec schedulerCache :=
  forM (cleanup_step h now) keys c.

Definition key_order (c : schedulerCache) (keys : list string) : Prop :=
  keys ≡ₚ elements (assumedPods c).

(** ** The mutating operations as one step function *)

Inductive operation :=
| OpAssumePod (p : loc)
| OpFinishBinding (p : loc) (now : Z)
| OpForgetPod (p : loc)
| OpAddPod (p : loc)
| OpUpdatePod (oldPod newPod : loc) (order : list PodDisruptionBudget)
| OpRemovePod (p : loc)
| OpAddNode (nd : Node)
| OpUpdateNode (oldNode newNode : Node)
| OpRemoveNode (nd : Node)
| OpExpirePod (key : string) (ps : podState).

Definition keep_heap (h : gmap loc Pod) (r : exec (option error * schedulerCache))
  : exec (option error * (gmap loc Pod * schedulerCache)) :=
  '(err, c) ← r; Returned err (h, c).

Definition run (o : operation) (h : gmap loc Pod) (c : schedulerCache)
  : exec (option error * (gmap loc Pod * schedulerCache)) :=
  match o with
  | OpAssumePod p => keep_heap h (AssumePod h c p)
  | OpFinishBinding p now => keep_heap h (finishBinding h c p now)
  | OpForgetPod p => keep_heap h (ForgetPod h c p)
  | OpAddPod p => keep_heap h (AddPod h c p)
  | OpUpdatePod oldPod newPod order => UpdatePod h c oldPod newPod order
  | OpRemovePod p => keep_heap h (RemovePod h c p)
  | OpAddNode nd => keep_heap h (AddNode c nd)
  | OpUpdateNode o n => keep_heap h (UpdateNode c o n)
  | OpRemoveNode nd => keep_heap h (RemoveNode c nd)
  | OpExpirePod key ps => keep_heap h (expirePod h c key ps)
  end.

(** ** Queries *)

(** What [GetPod] returns beside the error of [getPodKey]: its own error
    "pod %v does not exist in scheduler cache". *)
Inductive lookup_error :=
| LookupKeyError (e : error)
| DoesNotExist (key : string).

(** [GetPod]: the cached pod of the key of [p], which need not be [p]. *)
Definition GetPod (h : gmap loc Pod) (c : schedulerCache) (p : loc)
  : option loc * option lookup_error :=
  match getPodKey (deref h p) with
  | (_, Some err) => (None, Some (LookupKeyError err))
  | (key, None) =>
      match podStates c !! key with
      | None => (None, Some (DoesNotExist key))
      | Some ps => (Some (pod ps), None)
      end
  end.

(** [order] is a sequence in which a [range] over [cache.nodes] yields
    the node records. *)
Definition node_order (c : schedulerCache) (order : list NodeInfo) : Prop :=
  order ≡ₚ (map_to_list (nodes c)).*2.

(** The capacity [FilteredList] allocates: the sum of [len(info.pods)]
    over a first [range].  The slices exist together, so the sum of their
    lengths is a length as well and stays below the bound of [int]. *)
Definition FilteredList_maxSize (sizing : list NodeInfo) : nat :=
  foldl (fun maxSize info => (maxSize + length (pods info))%nat) 0%nat sizing.

(** [FilteredList]: a second [range] over the nodes, in the order
    [order], appends the pods that pass the filter and whose labels the
    selector matches.  A [PodFilter] reads the pod it is given.  The
    error is always nil. *)
Definition FilteredList (h : gmap loc Pod) (podFilter : Pod -> bool)
    (selector : Selector) (order : list NodeInfo) : list loc * option error :=
  (foldl (fun acc info =>
            foldl (fun acc pod =>
                     if podFilter (deref h pod)
                        && Matches selector (Labels (deref h pod))
                     then acc ++ [pod] else acc)
                  acc (pods info))
         [] order,
   None).

(** [List]. *)
Definition List (h : gmap loc Pod) (selector : Selector) (order : list NodeInfo)
  : list loc * option error :=
  let alwaysTrue := fun _ : Pod => true in
  FilteredList h alwaysTrue selector order.

(** [ListPDBs]. *)
Definition ListPDBs (selector : Selector) (order : list PodDisruptionBudget)
  : list PodDisruptionBudget * option error :=
  (listPDBs selector order, None).

(** ** Reconciliation of a caller's node map *)

(** [nodeNameToInfo[name] = info.Clone()]: an assignment to an entry of
    the caller's map, which panics on the nil map.  The clone of a record
    is the record: the embedding holds node records by value. *)
Definition assignClone (target : option (gmap string NodeInfo)) (name : string)
    (info : NodeInfo) : exec (option (gmap string NodeInfo)) :=
  match target with
  | None => Crashed NilMapAssignment
  | Some m => Done (Some (<[name := info]> m))
  end.

(** One iteration of the first loop of [UpdateNodeNameToInfoMap].  A
    lookup in the nil map finds nothing.  The transient information that
    the loop resets under a feature gate is not among the fields that the
    embedding keeps of a node record. *)
Definition reconcile_step (target : option (gmap string NodeInfo))
    (entry : string * NodeInfo) : exec (option (gmap string NodeInfo)) :=
  let '(name, info) := entry in
  match default ∅ target !! name with
  | Some current =>
      if bool_decide (generation current ≠ generation info)
      then assignClone target name info
      else Done target
  | None => assignClone target name info
  end.

(** One iteration of the second loop: [delete] on the nil map does
    nothing. *)
Definition prune_step (c : schedulerCache) (target : option (gmap string NodeInfo))
    (name : string) : option (gmap string NodeInfo) :=
  match nodes c !! name with
  | None => delete name <$> target
  | Some _ => target
  end.

(** [UpdateNodeNameToInfoMap].  [order] is the sequence in which the
    first [range] yields the entries of [cache.nodes], and [range2 m] the
    sequence in which the second yields the keys of the caller's map when
    that map is [m]; the second loop deletes no key but the current one.
    The error is always nil, and the maps of the cache are only read. *)
Definition UpdateNodeNameToInfoMap (c : schedulerCache)
    (nodeNameToInfo : option (gmap string NodeInfo))
    (order : list (string * NodeInfo))
    (range2 : gmap string NodeInfo -> list string)
  : exec (option error * option (gmap string NodeInfo)) :=
  t1 ← forM reconcile_step order nodeNameToInfo;
  Returned None (foldl (prune_step c) t1 (range2 (default ∅ t1))).

Definition entry_order (c : schedulerCache) (order : list (string * NodeInfo)) : Prop :=
  order ≡ₚ map_to_list (nodes c).

Definition key_range (range2 : gmap string NodeInfo -> list string) : Prop :=
  forall m, range2 m ≡ₚ (map_to_list m).*1.

(** [IsUpToDate]: [n.Node()] is the descriptor of [n], the nil pointer
    when the record has none, and [.Name] dereferences it. *)
Definition IsUpToDate (c : schedulerCache) (n : NodeInfo) : exec bool :=
  match node n with
  | None => Crashed NilDereference
  | Some nd =>
      match nodes c !! node_Name nd with
      | Some node0 => Done (bool_decide (generation n = generation node0))
      | None => Done false
      end
  end.

(** ** Accounting of a key on a node *)

(** How many pods of [l] carry key [k]. *)
Definition count_key (h : gmap loc Pod) (k : string) (l : list loc) : nat :=
  length (filter (fun p => has_key h k p = true) l).

(** How often key [k] is accounted on the node called [name]; a node
    the cache does not track accounts nothing. *)
Definition accounted (h : gmap loc Pod) (c : schedulerCache) (name k : string) : nat :=
  match nodes c !! name with
  | Some n => count_key h k (pods n)
  | None => 0
  end.

(** Invariant 1: a key in [assumedPods] is also a key in [podStates]. *)
Definition assumed_have_state (c : schedulerCache) : Prop :=
  forall k, k ∈ assumedPods c -> is_Some (podStates c !! k).

(** The node record [n'] is what a removal left of [n]. *)
Definition emptied (h : gmap loc Pod) (n n' : NodeInfo) : Prop :=
  (exists p, NodeInfo_RemovePod h n p = inr n')
  \/ (exists nd, NodeInfo_RemoveNode n nd = (None, n')).

(** Invariant 5, as a property of a transition from [c] to [c']: a node
    record that left the map was, when it was deleted, without pods and
    without descriptor. *)
Definition deleted_only_when_empty (h : gmap loc Pod) (c c' : schedulerCache) : Prop :=
  forall name n, nodes c !! name = Some n -> nodes c' !! name = None ->
    exists n', emptied h n n' /\ pods n' = [] /\ node n' = None.

(** The reaper evicts a state at time [now]: its binding is finished and
    [now] is after its deadline. *)
Definition expired (now : Z) (ps : podState) : bool :=
  bindingFinished ps
  && match deadline ps with
     | Some dl => (now >? dl)%Z
     | None => false
     end.

Definition expires (now : Z) (c : schedulerCache) (k : string) : bool :=
  match podStates c !! k with
  | Some ps => expired now ps
  | None => false
  end.

(** The node that the cached pod of key [k] names. *)
Definition node_of (h : gmap loc Pod) (c : schedulerCache) (k : string) : string :=
  match podStates c !! k with
  | Some ps => NodeName (Spec (deref h (pod ps)))
  | None => ""
  end.

(** What the invariants give for the assumed keys: each has a state
    (invariant 1) whose cached pod carries the key and is accounted on the
    node it names (invariant 2), with a deadline once the binding is
    finished (invariant 4). *)
Definition assumed_accounted (h : gmap loc Pod) (c : schedulerCache) : Prop :=
  forall k, k ∈ assumedPods c ->
    exists ps, podStates c !! k = Some ps
      /\ getPodKey (deref h (pod ps)) = (k, None)
      /\ (1 <= accounted h c (NodeName (Spec (deref h (pod ps)))) k)%nat
      /\ (bindingFinished ps = true -> is_Some (deadline ps)).

(** The policy the engine resolves: [InPlacePreferred] unless set. *)
Definition resolved_policy (p : Pod) : ResizePolicy :=
  if bool_decide (ResizeResourcesPolicy (Spec p) ≠ ResizePolicyUnset)
  then ResizeResourcesPolicy (Spec p)
  else ResizePolicyInPlacePreferred.

(** The capacity test of the engine on node record [n] for the
    prospective aggregate [podResource]. *)
Definition fits (n : NodeInfo) (podResource : Resource) : Prop :=
  (MilliCPU (allocatableResource n)
     > MilliCPU (requestedResource n) + MilliCPU podResource)%Z
  /\ (Memory (allocatableResource n)
       > Memory (requestedResource n) + Memory podResource)%Z.

(** The resize record of the pod at [l]. *)
Definition resize_of (h : gmap loc Pod) (l : loc) : option PodResizeResources :=
  ResizeResources (Spec (deref h l)).

(** A budget forbids the disruption of pod [p]: its selector converts,
    is not empty, matches the labels of [p], and no disruption is
    allowed. *)
Definition violating (p : Pod) (pdb : PodDisruptionBudget) : Prop :=
  exists sel, LabelSelectorAsSelector (pdb_Selector pdb) = Some sel
    /\ Empty sel = false /\ Matches sel (Labels p) = true
    /\ (PodDisruptionsAllowed pdb <= 0)%Z.

(** The selector of a budget does not convert. *)
Definition unparsable (pdb : PodDisruptionBudget) : Prop :=
  LabelSelectorAsSelector (pdb_Selector pdb) = None.

(** A budget that does not settle the consultation of [p]: it is
    ignored or it allows a disruption. *)
Definition undecisive (p : Pod) (pdb : PodDisruptionBudget) : Prop :=
  ~ violating p pdb /\ ~ unparsable pdb.

(** The consultation as the specification words it: any forbidding
    budget makes the answer "no", and any budget whose selector does not
    convert makes the consultation return an error. *)
Definition consultation_as_claimed (p : Pod) (order : list PodDisruptionBudget) : Prop :=
  ((exists pdb, pdb ∈ order /\ violating p pdb) ->
     checkPodDisruptionBudgetOk p order = (false, None))
  /\ ((exists pdb, pdb ∈ order /\ unparsable pdb) ->
       exists e, snd (checkPodDisruptionBudgetOk p order) = Some e).

(** The pod the engine leaves at the incoming address when it does not
    resize in place: the request is cleared, the action version is the
    resource version, and the action is [a] when one is stamped. *)
Definition decline (a : option ResizeAction) (p : Pod) (rr : PodResizeResources) : Pod :=
  with_ResizeResources
    {| Request := None; ActionVersion := ResourceVersion p;
       Action := default (Action rr) a; Rollback := Rollback rr |} p.

(** A resize list that makes the engine write: it is neither nil nor
    empty. *)
Definition needs (upd : option (gmap string Z)) : Prop :=
  exists u, upd = Some u /\ u <> ∅.

(** The resource list that results from overwriting [base] with the
    entries of [upd]. *)
Definition merged (upd base : option (gmap string Z)) : option (gmap string Z) :=
  match upd with
  | None => base
  | Some u => if bool_decide (u = ∅) then base else (fun b => u ∪ b) <$> base
  end.

(** Container [c] with its requests and limits overwritten by those of
    the resize entry [rc]. *)
Definition resized (rc c : Container) : Container :=
  with_Limits (merged (Limits (c_Resources rc)) (Limits (c_Resources c)))
    (with_Requests (merged (Requests (c_Resources rc)) (Requests (c_Resources c))) c).

(** What the commit makes of container [c] at the index of the incoming
    container [ct]: [c] resized when the resize names [ct]. *)
Definition resize_container (rmap : gmap string Container) (ct c : Container) : Container :=
  match rmap !! c_Name ct with
  | Some rc => resized rc c
  | None => c
  end.

(** The rollback records of the commit: the resources of every named
    container as they were, in container order; nil when none is
    named. *)
Definition rollback_records (rmap : gmap string Container) (cs : list Container)
  : option (list ContainerResources) :=
  foldl (fun rb ct =>
           match rmap !! c_Name ct with
           | Some _ =>
               Some (default [] rb
                     ++ [{| cr_Name := c_Name ct;
                            cr_Resources :=
                              {| Limits := Limits (c_Resources ct);
                                 Requests := Requests (c_Resources ct) |} |}])
           | None => rb
           end) None cs.

(** The resource lists the commit assigns into exist: for every named
    incoming container, a resize list that is not empty finds a map in
    the incoming container and in the cached container of the same
    index. *)
Definition writable (rmap : gmap string Container) (newC cachedC : list Container) : Prop :=
  forall i ct rc, newC !! i = Some ct -> rmap !! c_Name ct = Some rc ->
    (needs (Requests (c_Resources rc)) ->
       is_Some (Requests (c_Resources ct))
       /\ exists cc, cachedC !! i = Some cc /\ is_Some (Requests (c_Resources cc)))
    /\ (needs (Limits (c_Resources rc)) ->
         is_Some (Limits (c_Resources ct))
         /\ exists cc, cachedC !! i = Some cc /\ is_Some (Limits (c_Resources cc))).

(** Two pods that differ at most in their containers. *)
Definition same_but_containers (p q : Pod) : Prop :=
  with_Containers (fun _ => []) p = with_Containers (fun _ => []) q.

(** The state of the commit loop before index [i], from the store [h0]
    and the containers [newC] and [cachedC] it started with: the pods
    differ from those of [h0] at most in their containers, the containers
    below [i] of the incoming and of the cached pod are resized, and the
    rollback records are those of the incoming containers below [i]. *)
Definition commit_inv (rmap : gmap string Container) (newPod cachedPod : loc)
    (h0 : gmap loc Pod) (newC cachedC : list Container) (i : nat)
    (st : gmap loc Pod * option (list ContainerResources)) : Prop :=
  (forall l, same_but_containers (deref (fst st) l) (deref h0 l))
  /\ (forall j, Containers (Spec (deref (fst st) newPod)) !! j =
         (fun ct => if bool_decide (j < i)%nat then resize_container rmap ct ct else ct)
           <$> newC !! j)
  /\ (forall j, Containers (Spec (deref (fst st) cachedPod)) !! j =
         (fun cc => if bool_decide (j < i)%nat
                    then match newC !! j with
                         | Some ct => resize_container rmap ct cc
                         | None => cc
                         end
                    else cc)
           <$> cachedC !! j)
  /\ snd st = rollback_records rmap (take i newC).

(** The capacity test as the engine computes it. *)
Definition capacity_test (n : NodeInfo) (podResource : Resource) : bool :=
  (MilliCPU (allocatableResource n)
     >? add64 (MilliCPU podResource) (MilliCPU (requestedResource n)))%Z
  && (Memory (allocatableResource n)
        >? add64 (Memory podResource) (Memory (requestedResource n)))%Z.

(** [ForgetPod] as the specification words its errors: node mismatch
    whenever the key is present and the node names differ, and not
    assumed whenever the key is unknown or not in [assumedPods]. *)
Definition ForgetPod_as_claimed (h : gmap loc Pod) (c : schedulerCache) (p : loc)
    (key : string) : Prop :=
  (forall ps, podStates c !! key = Some ps ->
     NodeName (Spec (deref h (pod ps))) <> NodeName (Spec (deref h p)) ->
     ForgetPod h c p = Returned (Some (NodeMismatch key)) c)
  /\ (podStates c !! key = None \/ key ∉ assumedPods c ->
        ForgetPod h c p = Returned (Some (NotAssumed key)) c).

(** The commit as the specification words it, for a pod that carries a
    resize request: whenever the capacity suffices, the engine returns
    with the action [Update]. *)
Definition commit_as_claimed (h : gmap loc Pod) (c : schedulerCache)
    (oldPod newPod : loc) (order : list PodDisruptionBudget) : Prop :=
  forall n rmap podResource,
    nodes c !! NodeName (Spec (deref h newPod)) = Some n ->
    getPodResizeRequirements (deref h newPod) = Done (rmap, podResource) ->
    fits n podResource ->
    exists h3 rr3,
      processPodResourcesScaling h c oldPod newPod order = Returned None h3
      /\ resize_of h3 newPod = Some rr3
      /\ Action rr3 = ResizeActionUpdate.

(** The clearing of the request as the specification words it: whenever
    the engine runs on a pod whose resize request is not empty and whose
    requirements are computed, the request is nil after the call. *)
Definition request_cleared_as_claimed (h : gmap loc Pod) (c : schedulerCache)
    (oldPod newPod : loc) (order : list PodDisruptionBudget) : Prop :=
  forall rr rmap podResource e h',
    resize_of h newPod = Some rr ->
    length (default [] (Request rr)) <> 0%nat ->
    getPodResizeRequirements (deref h newPod) = Done (rmap, podResource) ->
    processPodResourcesScaling h c oldPod newPod order = Returned e h' ->
    exists rr', resize_of h' newPod = Some rr' /\ Request rr' = None.

(** ** Notions used by the properties of the other operations *)

(** The pods that the cache accounts on the node called [name]; a node
    the cache does not track accounts none. *)
Definition pods_on (c : schedulerCache) (name : string) : list loc :=
  match nodes c !! name with
  | Some n => pods n
  | None => []
  end.

(** What a node record [n] keeps when a pod is added to it and removed
    again, [n'] being the record afterwards: the descriptor, the
    allocatable resources, and the requested CPU and memory, each when it
    was a 64-bit value. *)
Definition same_sums (n n' : NodeInfo) : Prop :=
  node n' = node n
  /\ allocatableResource n' = allocatableResource n
  /\ (int64_range (MilliCPU (requestedResource n)) ->
        MilliCPU (requestedResource n') = MilliCPU (requestedResource n))
  /\ (int64_range (Memory (requestedResource n)) ->
        Memory (requestedResource n') = Memory (requestedResource n)).

(** The requests of container [ct] can take the resize that [rmap] holds
    for it: a resize list that is neither nil nor empty finds a map. *)
Definition assignable (rmap : gmap string Container) (ct : Container) : Prop :=
  forall rc, rmap !! c_Name ct = Some rc ->
    needs (Requests (c_Resources rc)) -> is_Some (Requests (c_Resources ct)).

(** The container that the resize map holds for an entry of a request. *)
Definition entry_container (cr : ContainerResources) : Container :=
  {| c_Name := cr_Name cr; c_Resources := cr_Resources cr |}.

(** The resource list that a rollback leaves: the saved one when one was
    saved. *)
Definition adopt (saved current : option (gmap string Z)) : option (gmap string Z) :=
  match saved with
  | Some v => Some v
  | None => current
  end.

(** Container [c] with the requests and the limits that container [ct]
    had, where it had some. *)
Definition restored (ct c : Container) : Container :=
  with_Limits (adopt (Limits (c_Resources ct)) (Limits (c_Resources c)))
    (with_Requests (adopt (Requests (c_Resources ct)) (Requests (c_Resources c))) c).

(** What the rollback makes of container [c] at the index of the
    incoming container that was [ct] when the resize was committed. *)
Definition restore_container (rmap : gmap string Container) (ct c : Container)
  : Container :=
  match rmap !! c_Name ct with
  | Some _ => restored ct c
  | None => c
  end.

(** The rollback record of a container. *)
Definition record_of (ct : Container) : ContainerResources :=
  {| cr_Name := c_Name ct;
     cr_Resources := {| Limits := Limits (c_Resources ct);
                        Requests := Requests (c_Resources ct) |} |}.

(** The first condition of type [PodResourcesResizeStatus] of a pod. *)
Definition resize_status (p : Pod) : option PodCondition :=
  List.find (fun pc => bool_decide (cond_Type pc = PodResourcesResizeStatus))
            (Conditions (Status p)).

(** The resize record once the status of a resize has been
    acknowledged. *)
Definition acknowledged (p : Pod) (rr : PodResizeResources) : PodResizeResources :=
  {| Request := Request rr; ActionVersion := ResourceVersion p;
     Action := ResizeActionUpdateDone; Rollback := None |}.

(** A key that the reaper cannot process: it has no state, or its
    binding is finished and it has no deadline. *)
Definition unreapable (c : schedulerCache) (k : string) : Prop :=
  podStates c !! k = None
  \/ exists ps, podStates c !! k = Some ps
       /\ bindingFinished ps = true /\ deadline ps = None.

(** What the reconciliation leaves under [name] of the caller's map [m]:
    nothing for a name the cache does not track; the caller's entry when
    it carries the generation of the record of the cache; the record of
    the cache otherwise. *)
Definition reconciled (c : schedulerCache) (m : gmap string NodeInfo) (name : string)
  : option NodeInfo :=
  match nodes c !! name with
  | None => None
  | Some info =>
      match m !! name with
      | Some current =>
          if bool_decide (generation current = generation info)
          then Some current else Some info
      | None => Some info
      end
  end.

End Model.

(** * The scheduler API: host priorities

    [HostPriorityList] of package [api] and the three methods that make
    it sortable. *)

Module SchedulerApi.

Record HostPriority := {
  Host : string;
  Score : Z
}.

#[global] Instance HostPriority_eq_dec : EqDecision HostPriority.
Proof. solve_decision. Defined.

Abbreviation HostPriorityList := (list HostPriority).

(** [h[i]] for an index of type [int]: a run-time panic outside
    [0 <= i < len(h)]. *)
Definition index (h : HostPriorityList) (i : Z) : exec HostPriority :=
  if (i <? 0)%Z then Crashed IndexOutOfRange
  else match h !! Z.to_nat i with
       | Some x => Done x
       | None => Crashed IndexOutOfRange
       end.

Definition Len (h : HostPriorityList) : Z := Z.of_nat (length h).

(** [Less]: by score, and by host name among equal scores.  [<] on Go
    strings compares them byte by byte, as [String.ltb] does. *)
Definition Less (h : HostPriorityList) (i j : Z) : exec bool :=
  a ← index h i;
  b ← index h j;
  if bool_decide (Score a = Score b) then Done (String.ltb (Host a) (Host b))
  else Done (Score a <? Score b)%Z.

(** [Swap]: [h[i], h[j] = h[j], h[i]] evaluates both operands before it
    assigns, so it panics before it writes. *)
Definition Swap (h : HostPriorityList) (i j : Z) : exec HostPriorityList :=
  b ← index h j;
  a ← index h i;
  Done (<[Z.to_nat j := a]> (<[Z.to_nat i := b]> h)).

(** The order of [Less] on two entries. *)
Definition less (a b : HostPriority) : bool :=
  if bool_decide (Score a = Score b) then String.ltb (Host a) (Host b)
  else (Score a <? Score b)%Z.

End SchedulerApi.

(** * Scenarios

    A concrete instance of what the sources leave open, and small caches
    built with the operations themselves; the properties above are
    applied to them. *)

Module Scenario.

(** The key of a pod is its UID; a pod without UID has none. *)
Definition podKeyByUID (p : Pod) : string * option error :=
  if bool_decide (UID p = "") then ("", Some ErrPodKey) else (UID p, None).

(** A selector converts unless a requirement carries an operator other
    than [In], [NotIn], [Exists] and [DoesNotExist]; the nil selector
    converts to the selector that matches nothing. *)
Definition valid_operator (r : LabelSelectorRequirement) : bool :=
  bool_decide (lsr_Operator r ∈ ["In"; "NotIn"; "Exists"; "DoesNotExist"]).

Definition requirement_matches (labels : gmap string string)
    (r : LabelSelectorRequirement) : bool :=
  if bool_decide (lsr_Operator r = "In") then
    match labels !! lsr_Key r with
    | Some v => bool_decide (v ∈ lsr_Values r)
    | None => false
    end
  else if bool_decide (lsr_Operator r = "NotIn") then
    match labels !! lsr_Key r with
    | Some v => negb (bool_decide (v ∈ lsr_Values r))
    | None => true
    end
  else if bool_decide (lsr_Operator r = "Exists") then
    bool_decide (is_Some (labels !! lsr_Key r))
  else negb (bool_decide (is_Some (labels !! lsr_Key r))).

Definition convertSelector (ls : option LabelSelector) : option Selector :=
  match ls with
  | None => Some {| Matches := fun _ => false; Empty := false |}
  | Some s =>
      if forallb valid_operator (MatchExpressions s) then
        Some {| Matches := fun labels =>
                  bool_decide (MatchLabels s ⊆ labels)
                  && forallb (requirement_matches labels) (MatchExpressions s);
                Empty := bool_decide (MatchLabels s = ∅)
                         && bool_decide (MatchExpressions s = []) |}
      else None
  end.

Definition collaborators : Collaborators :=
  {| getPodKey := podKeyByUID;
     VerticalScaling := true;
     LabelSelectorAsSelector := convertSelector;
     DefaultMilliCPURequest := 100;
     DefaultMemoryRequest := 209715200 |}.

#[local] Existing Instance collaborators.

(** What an operation left, or [d] when it crashed. *)
Definition after {A : Type} (d : A) (r : exec (option error * A)) : A :=
  match r with
  | Done (_, a) => a
  | Crashed _ => d
  end.

Definition container (name : string) (cpu mem : Z) : Container :=
  {| c_Name := name;
     c_Resources := {| Limits := Some {[ "cpu" := (2 * cpu)%Z ]};
                       Requests := Some {[ "cpu" := cpu; "memory" := mem ]} |} |}.

Definition mkPod (uid nodeName : string) (cs : list Container)
    (rr : option PodResizeResources) (policy : ResizePolicy) : Pod :=
  {| Name := uid; Namespace := "default"; UID := uid; ResourceVersion := "7";
     DeletionTimestamp := None; Labels := {[ "app" := "web" ]};
     Spec := {| NodeName := nodeName; Containers := cs; ResizeResources := rr;
                ResizeResourcesPolicy := policy |};
     Status := {| Phase := PodRunning; Conditions := [] |} |}.

Definition resizeRequest (cpu mem : Z) : PodResizeResources :=
  {| Request := Some [ {| cr_Name := "app";
                          cr_Resources :=
                            {| Limits := None;
                               Requests := Some {[ "cpu" := cpu; "memory" := mem ]} |} |} ];
     ActionVersion := ""; Action := ResizeActionUnset; Rollback := None |}.

(** A container that declares requests and no limits. *)
Definition bare_container (name : string) (cpu mem : Z) : Container :=
  {| c_Name := name;
     c_Resources := {| Limits := None;
                       Requests := Some {[ "cpu" := cpu; "memory" := mem ]} |} |}.

(** A resize that sets a limit. *)
Definition limitRequest : PodResizeResources :=
  {| Request := Some [ {| cr_Name := "app";
                          cr_Resources :=
                            {| Limits := Some {[ "cpu" := 1200%Z ]};
                               Requests := Some {[ "cpu" := 600%Z ]} |} |} ];
     ActionVersion := ""; Action := ResizeActionUnset; Rollback := None |}.

(** The pod objects: [1] is pod [a] as the scheduler assumed it on [n1];
    [2] and [3] are pod [a] as the event feed reports it, on [n2] and on
    [n1]; [4], [5] and [6] are updates of pod [a] on [n1] that ask for a
    resize, small, large under [InPlaceOnly], and large under the default
    policy; [7] is pod [b] on [n1]; [8] is pod [c] on [n1], whose
    container declares no limits, and [9] an update of it that asks for a
    limit; [10] is the small resize of pod [a] under the policy
    [Restart]. *)
Definition heap0 : gmap loc Pod :=
  {[ 1%positive := mkPod "a" "n1" [container "app" 500 1024] None ResizePolicyUnset;
     2%positive := mkPod "a" "n2" [container "app" 500 1024] None ResizePolicyUnset;
     3%positive := mkPod "a" "n1" [container "app" 500 1024] None ResizePolicyUnset;
     4%positive := mkPod "a" "n1" [container "app" 500 1024]
                     (Some (resizeRequest 800 1536)) ResizePolicyUnset;
     5%positive := mkPod "a" "n1" [container "app" 500 1024]
                     (Some (resizeRequest 2500 1536)) ResizePolicyInPlaceOnly;
     6%positive := mkPod "a" "n1" [container "app" 500 1024]
                     (Some (resizeRequest 2500 1536)) ResizePolicyUnset;
     7%positive := mkPod "b" "n1" [container "app" 200 512] None ResizePolicyUnset;
     8%positive := mkPod "c" "n1" [bare_container "app" 500 1024] None ResizePolicyUnset;
     9%positive := mkPod "c" "n1" [bare_container "app" 500 1024]
                     (Some limitRequest) ResizePolicyUnset;
     10%positive := mkPod "a" "n1" [container "app" 500 1024]
                      (Some (resizeRequest 800 1536)) ResizePolicyRestart ]}.

Definition node1 : Node :=
  {| node_Name := "n1";
     node_Allocatable := {[ "cpu" := 2000%Z; "memory" := 4096%Z ]} |}.

Definition empty_cache : schedulerCache := newSchedulerCache 10.

(** Pod [a] assumed on [n1]. *)
Definition assumed_cache : schedulerCache :=
  after empty_cache
    (AssumePod heap0 empty_cache 1%positive).

(** ... and its binding finished at time 0. *)
Definition bound_cache : schedulerCache :=
  after assumed_cache (finishBinding heap0 assumed_cache 1%positive 0).

(** Node [n1] known, pod [a] confirmed on it and pod [b] assumed on it. *)
Definition confirmed_cache : schedulerCache :=
  let c1 := after empty_cache (AddNode empty_cache node1) in
  let c2 := after c1 (AddPod heap0 c1 3%positive) in
  after c2 (AssumePod heap0 c2 7%positive).

(** The cache in the middle of [updatePod] of pod [a]: the old pod has
    been removed from [n1]. *)
Definition updating_cache : schedulerCache :=
  after confirmed_cache
    (removePod heap0 confirmed_cache 3%positive).

(** Node [n1] known and pod [c] confirmed on it. *)
Definition bare_cache : schedulerCache :=
  let c1 := after empty_cache (AddNode empty_cache node1) in
  after c1 (AddPod heap0 c1 8%positive).

(** ... and in the middle of [updatePod] of pod [c]. *)
Definition bare_updating_cache : schedulerCache :=
  after bare_cache (removePod heap0 bare_cache 8%positive).

Definition budget (name : string) (sel : option LabelSelector) (allowed : Z)
  : PodDisruptionBudget :=
  {| pdb_Name := name; pdb_UID := name; pdb_Labels := ∅;
     pdb_Selector := sel; PodDisruptionsAllowed := allowed |}.

(** A budget for [app=web] that allows no disruption, and a budget whose
    selector carries an unknown operator. *)
Definition strict_budget : PodDisruptionBudget :=
  budget "strict"
    (Some {| MatchLabels := {[ "app" := "web" ]}; MatchExpressions := [] |}) 0.

Definition broken_budget : PodDisruptionBudget :=
  budget "broken"
    (Some {| MatchLabels := ∅;
             MatchExpressions :=
               [ {| lsr_Key := "app"; lsr_Operator := "Near";
                    lsr_Values := [] |} ] |}) 1.

Definition budgeted_cache : schedulerCache :=
  after updating_cache (AddPDB updating_cache strict_budget).

Definition two_budgets_cache : schedulerCache :=
  after budgeted_cache (AddPDB budgeted_cache broken_budget).

(** What a computation returned, or [d] when it crashed. *)
Definition result {A : Type} (d : A) (r : exec A) : A :=
  match r with
  | Done a => a
  | Crashed _ => d
  end.

(** The record of node [n1] while pod [a] is being updated. *)
Definition node1_info : NodeInfo :=
  default NewNodeInfo (nodes updating_cache !! "n1").

(** The resize map and the prospective aggregate of the update [4]. *)
Definition requirements4 : gmap string Container * Resource :=
  result (∅, {| MilliCPU := 0; Memory := 0; EphemeralStorage := 0;
                ScalarResources := ∅ |})
    (getPodResizeRequirements (deref heap0 4%positive)).

Definition requirements6 : gmap string Container * Resource :=
  result (∅, {| MilliCPU := 0; Memory := 0; EphemeralStorage := 0;
                ScalarResources := ∅ |})
    (getPodResizeRequirements (deref heap0 6%positive)).

(** Node [n1] known, and no pod. *)
Definition node_cache : schedulerCache :=
  after empty_cache (AddNode empty_cache node1).

(** ... with pod [a] assumed on it, and with pod [a] added to it. *)
Definition node_assumed_cache : schedulerCache :=
  after node_cache (AssumePod heap0 node_cache 1%positive).

Definition added_cache : schedulerCache :=
  after node_cache (AddPod heap0 node_cache 3%positive).

(** The state of pod [a] once its binding finished at time 0, and the
    cache after its expiration. *)
Definition bound_state : podState :=
  {| pod := 1%positive; deadline := Some 10%Z; bindingFinished := true |}.

Definition expired_cache : schedulerCache :=
  after bound_cache (expirePod heap0 bound_cache "a" bound_state).

(** Node [n1] added after pod [a] was assumed on it. *)
Definition late_node_cache : schedulerCache :=
  after assumed_cache (AddNode assumed_cache node1).

(** A cache that breaks invariant 1: pod [a] is assumed and has no
    state. *)
Definition stateless_cache : schedulerCache := with_podStates ∅ assumed_cache.

(** Pod [a] after an in-place resize to 800 milli-CPU that the node
    reports as failed: the resize record carries the rollback record of
    its container, and the status the failure of action version [7]. *)
Definition failedResize : PodResizeResources :=
  {| Request := None; ActionVersion := "7"; Action := ResizeActionUpdate;
     Rollback := Some [ {| cr_Name := "app";
                           cr_Resources := c_Resources (container "app" 500 1024) |} ] |}.

Definition failure : PodCondition :=
  {| cond_Type := PodResourcesResizeStatus; cond_Status := ConditionFalse;
     cond_Message := "7" |}.

Definition failed_pod : Pod :=
  {| Name := "a"; Namespace := "default"; UID := "a"; ResourceVersion := "8";
     DeletionTimestamp := None; Labels := {[ "app" := "web" ]};
     Spec := {| NodeName := "n1"; Containers := [container "app" 800 1536];
                ResizeResources := Some failedResize;
                ResizeResourcesPolicy := ResizePolicyUnset |};
     Status := {| Phase := PodRunning; Conditions := [failure] |} |}.

Definition heap1 : gmap loc Pod := <[11%positive := failed_pod]> heap0.

(** An update of pod [a] on [n1] that asks for 800 milli-CPU and for the
    largest 64-bit amount of memory. *)
Definition heap2 : gmap loc Pod :=
  <[12%positive := mkPod "a" "n1" [container "app" 500 1024]
                     (Some (resizeRequest 800 9223372036854775807))
                     ResizePolicyUnset]> heap0.

(** The orders in which the loops of the scenarios visit a map. *)
Definition nodes_of (c : schedulerCache) : list NodeInfo := (map_to_list (nodes c)).*2.

Definition keys_of (m : gmap string NodeInfo) : list string := (map_to_list m).*1.

(** Three hosts with their scores. *)
Definition hosts : SchedulerApi.HostPriorityList :=
  [ {| SchedulerApi.Host := "n2"; SchedulerApi.Score := 5 |};
    {| SchedulerApi.Host := "n1"; SchedulerApi.Score := 5 |};
    {| SchedulerApi.Host := "n3"; SchedulerApi.Score := 2 |} ].

(** Pod [a] confirmed on [n1], of which no descriptor is known, and the
    cache once that pod is removed. *)
Definition lone_cache : schedulerCache :=
  after empty_cache (AddPod heap0 empty_cache 3%positive).

Definition vacated_cache : schedulerCache :=
  after lone_cache (removePod heap0 lone_cache 3%positive).

Definition engine := processPodResourcesScaling (K := collaborators).

End Scenario.

(** * Properties *)

Section Properties.

Context {K : Collaborators}.

(** Modelled from the spec: the key is "a stable identifier derived from
    the workload's namespace and unique identity"; it does not read the
    [Spec]. *)
Hypothesis getPodKey_identity :
  forall p q, same_identity p q -> getPodKey p = getPodKey q.


Lemma with_podStates_idem (m1 m2 : gmap string podState) (c : schedulerCache) :
  with_podStates m2 (with_podStates m1 c) = with_podStates m2 c.
Proof. reflexivity. Qed.

(** C3.  [AssumePod] of a pod with key [key] fails with the
    already-present error exactly when [key] is in [podStates], and then
    leaves the cache as it was; otherwise it returns nil, records the
    state [{pod; deadline = nil; bindingFinished = false}] under [key],
    inserts [key] in [assumedPods] and adds the pod to the pods and to the
    requested resources of the node record of its [NodeName], a fresh
    record if the cache had none. *)
Theorem AssumePod_spec (h : gmap loc Pod) (c : schedulerCache) (p : loc) (key : string) :
  getPodKey (deref h p) = (key, None) ->
  ((exists k c', AssumePod h c p = Returned (Some (AlreadyPresent k)) c')
     <-> is_Some (podStates c !! key))
  /\ (is_Some (podStates c !! key) ->
        AssumePod h c p = Returned (Some (AlreadyPresent key)) c)
  /\ (podStates c !! key = None ->
        let name := NodeName (Spec (deref h p)) in
        let n0 := default NewNodeInfo (nodes c !! name) in
        exists c' n',
          AssumePod h c p = Returned None c'
          /\ podStates c' =
               <[key := {| pod := p; deadline := None; bindingFinished := false |}]>
                 (podStates c)
          /\ assumedPods c' = {[key]} ∪ assumedPods c
          /\ nodes c' = <[name := n']> (nodes c)
          /\ n' = NodeInfo_AddPod h n0 p
          /\ pods n' = pods n0 ++ [p]
          /\ requestedResource n' =
               Resource_plus (requestedResource n0) (calculateResource (deref h p))
          /\ node n' = node n0
          /\ pdbs c' = pdbs c /\ ttl c' = ttl c).
Proof.
  intros Hkey. unfold AssumePod. rewrite Hkey.
  destruct (podStates c !! key) as [ps|] eqn:Hps.
  - split; [|split].
    + split; [intros _; eauto | intros _; eauto].
    + reflexivity.
    + discriminate.
  - split; [|split].
    + split.
      * intros (k & c' & Heq). discriminate.
      * intros [x Hx]. discriminate.
    + intros [x Hx]. discriminate.
    + intros _.
      eexists _, (NodeInfo_AddPod h _ p).
      split; [reflexivity|].
      repeat split; try reflexivity.
      all: unfold NodeInfo_AddPod; destruct (calculateNonzero (deref h p)); reflexivity.
Qed.

Lemma finishBinding_assumed (h : gmap loc Pod) (c : schedulerCache) (p : loc)
    (key : string) (now : Z) (ps : podState) :
  getPodKey (deref h p) = (key, None) ->
  podStates c !! key = Some ps -> key ∈ assumedPods c ->
  finishBinding h c p now =
    Returned None
      (with_podStates
         (<[key := {| pod := pod ps; deadline := Some (now + ttl c)%Z;
                      bindingFinished := true |}]> (podStates c)) c).
Proof.
  intros Hkey Hps Hin. unfold finishBinding.
  rewrite Hkey, Hps, (bool_decide_eq_true_2 _ Hin). reflexivity.
Qed.

Lemma finishBinding_other (h : gmap loc Pod) (c : schedulerCache) (p : loc)
    (key : string) (now : Z) :
  getPodKey (deref h p) = (key, None) ->
  podStates c !! key = None \/ key ∉ assumedPods c ->
  finishBinding h c p now = Returned None c.
Proof.
  intros Hkey Hno. unfold finishBinding. rewrite Hkey.
  destruct (podStates c !! key) as [ps|]; [|reflexivity].
  destruct Hno as [Hno|Hno]; [discriminate|].
  rewrite (bool_decide_eq_false_2 _ Hno). reflexivity.
Qed.

(** C5.  [finishBinding] of a pod with a key never returns an error and
    never crashes, whatever the cache holds: when the key is in
    [podStates] and in [assumedPods] it sets [bindingFinished] and the
    deadline [now + ttl] and nothing else; in every other state it leaves
    the cache as it was; and a call after a call yields what the later
    call alone yields, so that repeating a call with the same [now]
    changes nothing. *)
Theorem finishBinding_spec (h : gmap loc Pod) (c : schedulerCache) (p : loc)
    (key : string) (now : Z) :
  getPodKey (deref h p) = (key, None) ->
  (forall ps, podStates c !! key = Some ps -> key ∈ assumedPods c ->
     finishBinding h c p now =
       Returned None
         (with_podStates
            (<[key := {| pod := pod ps; deadline := Some (now + ttl c)%Z;
                         bindingFinished := true |}]> (podStates c)) c))
  /\ (podStates c !! key = None \/ key ∉ assumedPods c ->
        finishBinding h c p now = Returned None c)
  /\ (exists c1, finishBinding h c p now = Returned None c1
        /\ finishBinding h c1 p now = Returned None c1
        /\ forall now', finishBinding h c1 p now' = finishBinding h c p now').
Proof.
  intros Hkey.
  split; [|split].
  - intros ps Hps Hin. by apply finishBinding_assumed.
  - intros Hno. by apply (finishBinding_other h c p key).
  - destruct (podStates c !! key) as [ps|] eqn:Hps.
    + destruct (decide (key ∈ assumedPods c)) as [Hin|Hnin].
      * eexists. split; [exact (finishBinding_assumed h c p key now ps Hkey Hps Hin)|].
        assert (Hagain : forall now',
          finishBinding h
            (with_podStates
               (<[key := {| pod := pod ps; deadline := Some (now + ttl c)%Z;
                            bindingFinished := true |}]> (podStates c)) c) p now'
          = finishBinding h c p now').
        { intros now'.
          rewrite (finishBinding_assumed h c p key now' ps) by done.
          erewrite finishBinding_assumed;
            [| exact Hkey | cbn; apply lookup_insert_eq | exact Hin].
          cbn. by rewrite insert_insert_eq. }
        split; [|exact Hagain].
        rewrite Hagain. by apply finishBinding_assumed.
      * exists c. rewrite !(finishBinding_other h c p key) by auto. auto.
    + exists c. rewrite !(finishBinding_other h c p key) by auto. auto.
Qed.

(** C10.  [RemoveNode] of a node whose name the cache does not track
    dereferences the nil node record and crashes; it returns no error.
    [AddNode] and [UpdateNode] of the same name return nil and leave a
    node record made from a fresh one. *)
Theorem RemoveNode_untracked (c : schedulerCache) (nd : Node) :
  nodes c !! node_Name nd = None ->
  RemoveNode c nd = Crashed NilDereference
  /\ (exists c', AddNode c nd = Returned None c'
        /\ nodes c' !! node_Name nd = Some (snd (NodeInfo_SetNode NewNodeInfo nd)))
  /\ (forall oldNode, exists c', UpdateNode c oldNode nd = Returned None c'
        /\ nodes c' !! node_Name nd = Some (snd (NodeInfo_SetNode NewNodeInfo nd))).
Proof.
  intros Hn. unfold RemoveNode, AddNode, UpdateNode. rewrite Hn. cbn.
  split; [reflexivity|].
  split; [|intros _]; eexists; (split; [reflexivity|]); cbn; apply lookup_insert_eq.
Qed.

(** *** Counting keys in the pods of a node *)

Lemma has_key_true (h : gmap loc Pod) (k : string) (p : loc) :
  has_key h k p = true <-> getPodKey (deref h p) = (k, None).
Proof.
  unfold has_key. destruct (getPodKey (deref h p)) as [k2 [e|]].
  - split; intros H; [discriminate | congruence].
  - rewrite bool_decide_eq_true. split; congruence.
Qed.

Lemma has_key_other (h : gmap loc Pod) (k k' : string) (p : loc) :
  has_key h k p = true -> has_key h k' p = bool_decide (k' = k).
Proof.
  intros H%has_key_true. unfold has_key. rewrite H. reflexivity.
Qed.

Lemma count_key_cons (h : gmap loc Pod) (k : string) (p : loc) (l : list loc) :
  count_key h k (p :: l) =
    ((if has_key h k p then 1 else 0) + count_key h k l)%nat.
Proof.
  unfold count_key. rewrite filter_cons.
  destruct (has_key h k p); destruct (decide _); try done.
Qed.

Lemma count_key_app (h : gmap loc Pod) (k : string) (l1 l2 : list loc) :
  count_key h k (l1 ++ l2) = (count_key h k l1 + count_key h k l2)%nat.
Proof. unfold count_key. by rewrite filter_app, length_app. Qed.

Lemma count_key_nil (h : gmap loc Pod) (k : string) : count_key h k [] = 0%nat.
Proof. reflexivity. Qed.

Lemma remove_by_key_count (h : gmap loc Pod) (k : string) (l : list loc) :
  (1 <= count_key h k l)%nat ->
  exists l', remove_by_key h k l = Some l'
    /\ forall k', count_key h k' l' =
         (count_key h k' l - (if bool_decide (k' = k) then 1 else 0))%nat.
Proof.
  induction l as [|p l IH]; intros Hc.
  - rewrite count_key_nil in Hc. lia.
  - cbn [remove_by_key]. rewrite count_key_cons in Hc.
    destruct (has_key h k p) eqn:Hk.
    + exists l. split; [reflexivity|]. intros k'.
      rewrite count_key_cons, (has_key_other h k k' p Hk).
      destruct (bool_decide (k' = k)); lia.
    + destruct IH as (l' & Hl' & Hcount); [lia|].
      exists (p :: l'). rewrite Hl'. split; [reflexivity|]. intros k'.
      rewrite !count_key_cons, Hcount.
      destruct (bool_decide (k' = k)) eqn:Hkk; [|lia].
      apply bool_decide_eq_true in Hkk. subst k'. rewrite Hk. lia.
Qed.

Lemma remove_by_key_absent (h : gmap loc Pod) (k : string) (l : list loc) :
  count_key h k l = 0%nat -> remove_by_key h k l = None.
Proof.
  induction l as [|p l IH]; intros Hc; [reflexivity|].
  cbn [remove_by_key]. rewrite count_key_cons in Hc.
  destruct (has_key h k p); [lia|]. rewrite IH; [reflexivity | lia].
Qed.

(** *** [removePod] and [addPod] *)

Lemma removePod_frame (h : gmap loc Pod) (c c' : schedulerCache) (p : loc)
    (e : option error) :
  removePod h c p = Returned e c' ->
  podStates c' = podStates c /\ assumedPods c' = assumedPods c
  /\ pdbs c' = pdbs c /\ ttl c' = ttl c
  /\ (e <> None -> c' = c)
  /\ deleted_only_when_empty h c c'.
Proof.
  unfold removePod. intros H.
  destruct (nodes c !! NodeName (Spec (deref h p))) as [n|] eqn:Hn; [|discriminate].
  destruct (NodeInfo_RemovePod h n p) as [err|n'] eqn:Hrm.
  - injection H as <- <-. repeat split; try done.
    intros name n0 H0 H1. congruence.
  - destruct (bool_decide (length (pods n') = 0%nat)) eqn:Hlen;
      destruct (bool_decide (node n' = None)) eqn:Hnode; cbn in H;
      injection H as <- <-; repeat split; try done.
    all: intros name n0 H0 H1; cbn in H1.
    + destruct (decide (name = NodeName (Spec (deref h p)))) as [->|Hne].
      * rewrite Hn in H0. injection H0 as <-.
        exists n'. apply bool_decide_eq_true in Hlen, Hnode.
        split; [left; eauto|]. split; [by apply nil_length_inv | done].
      * rewrite lookup_delete_ne in H1 by done. congruence.
    + destruct (decide (name = NodeName (Spec (deref h p)))) as [->|Hne].
      * by rewrite lookup_insert_eq in H1.
      * rewrite lookup_insert_ne in H1 by done. congruence.
    + destruct (decide (name = NodeName (Spec (deref h p)))) as [->|Hne].
      * by rewrite lookup_insert_eq in H1.
      * rewrite lookup_insert_ne in H1 by done. congruence.
    + destruct (decide (name = NodeName (Spec (deref h p)))) as [->|Hne].
      * by rewrite lookup_insert_eq in H1.
      * rewrite lookup_insert_ne in H1 by done. congruence.
Qed.

Lemma removePod_accounted (h : gmap loc Pod) (c : schedulerCache) (p : loc)
    (key : string) :
  getPodKey (deref h p) = (key, None) ->
  (1 <= accounted h c (NodeName (Spec (deref h p))) key)%nat ->
  exists c', removePod h c p = Returned None c'
    /\ forall name k,
         accounted h c' name k =
           (accounted h c name k
            - (if bool_decide (name = NodeName (Spec (deref h p)) /\ k = key)
               then 1 else 0))%nat.
Proof.
  intros Hkey Hacc. unfold removePod, accounted in *.
  set (N := NodeName (Spec (deref h p))) in *.
  destruct (nodes c !! N) as [n|] eqn:Hn; [|lia].
  unfold NodeInfo_RemovePod. rewrite Hkey.
  destruct (remove_by_key_count h key (pods n) Hacc) as (l' & Hl' & Hcount).
  rewrite Hl'. destruct (calculateNonzero (deref h p)) as [cpu0 mem0].
  cbn [pods node].
  assert (Hsame : forall k, bool_decide (N = N /\ k = key) = bool_decide (k = key)).
  { intros k. apply bool_decide_ext. intuition. }
  assert (Hdiff : forall name k, name <> N -> bool_decide (name = N /\ k = key) = false).
  { intros name k Hne. apply bool_decide_eq_false_2. intros [? ?]. contradiction. }
  destruct (bool_decide (length l' = 0%nat)) eqn:Hlen;
    destruct (bool_decide (node n = None)) eqn:Hnode; cbn [andb].
  all: eexists; split; [reflexivity|]; intros name k; cbn [nodes with_nodes].
  all: destruct (decide (name = N)) as [->|Hne].
  all: rewrite ?lookup_delete_eq, ?lookup_insert_eq, ?Hn, ?Hsame; cbn [pods].
  all: rewrite ?lookup_delete_ne, ?lookup_insert_ne, ?Hdiff by done.
  all: try apply Hcount.
  all: try (destruct (nodes c !! name); lia).
  apply bool_decide_eq_true, nil_length_inv in Hlen. subst l'.
  by rewrite <- Hcount.
Qed.

Lemma addPod_accounted (h : gmap loc Pod) (c : schedulerCache) (p : loc)
    (name k : string) :
  accounted h (addPod h c p) name k =
    (accounted h c name k
     + (if bool_decide (name = NodeName (Spec (deref h p))) && has_key h k p
        then 1 else 0))%nat.
Proof.
  unfold accounted, addPod. cbn [nodes with_nodes].
  set (N := NodeName (Spec (deref h p))).
  destruct (decide (name = N)) as [->|Hne].
  - rewrite lookup_insert_eq, bool_decide_eq_true_2 by done.
    unfold NodeInfo_AddPod. destruct (calculateNonzero (deref h p)).
    cbn [pods andb]. rewrite count_key_app, count_key_cons, count_key_nil.
    destruct (nodes c !! N); cbn; lia.
  - rewrite lookup_insert_ne, bool_decide_eq_false_2 by done.
    cbn. lia.
Qed.

Lemma addPod_keeps_nodes (h : gmap loc Pod) (c : schedulerCache) (p : loc)
    (name : string) :
  is_Some (nodes c !! name) -> is_Some (nodes (addPod h c p) !! name).
Proof.
  intros Hn. unfold addPod. cbn [nodes with_nodes].
  destruct (decide (name = NodeName (Spec (deref h p)))) as [->|Hne].
  - rewrite lookup_insert_eq. eauto.
  - by rewrite lookup_insert_ne.
Qed.

(** C8 (amended).  [ForgetPod] of a pod with key [key]:
    - returns the node-mismatch error when [key] is in [podStates] and the
      cached pod names another node than the submitted one;
    - returns the not-assumed error when [key] is unknown, or is in
      [podStates] with the same node name but not in [assumedPods];
    - leaves the cache as it was in both cases;
    - when [key] is in [podStates] and in [assumedPods], the node names
      agree and the pod is accounted on that node, returns nil, takes one
      pod with this key off the accounting of the node and deletes [key]
      from [assumedPods] and from [podStates]. *)
Theorem ForgetPod_spec (h : gmap loc Pod) (c : schedulerCache) (p : loc) (key : string) :
  getPodKey (deref h p) = (key, None) ->
  (forall ps, podStates c !! key = Some ps ->
     NodeName (Spec (deref h (pod ps))) <> NodeName (Spec (deref h p)) ->
     ForgetPod h c p = Returned (Some (NodeMismatch key)) c)
  /\ (podStates c !! key = None
        \/ (exists ps, podStates c !! key = Some ps
              /\ NodeName (Spec (deref h (pod ps))) = NodeName (Spec (deref h p))
              /\ key ∉ assumedPods c) ->
        ForgetPod h c p = Returned (Some (NotAssumed key)) c)
  /\ (forall ps, podStates c !! key = Some ps ->
        NodeName (Spec (deref h (pod ps))) = NodeName (Spec (deref h p)) ->
        key ∈ assumedPods c ->
        (1 <= accounted h c (NodeName (Spec (deref h p))) key)%nat ->
        exists c', ForgetPod h c p = Returned None c'
          /\ assumedPods c' = assumedPods c ∖ {[key]}
          /\ podStates c' = delete key (podStates c)
          /\ (forall name k,
                accounted h c' name k =
                  (accounted h c name k
                   - (if bool_decide (name = NodeName (Spec (deref h p)) /\ k = key)
                      then 1 else 0))%nat)
          /\ pdbs c' = pdbs c /\ ttl c' = ttl c).
Proof.
  intros Hkey. unfold ForgetPod. rewrite Hkey.
  split; [|split].
  - intros ps Hps Hne. rewrite Hps, bool_decide_eq_true_2 by done. reflexivity.
  - intros [Hno|(ps & Hps & Heq & Hnin)].
    + by rewrite Hno.
    + rewrite Hps, bool_decide_eq_false_2 by (intros Hne; by apply Hne).
      by rewrite bool_decide_eq_false_2.
  - intros ps Hps Heq Hin Hacc.
    rewrite Hps, bool_decide_eq_false_2 by (intros Hne; by apply Hne).
    rewrite bool_decide_eq_true_2 by done.
    destruct (removePod_accounted h c p key Hkey Hacc) as (c1 & Hrm & Hcount).
    rewrite Hrm. cbn.
    destruct (removePod_frame h c c1 p None Hrm) as (Hps1 & Has1 & Hpdb & Httl & _).
    eexists. split; [reflexivity|]. cbn.
    rewrite Hps1, Has1. repeat split; try done.
Qed.

(** C1.  [AddPod] of a pod [p] whose key is in [podStates] and in
    [assumedPods], in a cache whose cached pod carries that key and that
    accounts the key once, on the node the cached pod names (invariant
    2): the call returns nil; the key leaves
    [assumedPods]; its state has a nil deadline and [p] as cached pod;
    when the node names agree the nodes are left as they were, and when
    they differ the cached pod is removed from its node and then [p] is
    added to the node it names.  Afterwards the key is accounted once, on
    the node that [p] names. *)
Theorem AddPod_confirms (h : gmap loc Pod) (c : schedulerCache) (p : loc)
    (key : string) (ps : podState) :
  getPodKey (deref h p) = (key, None) ->
  podStates c !! key = Some ps ->
  key ∈ assumedPods c ->
  getPodKey (deref h (pod ps)) = (key, None) ->
  (forall name, accounted h c name key =
     (if bool_decide (name = NodeName (Spec (deref h (pod ps)))) then 1 else 0)%nat) ->
  exists c', AddPod h c p = Returned None c'
    /\ (key ∉ assumedPods c')
    /\ assumedPods c' = assumedPods c ∖ {[key]}
    /\ podStates c' =
         <[key := {| pod := p; deadline := None;
                     bindingFinished := bindingFinished ps |}]> (podStates c)
    /\ (NodeName (Spec (deref h (pod ps))) = NodeName (Spec (deref h p)) ->
          nodes c' = nodes c)
    /\ (NodeName (Spec (deref h (pod ps))) <> NodeName (Spec (deref h p)) ->
          exists c1, removePod h c (pod ps) = Returned None c1
            /\ nodes c' = nodes (addPod h c1 p))
    /\ (forall name, accounted h c' name key =
          (if bool_decide (name = NodeName (Spec (deref h p))) then 1 else 0)%nat)
    /\ pdbs c' = pdbs c /\ ttl c' = ttl c.
Proof.
  intros Hkey Hps Hin Hckey Hacc. unfold AddPod.
  rewrite Hkey, Hps, (bool_decide_eq_true_2 _ Hin).
  destruct (decide (NodeName (Spec (deref h (pod ps))) = NodeName (Spec (deref h p))))
    as [Heq|Hne].
  - rewrite bool_decide_eq_false_2 by (intros Hn; by apply Hn).
    cbn. rewrite Hps. eexists. split; [reflexivity|]. cbn.
    split; [by intros [_ Hn]%elem_of_difference; apply Hn, elem_of_singleton|].
    repeat split; try done.
    + intros name. rewrite <- Heq. apply Hacc.
  - rewrite (bool_decide_eq_true_2 _ Hne).
    assert (Hone : (1 <= accounted h c (NodeName (Spec (deref h (pod ps)))) key)%nat).
    { rewrite Hacc, bool_decide_eq_true_2 by done. lia. }
    destruct (removePod_accounted h c (pod ps) key Hckey Hone) as (c1 & Hrm & Hcount).
    destruct (removePod_frame h c c1 (pod ps) None Hrm) as (Hps1 & Has1 & Hpdb & Httl & _).
    rewrite Hrm. cbn. rewrite Hps1, Hps. eexists. split; [reflexivity|]. cbn.
    rewrite Has1.
    split; [by intros [_ Hn]%elem_of_difference; apply Hn, elem_of_singleton|].
    repeat split; try done.
    + intros _. exists c1. split; reflexivity.
    + intros name.
      change (accounted h (addPod h c1 p) name key =
              (if bool_decide (name = NodeName (Spec (deref h p))) then 1 else 0)%nat).
      rewrite addPod_accounted, Hcount, Hacc.
      rewrite (proj2 (has_key_true h key p) Hkey), andb_true_r.
      repeat case_bool_decide; try lia; exfalso; intuition congruence.
Qed.

(** *** The two transition invariants, operation by operation *)

Lemma dowe_same_nodes (h : gmap loc Pod) (c c' : schedulerCache) :
  nodes c' = nodes c -> deleted_only_when_empty h c c'.
Proof. intros Heq name n Hn Hn'. rewrite Heq in Hn'. congruence. Qed.

Lemma dowe_then_kept (h : gmap loc Pod) (c c1 c' : schedulerCache) :
  deleted_only_when_empty h c c1 ->
  (forall name, is_Some (nodes c1 !! name) -> is_Some (nodes c' !! name)) ->
  deleted_only_when_empty h c c'.
Proof.
  intros Hd Hkeep name n Hn Hn'. apply (Hd name n Hn).
  destruct (nodes c1 !! name) eqn:H1; [|done].
  destruct (Hkeep name) as [x Hx]; [eauto|]. congruence.
Qed.

Lemma insert_keeps_nodes (ns : gmap string NodeInfo) (name0 : string) (n0 : NodeInfo)
    (name : string) :
  is_Some (ns !! name) -> is_Some (<[name0 := n0]> ns !! name).
Proof.
  intros Hn. destruct (decide (name0 = name)) as [->|Hne].
  - rewrite lookup_insert_eq. eauto.
  - by rewrite lookup_insert_ne.
Qed.

Lemma ahs_insert_both (c c' : schedulerCache) (key : string) (ps : podState) :
  assumed_have_state c ->
  assumedPods c' = {[key]} ∪ assumedPods c \/ assumedPods c' = assumedPods c
    \/ assumedPods c' = assumedPods c ∖ {[key]} ->
  podStates c' = <[key := ps]> (podStates c) ->
  assumed_have_state c'.
Proof.
  intros Hc HA HP k Hk. rewrite HP.
  destruct (decide (key = k)) as [->|Hne].
  - rewrite lookup_insert_eq. eauto.
  - rewrite lookup_insert_ne by done. apply Hc.
    destruct HA as [HA|[HA|HA]]; rewrite HA in Hk.
    + apply elem_of_union in Hk as [Hk%elem_of_singleton|Hk]; congruence.
    + done.
    + by apply elem_of_difference in Hk as [Hk _].
Qed.

Lemma ahs_delete_both (c c' : schedulerCache) (key : string) :
  assumed_have_state c ->
  assumedPods c' = assumedPods c ∖ {[key]}
    \/ (assumedPods c' = assumedPods c /\ key ∉ assumedPods c) ->
  podStates c' = delete key (podStates c) ->
  assumed_have_state c'.
Proof.
  intros Hc HA HP k Hk. rewrite HP.
  destruct (decide (key = k)) as [->|Hne].
  - exfalso. destruct HA as [HA|[HA Hn]]; rewrite HA in Hk.
    + apply elem_of_difference in Hk as [_ Hk]. by apply Hk, elem_of_singleton.
    + done.
  - rewrite lookup_delete_ne by done. apply Hc.
    destruct HA as [HA|[HA _]]; rewrite HA in Hk; [|done].
    by apply elem_of_difference in Hk as [Hk _].
Qed.

Lemma AssumePod_preserves (h : gmap loc Pod) (c c' : schedulerCache) (p : loc)
    (e : option error) :
  assumed_have_state c -> AssumePod h c p = Returned e c' ->
  assumed_have_state c' /\ deleted_only_when_empty h c c'.
Proof.
  intros Hc. unfold AssumePod.
  destruct (getPodKey (deref h p)) as [key [err|]].
  { intros [= <- <-]. split; [done | by apply dowe_same_nodes]. }
  destruct (podStates c !! key) eqn:Hps.
  { intros [= <- <-]. split; [done | by apply dowe_same_nodes]. }
  intros [= <- <-]. split.
  - eapply ahs_insert_both; [exact Hc | left; reflexivity | reflexivity].
  - eapply dowe_then_kept; [by apply (dowe_same_nodes h c c)|].
    intros name. cbn. apply insert_keeps_nodes.
Qed.

Lemma finishBinding_preserves (h : gmap loc Pod) (c c' : schedulerCache) (p : loc)
    (now : Z) (e : option error) :
  assumed_have_state c -> finishBinding h c p now = Returned e c' ->
  assumed_have_state c' /\ deleted_only_when_empty h c c'.
Proof.
  intros Hc. unfold finishBinding.
  destruct (getPodKey (deref h p)) as [key [err|]].
  { intros [= <- <-]. split; [done | by apply dowe_same_nodes]. }
  destruct (podStates c !! key) eqn:Hps.
  2: { intros [= <- <-]. split; [done | by apply dowe_same_nodes]. }
  destruct (bool_decide (key ∈ assumedPods c)).
  2: { intros [= <- <-]. split; [done | by apply dowe_same_nodes]. }
  intros [= <- <-]. split.
  - eapply ahs_insert_both; [exact Hc | right; left; reflexivity | reflexivity].
  - by apply dowe_same_nodes.
Qed.

Lemma expirePod_preserves (h : gmap loc Pod) (c c' : schedulerCache) (key : string)
    (ps : podState) (e : option error) :
  assumed_have_state c -> expirePod h c key ps = Returned e c' ->
  assumed_have_state c' /\ deleted_only_when_empty h c c'.
Proof.
  intros Hc. unfold expirePod.
  destruct (removePod h c (pod ps)) as [[err c1]|] eqn:Hrm; [|discriminate].
  destruct (removePod_frame h c c1 (pod ps) err Hrm) as (Hps1 & Has1 & _ & _ & Herr & Hd).
  cbn. destruct err as [e0|].
  { intros [= <- <-]. rewrite Herr by done. split; [done | by apply dowe_same_nodes]. }
  intros [= <- <-]. split.
  - eapply ahs_delete_both; [exact Hc | left; cbn; by rewrite ?Has1 | cbn; by rewrite ?Hps1].
  - eapply dowe_then_kept; [exact Hd | done].
Qed.

Lemma ForgetPod_preserves (h : gmap loc Pod) (c c' : schedulerCache) (p : loc)
    (e : option error) :
  assumed_have_state c -> ForgetPod h c p = Returned e c' ->
  assumed_have_state c' /\ deleted_only_when_empty h c c'.
Proof.
  intros Hc. unfold ForgetPod.
  destruct (getPodKey (deref h p)) as [key [err|]].
  { intros [= <- <-]. split; [done | by apply dowe_same_nodes]. }
  destruct (podStates c !! key) eqn:Hps.
  2: { intros [= <- <-]. split; [done | by apply dowe_same_nodes]. }
  destruct (bool_decide _).
  { intros [= <- <-]. split; [done | by apply dowe_same_nodes]. }
  destruct (bool_decide (key ∈ assumedPods c)).
  2: { intros [= <- <-]. split; [done | by apply dowe_same_nodes]. }
  destruct (removePod h c p) as [[err c1]|] eqn:Hrm; [|discriminate].
  destruct (removePod_frame h c c1 p err Hrm) as (Hps1 & Has1 & _ & _ & Herr & Hd).
  cbn. destruct err as [e0|].
  { intros [= <- <-]. rewrite Herr by done. split; [done | by apply dowe_same_nodes]. }
  intros [= <- <-]. split.
  - eapply ahs_delete_both; [exact Hc | left; cbn; by rewrite ?Has1 | cbn; by rewrite ?Hps1].
  - eapply dowe_then_kept; [exact Hd | done].
Qed.

Lemma AddPod_preserves (h : gmap loc Pod) (c c' : schedulerCache) (p : loc)
    (e : option error) :
  assumed_have_state c -> AddPod h c p = Returned e c' ->
  assumed_have_state c' /\ deleted_only_when_empty h c c'.
Proof.
  intros Hc. unfold AddPod.
  destruct (getPodKey (deref h p)) as [key [err|]].
  { intros [= <- <-]. split; [done | by apply dowe_same_nodes]. }
  destruct (podStates c !! key) as [currState|] eqn:Hps.
  2: { intros [= <- <-]. split.
       - eapply ahs_insert_both; [exact Hc | right; left; reflexivity | reflexivity].
       - eapply dowe_then_kept; [by apply (dowe_same_nodes h c c)|].
         intros name. cbn. apply insert_keeps_nodes. }
  destruct (bool_decide (key ∈ assumedPods c)).
  2: { intros [= <- <-]. split; [done | by apply dowe_same_nodes]. }
  destruct (bool_decide _).
  - destruct (removePod h c (pod currState)) as [[err c1]|] eqn:Hrm; [|discriminate].
    destruct (removePod_frame h c c1 (pod currState) err Hrm)
      as (Hps1 & Has1 & _ & _ & _ & Hd).
    cbn. rewrite Hps1, Hps. intros [= <- <-]. split.
    + eapply ahs_insert_both;
        [exact Hc | right; right; cbn; by rewrite ?Has1 | cbn; by rewrite ?Hps1].
    + eapply dowe_then_kept; [exact Hd|].
      intros name. cbn. apply insert_keeps_nodes.
  - cbn. rewrite Hps. intros [= <- <-]. split.
    + eapply ahs_insert_both; [exact Hc | right; right; reflexivity | reflexivity].
    + by apply dowe_same_nodes.
Qed.

Lemma RemovePod_preserves (h : gmap loc Pod) (c c' : schedulerCache) (p : loc)
    (e : option error) :
  assumed_have_state c -> RemovePod h c p = Returned e c' ->
  assumed_have_state c' /\ deleted_only_when_empty h c c'.
Proof.
  intros Hc. unfold RemovePod.
  destruct (getPodKey (deref h p)) as [key [err|]].
  { intros [= <- <-]. split; [done | by apply dowe_same_nodes]. }
  destruct (podStates c !! key) as [currState|] eqn:Hps.
  2: { intros [= <- <-]. split; [done | by apply dowe_same_nodes]. }
  destruct (decide (key ∈ assumedPods c)) as [Hin|Hnin].
  { rewrite (bool_decide_eq_true_2 _ Hin). cbn.
    intros [= <- <-]. split; [done | by apply dowe_same_nodes]. }
  rewrite (bool_decide_eq_false_2 _ Hnin). cbn.
  destruct (bool_decide _); [discriminate|].
  destruct (removePod h c (pod currState)) as [[err c1]|] eqn:Hrm; [|discriminate].
  destruct (removePod_frame h c c1 (pod currState) err Hrm)
    as (Hps1 & Has1 & _ & _ & Herr & Hd).
  cbn. destruct err as [e0|].
  { intros [= <- <-]. rewrite Herr by done. split; [done | by apply dowe_same_nodes]. }
  intros [= <- <-]. split.
  - eapply ahs_delete_both;
      [exact Hc | right; cbn; by rewrite ?Has1 | cbn; by rewrite ?Hps1].
  - eapply dowe_then_kept; [exact Hd | done].
Qed.

Lemma ahs_same (c c' : schedulerCache) :
  assumed_have_state c ->
  assumedPods c' = assumedPods c -> podStates c' = podStates c ->
  assumed_have_state c'.
Proof. intros Hc HA HP k Hk. rewrite HP. apply Hc. by rewrite <- HA. Qed.

Lemma updatePod_preserves (h h' : gmap loc Pod) (c c' : schedulerCache)
    (oldPod newPod : loc) (order : list PodDisruptionBudget) (e : option error) :
  assumed_have_state c ->
  updatePod h c oldPod newPod order = Returned e (h', c') ->
  assumed_have_state c' /\ deleted_only_when_empty h c c'.
Proof.
  intros Hc. unfold updatePod.
  destruct (removePod h c oldPod) as [[err c1]|] eqn:Hrm; [|discriminate].
  destruct (removePod_frame h c c1 oldPod err Hrm) as (Hps1 & Has1 & _ & _ & Herr & Hd).
  cbn. destruct err as [e0|].
  { intros [= <- <- <-]. rewrite Herr by done. split; [done | by apply dowe_same_nodes]. }
  match goal with
  | |- context [mbind _ ?m] => destruct m as [[err2 h1]|]; [|discriminate]
  end.
  cbn. intros [= <- <- <-]. split.
  - by apply (ahs_same c).
  - eapply dowe_then_kept; [exact Hd|].
    intros name. cbn. apply insert_keeps_nodes.
Qed.

Lemma UpdatePod_preserves (h h' : gmap loc Pod) (c c' : schedulerCache)
    (oldPod newPod : loc) (order : list PodDisruptionBudget) (e : option error) :
  assumed_have_state c ->
  UpdatePod h c oldPod newPod order = Returned e (h', c') ->
  assumed_have_state c' /\ deleted_only_when_empty h c c'.
Proof.
  intros Hc. unfold UpdatePod.
  destruct (getPodKey (deref h oldPod)) as [key [err|]].
  { intros [= <- <- <-]. split; [done | by apply dowe_same_nodes]. }
  destruct (podStates c !! key) as [currState|] eqn:Hps.
  2: { intros [= <- <- <-]. split; [done | by apply dowe_same_nodes]. }
  destruct (negb _).
  2: { intros [= <- <- <-]. split; [done | by apply dowe_same_nodes]. }
  destruct (bool_decide _); [discriminate|].
  by apply updatePod_preserves.
Qed.

Lemma SetNode_preserves (h : gmap loc Pod) (c c' : schedulerCache) (nd : Node)
    (e : option error) :
  assumed_have_state c ->
  (let n := default NewNodeInfo (nodes c !! node_Name nd) in
   let '(err, n') := NodeInfo_SetNode n nd in
   Returned err (with_nodes (<[node_Name nd := n']> (nodes c)) c)) = Returned e c' ->
  assumed_have_state c' /\ deleted_only_when_empty h c c'.
Proof.
  intros Hc. cbn. intros [= <- <-]. split; [done|].
  eapply dowe_then_kept; [by apply (dowe_same_nodes h c c)|].
  intros name. cbn. apply insert_keeps_nodes.
Qed.

Lemma RemoveNode_preserves (h : gmap loc Pod) (c c' : schedulerCache) (nd : Node)
    (e : option error) :
  assumed_have_state c -> RemoveNode c nd = Returned e c' ->
  assumed_have_state c' /\ deleted_only_when_empty h c c'.
Proof.
  intros Hc. unfold RemoveNode.
  destruct (nodes c !! node_Name nd) as [n|] eqn:Hn; [|discriminate].
  cbn.
  destruct (bool_decide (length (pods n) = 0%nat)) eqn:Hlen; cbn;
    intros [= <- <-]; (split; [done|]).
  - intros name n0 H0 H1. cbn in H1.
    destruct (decide (name = node_Name nd)) as [->|Hne].
    + rewrite Hn in H0. injection H0 as <-.
      eexists. split; [right; exists nd; reflexivity|]. cbn.
      apply bool_decide_eq_true in Hlen. split; [by apply nil_length_inv | done].
    + rewrite lookup_delete_ne in H1 by done. congruence.
  - eapply dowe_then_kept; [by apply (dowe_same_nodes h c c)|].
    intros name. cbn. apply insert_keeps_nodes.
Qed.

(** C2.  Every mutating operation of the cache that returns, with or
    without an error, keeps invariant 1 (a key in [assumedPods] is a key
    in [podStates]) and obeys invariant 5 (a node record that has left
    [nodes] had, when it was deleted, no pods and no descriptor).  The
    operations are [AssumePod], [finishBinding], [ForgetPod], [AddPod],
    [UpdatePod], [RemovePod], [AddNode], [UpdateNode], [RemoveNode] and
    [expirePod]. *)
Theorem operations_preserve_invariants (o : operation) (h h' : gmap loc Pod)
    (c c' : schedulerCache) (e : option error) :
  assumed_have_state c ->
  run o h c = Returned e (h', c') ->
  assumed_have_state c' /\ deleted_only_when_empty h c c'.
Proof.
  intros Hc. destruct o; cbn [run]; unfold keep_heap.
  - destruct (AssumePod h c p) as [[e1 c1]|] eqn:Hop; [|discriminate].
    cbn. intros [= <- <- <-]. by eapply AssumePod_preserves.
  - destruct (finishBinding h c p now) as [[e1 c1]|] eqn:Hop; [|discriminate].
    cbn. intros [= <- <- <-]. by eapply finishBinding_preserves.
  - destruct (ForgetPod h c p) as [[e1 c1]|] eqn:Hop; [|discriminate].
    cbn. intros [= <- <- <-]. by eapply ForgetPod_preserves.
  - destruct (AddPod h c p) as [[e1 c1]|] eqn:Hop; [|discriminate].
    cbn. intros [= <- <- <-]. by eapply AddPod_preserves.
  - intros Hop. by eapply UpdatePod_preserves.
  - destruct (RemovePod h c p) as [[e1 c1]|] eqn:Hop; [|discriminate].
    cbn. intros [= <- <- <-]. by eapply RemovePod_preserves.
  - destruct (AddNode c nd) as [[e1 c1]|] eqn:Hop; [|discriminate].
    cbn. intros [= <- <- <-]. by eapply (SetNode_preserves h c c1 nd).
  - destruct (UpdateNode c oldNode newNode) as [[e1 c1]|] eqn:Hop; [|discriminate].
    cbn. intros [= <- <- <-]. by eapply (SetNode_preserves h c c1 newNode).
  - destruct (RemoveNode c nd) as [[e1 c1]|] eqn:Hop; [|discriminate].
    cbn. intros [= <- <- <-]. by eapply RemoveNode_preserves.
  - destruct (expirePod h c key ps) as [[e1 c1]|] eqn:Hop; [|discriminate].
    cbn. intros [= <- <- <-]. by eapply expirePod_preserves.
Qed.

(** *** The reaper *)

Lemma cleanup_step_kept (h : gmap loc Pod) (now : Z) (c : schedulerCache)
    (k : string) (ps : podState) :
  podStates c !! k = Some ps ->
  (bindingFinished ps = true -> is_Some (deadline ps)) ->
  expired now ps = false ->
  cleanup_step h now c k = Done c.
Proof.
  intros Hps Hdl Hex. unfold cleanup_step, expired in *. rewrite Hps.
  destruct (bindingFinished ps); [|reflexivity]. cbn in *.
  destruct Hdl as [dl Hd]; [done|]. rewrite Hd in *. by rewrite Hex.
Qed.

Lemma cleanup_step_evicts (h : gmap loc Pod) (now : Z) (c : schedulerCache)
    (k : string) (ps : podState) :
  podStates c !! k = Some ps ->
  getPodKey (deref h (pod ps)) = (k, None) ->
  (1 <= accounted h c (NodeName (Spec (deref h (pod ps)))) k)%nat ->
  expired now ps = true ->
  exists c', cleanup_step h now c k = Done c'
    /\ assumedPods c' = assumedPods c ∖ {[k]}
    /\ podStates c' = delete k (podStates c)
    /\ (forall name k',
          accounted h c' name k' =
            (accounted h c name k'
             - (if bool_decide (name = NodeName (Spec (deref h (pod ps))) /\ k' = k)
                then 1 else 0))%nat).
Proof.
  intros Hps Hkey Hacc Hex. unfold cleanup_step, expired, expirePod in *.
  rewrite Hps. apply andb_true_iff in Hex as [Hbf Hdl]. rewrite Hbf. cbn.
  destruct (deadline ps) as [dl|]; [|discriminate]. rewrite Hdl.
  destruct (removePod_accounted h c (pod ps) k Hkey Hacc) as (c1 & Hrm & Hcount).
  destruct (removePod_frame h c c1 (pod ps) None Hrm) as (Hps1 & Has1 & _).
  rewrite Hrm. cbn. eexists. split; [reflexivity|]. cbn.
  rewrite Hps1, Has1. repeat split; done.
Qed.

Lemma cleanup_loop (h : gmap loc Pod) (now : Z) (keys : list string) :
  forall c,
  NoDup keys ->
  (forall k, k ∈ keys -> k ∈ assumedPods c) ->
  assumed_accounted h c ->
  exists c', forM (cleanup_step h now) keys c = Done c'
    /\ (forall k, k ∈ assumedPods c' <->
           k ∈ assumedPods c /\ (bool_decide (k ∈ keys) && expires now c k) = false)
    /\ (forall k, podStates c' !! k =
           if bool_decide (k ∈ keys) && expires now c k then None
           else podStates c !! k)
    /\ (forall name k,
          accounted h c' name k =
            (accounted h c name k
             - (if bool_decide (k ∈ keys) && expires now c k
                   && bool_decide (name = node_of h c k)
                then 1 else 0))%nat).
Proof.
  induction keys as [|k0 rest IH]; intros c Hnd Hin Hwf.
  - exists c. split; [reflexivity|]. split; [intros k; split|split].
    + intros Hk. split; [done|]. by rewrite bool_decide_eq_false_2 by apply not_elem_of_nil.
    + by intros [Hk _].
    + intros k. by rewrite bool_decide_eq_false_2 by apply not_elem_of_nil.
    + intros name k. rewrite bool_decide_eq_false_2 by apply not_elem_of_nil. cbn. lia.
  - apply NoDup_cons in Hnd as [Hk0 Hnd].
    destruct (Hwf k0) as (ps0 & Hps0 & Hkey0 & Hacc0 & Hdl0);
      [apply Hin; by left|].
    cbn [forM].
    destruct (expired now ps0) eqn:Hex.
    + (* the entry is evicted *)
      destruct (cleanup_step_evicts h now c k0 ps0 Hps0 Hkey0 Hacc0 Hex)
        as (c1 & Hstep & HA1 & HP1 & HN1).
      rewrite Hstep. cbn.
      assert (Hother : forall k, k <> k0 -> podStates c1 !! k = podStates c !! k).
      { intros k Hne. rewrite HP1. by apply lookup_delete_ne. }
      destruct (IH c1) as (c' & Hloop & HA & HP & HN); [done | | |].
      { intros k Hk. rewrite HA1. apply elem_of_difference. split.
        - apply Hin. by right.
        - intros ->%elem_of_singleton. done. }
      { intros k Hk. rewrite HA1 in Hk. apply elem_of_difference in Hk as [Hk Hne].
        assert (k <> k0) by (intros ->; by apply Hne, elem_of_singleton).
        destruct (Hwf k Hk) as (ps & Hps & Hkey & Hacc & Hdl).
        exists ps. rewrite Hother by done. repeat split; try done.
        rewrite HN1, bool_decide_eq_false_2; [lia|]. intros [_ ?]. done. }
      exists c'. split; [exact Hloop|].
      assert (Hexp0 : expires now c k0 = true) by (unfold expires; by rewrite Hps0).
      assert (Hexp : forall k, k <> k0 -> expires now c1 k = expires now c k).
      { intros k Hne. unfold expires. by rewrite Hother. }
      assert (Hnode : forall k, k <> k0 -> node_of h c1 k = node_of h c k).
      { intros k Hne. unfold node_of. by rewrite Hother. }
      assert (Hgone : expires now c1 k0 = false).
      { unfold expires. by rewrite HP1, lookup_delete_eq. }
      split; [intros k; split|split].
      * intros Hk. apply HA in Hk as [Hk Hb]. rewrite HA1 in Hk.
        apply elem_of_difference in Hk as [Hk Hne].
        assert (k <> k0) by (intros ->; by apply Hne, elem_of_singleton).
        split; [done|]. rewrite <- Hb, Hexp by done.
        f_equal. apply bool_decide_ext. rewrite elem_of_cons. intuition.
      * intros [Hk Hb].
        destruct (decide (k = k0)) as [->|Hne].
        { rewrite Hexp0, bool_decide_eq_true_2 in Hb by (by left). done. }
        apply HA. rewrite HA1, Hexp by done. split.
        -- apply elem_of_difference. split; [done|].
           by intros ?%elem_of_singleton.
        -- rewrite <- Hb. f_equal. apply bool_decide_ext.
           rewrite elem_of_cons. intuition.
      * intros k. rewrite HP.
        destruct (decide (k = k0)) as [->|Hne].
        { rewrite Hgone, andb_false_r, HP1, lookup_delete_eq, Hexp0.
          rewrite bool_decide_eq_true_2 by (by left). done. }
        rewrite Hexp, Hother by done.
        replace (bool_decide (k ∈ k0 :: rest)) with (bool_decide (k ∈ rest)); [done|].
        apply bool_decide_ext. rewrite elem_of_cons. intuition.
      * intros name k. rewrite HN, HN1.
        destruct (decide (k = k0)) as [->|Hne].
        { rewrite Hgone, andb_false_r, Hexp0. cbn.
          rewrite (bool_decide_eq_true_2 (k0 ∈ k0 :: rest)) by (by left). cbn.
          unfold node_of. rewrite Hps0.
          replace (bool_decide (name = NodeName (Spec (deref h (pod ps0))) /\ k0 = k0))
            with (bool_decide (name = NodeName (Spec (deref h (pod ps0))))).
          - lia.
          - apply bool_decide_ext. intuition. }
        rewrite Hexp, Hnode by done.
        rewrite (bool_decide_eq_false_2 (_ /\ k = k0)) by (intros [_ ?]; done).
        replace (bool_decide (k ∈ k0 :: rest)) with (bool_decide (k ∈ rest)); [lia|].
        apply bool_decide_ext. rewrite elem_of_cons. intuition.
    + (* the entry is kept *)
      rewrite (cleanup_step_kept h now c k0 ps0 Hps0 Hdl0 Hex). cbn.
      destruct (IH c) as (c' & Hloop & HA & HP & HN); [done | | done |].
      { intros k Hk. apply Hin. by right. }
      exists c'. split; [exact Hloop|].
      assert (Hexp0 : expires now c k0 = false) by (unfold expires; by rewrite Hps0).
      assert (Hb : forall k, bool_decide (k ∈ k0 :: rest) && expires now c k
                             = bool_decide (k ∈ rest) && expires now c k).
      { intros k. destruct (decide (k = k0)) as [->|Hne].
        - by rewrite Hexp0, !andb_false_r.
        - f_equal. apply bool_decide_ext. rewrite elem_of_cons. intuition. }
      split; [intros k; split|split].
      * intros Hk. apply HA in Hk as [Hk Hbb]. by rewrite Hb.
      * intros [Hk Hbb]. apply HA. by rewrite <- Hb.
      * intros k. by rewrite Hb.
      * intros name k. by rewrite Hb.
Qed.

(** C6.  A reaper tick at time [now], over a cache whose assumed keys
    satisfy invariants 1, 2 and 4 and in whatever order the keys are
    visited, returns, and for every key that was in [assumedPods]:
    - if its binding is not finished, the entry is untouched: the key
      stays in [assumedPods], its state and its accounting are the same;
    - if its binding is finished and [now] is strictly after the deadline,
      one pod with this key is taken off the accounting of its node and
      the key is deleted from [assumedPods] and from [podStates];
    - if [now] is not after the deadline, the entry is not evicted. *)
Theorem cleanupAssumedPods_spec (h : gmap loc Pod) (c : schedulerCache) (now : Z)
    (keys : list string) :
  assumed_accounted h c ->
  key_order c keys ->
  exists c', cleanupAssumedPods h c now keys = Done c'
    /\ forall k ps, k ∈ assumedPods c -> podStates c !! k = Some ps ->
         (bindingFinished ps = false ->
            k ∈ assumedPods c' /\ podStates c' !! k = Some ps
            /\ accounted h c' (NodeName (Spec (deref h (pod ps)))) k
               = accounted h c (NodeName (Spec (deref h (pod ps)))) k)
         /\ (forall dl, bindingFinished ps = true -> deadline ps = Some dl ->
               (now > dl)%Z ->
               (k ∉ assumedPods c') /\ podStates c' !! k = None
               /\ accounted h c' (NodeName (Spec (deref h (pod ps)))) k
                  = (accounted h c (NodeName (Spec (deref h (pod ps)))) k - 1)%nat)
         /\ (forall dl, deadline ps = Some dl -> (now <= dl)%Z ->
               k ∈ assumedPods c' /\ podStates c' !! k = Some ps
               /\ accounted h c' (NodeName (Spec (deref h (pod ps)))) k
                  = accounted h c (NodeName (Spec (deref h (pod ps)))) k).
Proof.
  intros Hwf Hord. unfold key_order in Hord.
  assert (Hnd : NoDup keys) by (rewrite Hord; apply NoDup_elements).
  assert (Hmem : forall k, k ∈ keys <-> k ∈ assumedPods c).
  { intros k. by rewrite Hord, elem_of_elements. }
  destruct (cleanup_loop h now keys c Hnd) as (c' & Hloop & HA & HP & HN);
    [intros k; apply Hmem | done |].
  exists c'. split; [exact Hloop|].
  intros k ps Hk Hps.
  assert (Hin : bool_decide (k ∈ keys) = true)
    by (apply bool_decide_eq_true; by apply Hmem).
  assert (Hkept : expired now ps = false ->
    k ∈ assumedPods c' /\ podStates c' !! k = Some ps
    /\ accounted h c' (NodeName (Spec (deref h (pod ps)))) k
       = accounted h c (NodeName (Spec (deref h (pod ps)))) k).
  { intros Hex.
    assert (Hexp : expires now c k = false) by (unfold expires; by rewrite Hps).
    split; [|split].
    - apply HA. by rewrite Hexp, andb_false_r.
    - by rewrite HP, Hexp, andb_false_r.
    - rewrite HN, Hexp, andb_false_r. cbn. lia. }
  split; [|split].
  - intros Hbf. apply Hkept. unfold expired. by rewrite Hbf.
  - intros dl Hbf Hdl Hnow.
    assert (Hexp : expires now c k = true).
    { unfold expires, expired. rewrite Hps, Hbf, Hdl. cbn. by apply Z.gtb_gt. }
    split; [|split].
    + intros [_ Hb]%HA. by rewrite Hin, Hexp in Hb.
    + by rewrite HP, Hin, Hexp.
    + rewrite HN, Hin, Hexp. unfold node_of. rewrite Hps.
      by rewrite bool_decide_eq_true_2.
  - intros dl Hdl Hnow. apply Hkept. unfold expired. rewrite Hdl.
    replace (now >? dl)%Z with false; [by rewrite andb_false_r|].
    symmetry. rewrite Z.gtb_ltb. apply Z.ltb_ge. lia.
Qed.

(** *** The pod store *)

Lemma deref_insert_eq (h : gmap loc Pod) (l : loc) (p : Pod) :
  deref (<[l := p]> h) l = p.
Proof. unfold deref. by rewrite lookup_insert_eq. Qed.

Lemma deref_insert_ne (h : gmap loc Pod) (l l' : loc) (p : Pod) :
  l <> l' -> deref (<[l := p]> h) l' = deref h l'.
Proof. intros Hne. unfold deref. by rewrite lookup_insert_ne. Qed.

Lemma update_resize_done (h : gmap loc Pod) (l : loc) (rr : PodResizeResources)
    (f : Pod -> PodResizeResources -> PodResizeResources) :
  resize_of h l = Some rr ->
  update_resize l f h = Done (<[l := with_ResizeResources (f (deref h l) rr) (deref h l)]> h).
Proof. unfold resize_of, update_resize. by intros ->. Qed.

Lemma update_resize_insert (h : gmap loc Pod) (l : loc) (p : Pod)
    (rr : PodResizeResources) (f : Pod -> PodResizeResources -> PodResizeResources) :
  ResizeResources (Spec p) = Some rr ->
  update_resize l f (<[l := p]> h) = Done (<[l := with_ResizeResources (f p rr) p]> h).
Proof.
  unfold update_resize. rewrite deref_insert_eq. intros ->.
  by rewrite insert_insert_eq.
Qed.

Lemma resize_of_update (h : gmap loc Pod) (l : loc) (rr : PodResizeResources) :
  resize_of (<[l := with_ResizeResources rr (deref h l)]> h) l = Some rr.
Proof. unfold resize_of. by rewrite deref_insert_eq. Qed.

(** *** Budgets *)

Lemma listPDBs_Everything (order : list PodDisruptionBudget) :
  listPDBs Everything order = order.
Proof.
  unfold listPDBs. induction order as [|pdb l IH]; [done|].
  rewrite filter_cons. destruct (decide _) as [_|Hn]; [by rewrite IH | by destruct Hn].
Qed.

Lemma check_loop_labels (p p' : Pod) (l : list PodDisruptionBudget) :
  Labels p = Labels p' ->
  checkPodDisruptionBudget_loop p l = checkPodDisruptionBudget_loop p' l.
Proof.
  intros Hl. induction l as [|pdb l IH]; [done|]. cbn.
  rewrite Hl, IH. reflexivity.
Qed.

Lemma check_loop_skip (p : Pod) (pdb : PodDisruptionBudget)
    (l : list PodDisruptionBudget) :
  undecisive p pdb ->
  checkPodDisruptionBudget_loop p (pdb :: l) = checkPodDisruptionBudget_loop p l.
Proof.
  intros [Hv Hu]. cbn. unfold violating, unparsable in *.
  destruct (LabelSelectorAsSelector (pdb_Selector pdb)) as [sel|]; [|done].
  destruct (Empty sel) eqn:He; [done|].
  destruct (Matches sel (Labels p)) eqn:Hm; [|done]. cbn.
  case_bool_decide; [|done]. exfalso. apply Hv. eauto.
Qed.

Lemma check_loop_violating (p : Pod) (pdb : PodDisruptionBudget)
    (l : list PodDisruptionBudget) :
  violating p pdb ->
  checkPodDisruptionBudget_loop p (pdb :: l) = (false, None).
Proof.
  intros (sel & Hs & He & Hm & Ha). cbn. rewrite Hs, He, Hm. cbn.
  by rewrite bool_decide_eq_true_2.
Qed.

Lemma check_loop_unparsable (p : Pod) (pdb : PodDisruptionBudget)
    (l : list PodDisruptionBudget) :
  unparsable pdb ->
  checkPodDisruptionBudget_loop p (pdb :: l)
    = (false, Some (SelectorInvalid (pdb_Name pdb))).
Proof. intros Hu. cbn. unfold unparsable in Hu. by rewrite Hu. Qed.

Lemma check_first_decisive (p : Pod) (l1 l2 : list PodDisruptionBudget)
    (pdb : PodDisruptionBudget) :
  Forall (undecisive p) l1 ->
  checkPodDisruptionBudgetOk p (l1 ++ pdb :: l2)
    = checkPodDisruptionBudget_loop p (pdb :: l2).
Proof.
  unfold checkPodDisruptionBudgetOk. rewrite listPDBs_Everything.
  induction 1 as [|x l Hx Hl IH]; [done|].
  change ((x :: l) ++ pdb :: l2) with (x :: (l ++ pdb :: l2)).
  by rewrite check_loop_skip.
Qed.

Lemma check_all_undecisive (p : Pod) (l : list PodDisruptionBudget) :
  Forall (undecisive p) l -> checkPodDisruptionBudgetOk p l = (true, None).
Proof.
  unfold checkPodDisruptionBudgetOk. rewrite listPDBs_Everything.
  induction 1 as [|x l Hx Hl IH]; [done|]. by rewrite check_loop_skip.
Qed.

Lemma violating_dec (p : Pod) (pdb : PodDisruptionBudget) :
  violating p pdb \/ ~ violating p pdb.
Proof.
  unfold violating.
  destruct (LabelSelectorAsSelector (pdb_Selector pdb)) as [sel|];
    [|right; by intros (? & ? & _)].
  destruct (Empty sel) eqn:He; [right; intros (? & [= <-] & ? & _); congruence|].
  destruct (Matches sel (Labels p)) eqn:Hm;
    [|right; intros (? & [= <-] & _ & ? & _); congruence].
  destruct (decide (PodDisruptionsAllowed pdb <= 0)%Z) as [Ha|Ha].
  - left. eauto.
  - right. intros (? & _ & _ & _ & ?). done.
Qed.

Lemma check_all_parse (p : Pod) (l : list PodDisruptionBudget) :
  Forall (fun pdb => ~ unparsable pdb) l ->
  (exists pdb, pdb ∈ l /\ violating p pdb) ->
  checkPodDisruptionBudgetOk p l = (false, None).
Proof.
  unfold checkPodDisruptionBudgetOk. rewrite listPDBs_Everything.
  induction 1 as [|x l Hx Hl IH]; intros (pdb & Hin & Hv).
  - by apply elem_of_nil in Hin.
  - destruct (violating_dec p x) as [Hvx|Hnx].
    + by apply check_loop_violating.
    + rewrite check_loop_skip by done. apply IH.
      apply elem_of_cons in Hin as [->|Hin]; [done|]. eauto.
Qed.

(** *** The paths of the engine *)

Lemma wrap64_small (z : Z) : int64_range z -> wrap64 z = z.
Proof. unfold int64_range, wrap64. intros Hz. rewrite Z.mod_small; lia. Qed.

Lemma capacity_test_fits (n : NodeInfo) (podResource : Resource) :
  int64_range (MilliCPU (requestedResource n) + MilliCPU podResource) ->
  int64_range (Memory (requestedResource n) + Memory podResource) ->
  ((MilliCPU (allocatableResource n)
      >? add64 (MilliCPU podResource) (MilliCPU (requestedResource n)))%Z
   && (Memory (allocatableResource n)
         >? add64 (Memory podResource) (Memory (requestedResource n)))%Z) = true
  <-> fits n podResource.
Proof.
  intros Hc Hm. unfold add64, fits.
  rewrite (Z.add_comm (MilliCPU podResource)), (Z.add_comm (Memory podResource)).
  rewrite !wrap64_small by done.
  rewrite andb_true_iff, !Z.gtb_gt. reflexivity.
Qed.

Lemma engine_restart (h h1 : gmap loc Pod) (c : schedulerCache) (oldPod newPod : loc)
    (order : list PodDisruptionBudget) (n : NodeInfo) (rr : PodResizeResources) :
  nodes c !! NodeName (Spec (deref h newPod)) = Some n ->
  processPodResizeStatus h c oldPod newPod = Done h1 ->
  resize_of h1 newPod = Some rr ->
  length (default [] (Request rr)) <> 0%nat ->
  resolved_policy (deref h newPod) = ResizePolicyRestart ->
  processPodResourcesScaling h c oldPod newPod order =
    Returned None
      (<[newPod := with_ResizeResources (restart_request (deref h1 newPod) rr)
                     (deref h1 newPod)]> h1).
Proof.
  intros Hn Hst Hrr Hlen Hpol. unfold processPodResourcesScaling.
  rewrite Hn, Hst. cbn. unfold resize_of in Hrr. rewrite Hrr.
  rewrite (bool_decide_eq_true_2 _ Hlen).
  fold (resolved_policy (deref h newPod)). rewrite Hpol.
  rewrite bool_decide_eq_true_2 by done.
  unfold update_resize. rewrite Hrr. reflexivity.
Qed.

Lemma engine_capacity (h h1 : gmap loc Pod) (c : schedulerCache) (oldPod newPod : loc)
    (order : list PodDisruptionBudget) (n : NodeInfo) (rr : PodResizeResources)
    (rmap : gmap string Container) (podResource : Resource) :
  nodes c !! NodeName (Spec (deref h newPod)) = Some n ->
  processPodResizeStatus h c oldPod newPod = Done h1 ->
  resize_of h1 newPod = Some rr ->
  length (default [] (Request rr)) <> 0%nat ->
  resolved_policy (deref h newPod) <> ResizePolicyRestart ->
  getPodResizeRequirements (deref h1 newPod) = Done (rmap, podResource) ->
  processPodResourcesScaling h c oldPod newPod order =
    if (MilliCPU (allocatableResource n)
          >? add64 (MilliCPU podResource) (MilliCPU (requestedResource n)))%Z
       && (Memory (allocatableResource n)
             >? add64 (Memory podResource) (Memory (requestedResource n)))%Z
    then
      h3 ← setupInPlaceResizeAction
             (<[newPod := with_ResizeResources (clear_request (deref h1 newPod) rr)
                            (deref h1 newPod)]> h1) c oldPod newPod rmap;
      Returned None h3
    else if bool_decide (resolved_policy (deref h newPod) = ResizePolicyInPlaceOnly)
    then Returned None
           (<[newPod := decline (Some ResizeActionNonePerPolicy) (deref h1 newPod) rr]> h1)
    else if (0 <? size (Labels (deref h1 newPod)))%nat then
      match checkPodDisruptionBudgetOk (deref h1 newPod) order with
      | (_, Some err) =>
          Returned (Some err) (<[newPod := decline None (deref h1 newPod) rr]> h1)
      | (false, None) =>
          Returned None
            (<[newPod := decline (Some ResizeActionNonePerPDBViolation)
                           (deref h1 newPod) rr]> h1)
      | (true, None) =>
          Returned None
            (<[newPod := decline (Some ResizeActionReschedule) (deref h1 newPod) rr]> h1)
      end
    else Returned None
           (<[newPod := decline (Some ResizeActionReschedule) (deref h1 newPod) rr]> h1).
Proof.
  intros Hn Hst Hrr Hlen Hpol Hreq. unfold processPodResourcesScaling.
  rewrite Hn, Hst. cbn [mbind exec_bind].
  pose proof Hrr as Hrr'. unfold resize_of in Hrr'. rewrite Hrr'.
  rewrite (bool_decide_eq_true_2 _ Hlen).
  fold (resolved_policy (deref h newPod)).
  rewrite (bool_decide_eq_false_2 _ Hpol), Hreq. cbn [mbind exec_bind].
  rewrite (update_resize_done h1 newPod rr) by done. cbn [mbind exec_bind].
  destruct (_ && _); [reflexivity|].
  erewrite update_resize_insert by reflexivity. cbn [mbind exec_bind].
  rewrite deref_insert_eq.
  erewrite !update_resize_insert by reflexivity. cbn [mbind exec_bind].
  unfold checkPodDisruptionBudgetOk.
  erewrite (check_loop_labels _ (deref h1 newPod)) by reflexivity.
  reflexivity.
Qed.

(** *** Writes of the commit *)

Lemma sbc_refl (p : Pod) : same_but_containers p p.
Proof. reflexivity. Qed.

Lemma sbc_trans (p q r : Pod) :
  same_but_containers p q -> same_but_containers q r -> same_but_containers p r.
Proof. unfold same_but_containers. congruence. Qed.

Lemma sbc_with_Containers (f : list Container -> list Container) (p : Pod) :
  same_but_containers (with_Containers f p) p.
Proof. reflexivity. Qed.

Lemma sbc_resize (p q : Pod) :
  same_but_containers p q ->
  ResizeResources (Spec p) = ResizeResources (Spec q)
  /\ ResourceVersion p = ResourceVersion q /\ Labels p = Labels q.
Proof.
  unfold same_but_containers, with_Containers, with_Spec. intros H.
  injection H. intros. auto.
Qed.

Lemma merged_idem (upd base : option (gmap string Z)) :
  merged upd (merged upd base) = merged upd base.
Proof.
  unfold merged. destruct upd as [u|]; [|done]. case_bool_decide; [done|].
  destruct base as [b|]; [|done]. cbn.
  by rewrite (assoc_L (∪)), (idemp_L (∪)).
Qed.

Lemma merged_not_needed (upd base : option (gmap string Z)) :
  ~ needs upd -> merged upd base = base.
Proof.
  unfold merged, needs. intros Hn. destruct upd as [u|]; [|done].
  case_bool_decide; [done|]. exfalso. eauto.
Qed.

Lemma merged_needed (u b : gmap string Z) :
  u <> ∅ -> merged (Some u) (Some b) = Some (u ∪ b).
Proof. intros Hu. unfold merged. by rewrite bool_decide_eq_false_2. Qed.

Lemma needs_dec (upd : option (gmap string Z)) : needs upd \/ ~ needs upd.
Proof.
  unfold needs. destruct upd as [u|]; [|right; by intros (? & ? & _)].
  destruct (decide (u = ∅)) as [->|Hu].
  - right. by intros (? & [= <-] & ?).
  - left. eauto.
Qed.

Section Writes.

Variable get : ResourceRequirements -> option (gmap string Z).
Variable set : option (gmap string Z) -> Container -> Container.
Hypothesis get_set : forall v c, get (c_Resources (set v c)) = v.
Hypothesis set_set : forall v w c, set v (set w c) = set v c.
Hypothesis set_get : forall c, set (get (c_Resources c)) c = c.

Lemma resizeList_spec (upd : option (gmap string Z)) (newPod cachedPod : loc)
    (i : nat) (h : gmap loc Pod) :
  (needs upd ->
     (exists c, Containers (Spec (deref h newPod)) !! i = Some c
                /\ is_Some (get (c_Resources c)))
     /\ (exists cc, Containers (Spec (deref h cachedPod)) !! i = Some cc
                   /\ is_Some (get (c_Resources cc)))) ->
  exists h', resizeList get set upd newPod cachedPod i h = Done h'
    /\ (forall l, same_but_containers (deref h' l) (deref h l))
    /\ (forall l j,
          Containers (Spec (deref h' l)) !! j =
            if bool_decide ((l = newPod \/ l = cachedPod) /\ j = i)
            then (fun c => set (merged upd (get (c_Resources c))) c)
                   <$> Containers (Spec (deref h l)) !! j
            else Containers (Spec (deref h l)) !! j).
Proof.
  intros Hpre. destruct (needs_dec upd) as [Hn|Hn].
  - destruct (Hpre Hn) as ((c & Hc & [b Hb]) & (cc & Hcc & [bc Hbc])).
    destruct Hn as (u & -> & Hu).
    unfold resizeList. rewrite bool_decide_eq_false_2 by done.
    unfold overwriteList at 2. rewrite Hc, Hb. cbn [mbind exec_bind].
    assert (Hi : i < length (Containers (Spec (deref h newPod))))
      by (by eapply lookup_lt_Some).
    destruct (decide (cachedPod = newPod)) as [->|Hne].
    + unfold overwriteList. rewrite deref_insert_eq. cbn [Spec with_Containers with_Spec
        Containers]. rewrite list_lookup_insert_eq by done.
      rewrite get_set. eexists. split; [reflexivity|]. split.
      * intros l. destruct (decide (newPod = l)) as [<-|Hl].
        -- rewrite deref_insert_eq. reflexivity.
        -- by rewrite !deref_insert_ne.
      * intros l j. destruct (decide (newPod = l)) as [<-|Hl].
        -- rewrite deref_insert_eq. cbn [Spec with_Containers with_Spec Containers].
           rewrite set_set, list_insert_insert_eq.
           rewrite (assoc_L (∪)), (idemp_L (∪)).
           destruct (decide (j = i)) as [->|Hj].
           ++ rewrite bool_decide_eq_true_2 by auto.
              rewrite list_lookup_insert_eq, Hc by done. cbn -[merged].
              by rewrite Hb, merged_needed.
           ++ rewrite bool_decide_eq_false_2 by (intros [_ ?]; done).
              by rewrite list_lookup_insert_ne.
        -- rewrite !deref_insert_ne by done.
           rewrite bool_decide_eq_false_2; [done|]. intros [[?|?] _]; congruence.
    + unfold overwriteList. rewrite deref_insert_ne by done. rewrite Hcc, Hbc.
      eexists. split; [reflexivity|]. split.
      * intros l. destruct (decide (cachedPod = l)) as [<-|Hl].
        -- rewrite deref_insert_eq. reflexivity.
        -- rewrite deref_insert_ne by done.
           destruct (decide (newPod = l)) as [<-|Hl'].
           ++ rewrite deref_insert_eq. reflexivity.
           ++ by rewrite deref_insert_ne.
      * intros l j.
        assert (Hic : i < length (Containers (Spec (deref h cachedPod))))
          by (by eapply lookup_lt_Some).
        destruct (decide (cachedPod = l)) as [<-|Hl].
        -- rewrite deref_insert_eq. cbn [Spec with_Containers with_Spec Containers].
           destruct (decide (j = i)) as [->|Hj].
           ++ rewrite bool_decide_eq_true_2 by auto.
              rewrite list_lookup_insert_eq, Hcc by done. cbn -[merged].
              by rewrite Hbc, merged_needed.
           ++ rewrite bool_decide_eq_false_2 by (intros [_ ?]; done).
              by rewrite list_lookup_insert_ne.
        -- rewrite deref_insert_ne by done.
           destruct (decide (newPod = l)) as [<-|Hl'].
           ++ rewrite deref_insert_eq. cbn [Spec with_Containers with_Spec Containers].
              destruct (decide (j = i)) as [->|Hj].
              ** rewrite bool_decide_eq_true_2 by auto.
                 rewrite list_lookup_insert_eq, Hc by done. cbn -[merged].
                 by rewrite Hb, merged_needed.
              ** rewrite bool_decide_eq_false_2 by (intros [_ ?]; done).
                 by rewrite list_lookup_insert_ne.
           ++ rewrite deref_insert_ne by done.
              rewrite bool_decide_eq_false_2; [done|]. intros [[?|?] _]; congruence.
  - exists h. split.
    + unfold resizeList, needs in *. destruct upd as [u|]; [|done].
      case_bool_decide; [done|]. exfalso. eauto.
    + split; [intros l; apply sbc_refl|]. intros l j.
      case_bool_decide; [|done].
      destruct (Containers (Spec (deref h l)) !! j) as [c|]; [|done]. cbn -[merged].
      by rewrite merged_not_needed, set_get.
Qed.

End Writes.

Lemma with_Requests_get (c : Container) :
  with_Requests (Requests (c_Resources c)) c = c.
Proof. by destruct c as [n [l r]]. Qed.

Lemma with_Limits_get (c : Container) :
  with_Limits (Limits (c_Resources c)) c = c.
Proof. by destruct c as [n [l r]]. Qed.

Lemma setupInPlace_step_spec (rmap : gmap string Container) (newPod cachedPod : loc)
    (i : nat) (h : gmap loc Pod) (rb : option (list ContainerResources))
    (ct : Container) :
  Containers (Spec (deref h newPod)) !! i = Some ct ->
  (forall rc, rmap !! c_Name ct = Some rc ->
     (needs (Requests (c_Resources rc)) ->
        is_Some (Requests (c_Resources ct))
        /\ exists cc, Containers (Spec (deref h cachedPod)) !! i = Some cc
                      /\ is_Some (Requests (c_Resources cc)))
     /\ (needs (Limits (c_Resources rc)) ->
          is_Some (Limits (c_Resources ct))
          /\ exists cc, Containers (Spec (deref h cachedPod)) !! i = Some cc
                        /\ is_Some (Limits (c_Resources cc)))) ->
  exists h',
    setupInPlace_step rmap newPod cachedPod (h, rb) i =
      Done (h', match rmap !! c_Name ct with
                | Some _ =>
                    Some (default [] rb
                          ++ [{| cr_Name := c_Name ct;
                                 cr_Resources :=
                                   {| Limits := Limits (c_Resources ct);
                                      Requests := Requests (c_Resources ct) |} |}])
                | None => rb
                end)
    /\ (forall l, same_but_containers (deref h' l) (deref h l))
    /\ (forall l j,
          Containers (Spec (deref h' l)) !! j =
            if bool_decide ((l = newPod \/ l = cachedPod) /\ j = i)
            then resize_container rmap ct <$> Containers (Spec (deref h l)) !! j
            else Containers (Spec (deref h l)) !! j).
Proof.
  intros Hct Hpre. unfold setupInPlace_step, resize_container. rewrite Hct.
  destruct (rmap !! c_Name ct) as [rc|] eqn:Hrc.
  2: { exists h. split; [reflexivity|]. split; [intros l; apply sbc_refl|].
       intros l j. case_bool_decide; [|done].
       by destruct (Containers (Spec (deref h l)) !! j). }
  destruct (Hpre rc eq_refl) as [Hreq Hlim].
  destruct (resizeList_spec Requests with_Requests
              (fun v c => eq_refl) (fun v w c => eq_refl) with_Requests_get
              (Requests (c_Resources rc)) newPod cachedPod i h)
    as (h1 & Hr1 & Hf1 & Hl1).
  { intros Hn. destruct (Hreq Hn) as [Hs Hcc]. split; [eauto | exact Hcc]. }
  rewrite Hr1. cbn [mbind exec_bind].
  destruct (resizeList_spec Limits with_Limits
              (fun v c => eq_refl) (fun v w c => eq_refl) with_Limits_get
              (Limits (c_Resources rc)) newPod cachedPod i h1)
    as (h2 & Hr2 & Hf2 & Hl2).
  { intros Hn. destruct (Hlim Hn) as [Hs (cc & Hcc & Hsc)].
    rewrite !Hl1, !bool_decide_eq_true_2 by auto. rewrite Hct, Hcc. cbn.
    split; eexists; (split; [reflexivity|]); done. }
  rewrite Hr2. cbn [mbind exec_bind].
  exists h2. split; [reflexivity|]. split.
  - intros l. eapply sbc_trans; [apply Hf2 | apply Hf1].
  - intros l j. rewrite Hl2, Hl1. case_bool_decide; [|done].
    by destruct (Containers (Spec (deref h l)) !! j).
Qed.

Lemma rollback_records_snoc (rmap : gmap string Container) (cs : list Container)
    (ct : Container) :
  rollback_records rmap (cs ++ [ct]) =
    match rmap !! c_Name ct with
    | Some _ =>
        Some (default [] (rollback_records rmap cs)
              ++ [{| cr_Name := c_Name ct;
                     cr_Resources :=
                       {| Limits := Limits (c_Resources ct);
                          Requests := Requests (c_Resources ct) |} |}])
    | None => rollback_records rmap cs
    end.
Proof. unfold rollback_records. by rewrite foldl_app. Qed.

Lemma setup_loop (rmap : gmap string Container) (newPod cachedPod : loc)
    (h0 : gmap loc Pod) (newC cachedC : list Container) :
  writable rmap newC cachedC ->
  forall k i st, (i + k = length newC)%nat ->
    commit_inv rmap newPod cachedPod h0 newC cachedC i st ->
    exists st',
      forM (setupInPlace_step rmap newPod cachedPod) (seq i k) st = Done st'
      /\ commit_inv rmap newPod cachedPod h0 newC cachedC (i + k) st'.
Proof.
  intros Hw. induction k as [|k IH]; intros i [h rb] Hlen Hinv.
  - exists (h, rb). split; [reflexivity|]. by rewrite Nat.add_0_r.
  - destruct Hinv as (Hf & HN & HC & HR). cbn [fst snd] in *.
    assert (Hi : (i < length newC)%nat) by lia.
    destruct (lookup_lt_is_Some_2 newC i Hi) as [ct Hct].
    assert (Hcur : Containers (Spec (deref h newPod)) !! i = Some ct).
    { rewrite HN, Hct. cbn. by rewrite bool_decide_eq_false_2 by lia. }
    destruct (setupInPlace_step_spec rmap newPod cachedPod i h rb ct Hcur)
      as (h' & Hstep & Hf' & Hl').
    { intros rc Hrc. destruct (Hw i ct rc Hct Hrc) as [Hreq Hlim].
      split; intros Hn.
      - destruct (Hreq Hn) as [Hs (cc & Hcc & Hsc)]. split; [done|].
        exists cc. split; [|done].
        rewrite HC, Hcc. cbn. by rewrite bool_decide_eq_false_2 by lia.
      - destruct (Hlim Hn) as [Hs (cc & Hcc & Hsc)]. split; [done|].
        exists cc. split; [|done].
        rewrite HC, Hcc. cbn. by rewrite bool_decide_eq_false_2 by lia. }
    cbn [seq forM]. rewrite Hstep. cbn [mbind exec_bind].
    destruct (IH (S i) (h', match rmap !! c_Name ct with
                | Some _ =>
                    Some (default [] rb
                          ++ [{| cr_Name := c_Name ct;
                                 cr_Resources :=
                                   {| Limits := Limits (c_Resources ct);
                                      Requests := Requests (c_Resources ct) |} |}])
                | None => rb
                end)) as (st' & Hloop & Hinv'); [lia | |].
    + split; [|split; [|split]]; cbn [fst snd].
      * intros l. eapply sbc_trans; [apply Hf' | apply Hf].
      * intros j. rewrite Hl'. destruct (decide (j = i)) as [->|Hj].
        -- rewrite bool_decide_eq_true_2 by auto. rewrite HN, Hct. cbn.
           rewrite bool_decide_eq_false_2 by lia.
           by rewrite bool_decide_eq_true_2 by lia.
        -- rewrite bool_decide_eq_false_2 by (intros [_ ?]; done).
           rewrite HN. destruct (newC !! j); [|done]. cbn.
           destruct (decide (j < i)%nat).
           ++ by rewrite !bool_decide_eq_true_2 by lia.
           ++ by rewrite !bool_decide_eq_false_2 by lia.
      * intros j. rewrite Hl'. destruct (decide (j = i)) as [->|Hj].
        -- rewrite bool_decide_eq_true_2 by auto. rewrite HC.
           destruct (cachedC !! i); [|done]. cbn.
           rewrite bool_decide_eq_false_2 by lia.
           by rewrite bool_decide_eq_true_2, Hct by lia.
        -- rewrite bool_decide_eq_false_2 by (intros [_ ?]; done).
           rewrite HC. destruct (cachedC !! j); [|done]. cbn.
           destruct (decide (j < i)%nat).
           ++ by rewrite !bool_decide_eq_true_2 by lia.
           ++ by rewrite !bool_decide_eq_false_2 by lia.
      * rewrite (take_S_r newC i ct Hct), rollback_records_snoc, <- HR. done.
    + exists st'. split; [exact Hloop|]. by rewrite <- Nat.add_succ_comm.
Qed.

Lemma overwriteList_frame (get : ResourceRequirements -> option (gmap string Z))
    (set : option (gmap string Z) -> Container -> Container)
    (l : loc) (i : nat) (u : gmap string Z) (h h' : gmap loc Pod) :
  overwriteList get set l i u h = Done h' ->
  forall l', same_but_containers (deref h' l') (deref h l').
Proof.
  unfold overwriteList.
  destruct (Containers (Spec (deref h l)) !! i) as [c|]; [|discriminate].
  destruct (get (c_Resources c)); [|discriminate].
  intros [= <-] l'. destruct (decide (l = l')) as [<-|Hne].
  - rewrite deref_insert_eq. reflexivity.
  - by rewrite deref_insert_ne.
Qed.

Lemma resizeList_frame (get : ResourceRequirements -> option (gmap string Z))
    (set : option (gmap string Z) -> Container -> Container)
    (upd : option (gmap string Z)) (newPod cachedPod : loc) (i : nat)
    (h h' : gmap loc Pod) :
  resizeList get set upd newPod cachedPod i h = Done h' ->
  forall l, same_but_containers (deref h' l) (deref h l).
Proof.
  unfold resizeList. destruct upd as [u|]; [|by intros [= <-]].
  case_bool_decide; [by intros [= <-]|].
  destruct (overwriteList get set newPod i u h) as [h1|] eqn:H1; [|discriminate].
  cbn [mbind exec_bind]. intros H2 l.
  eapply sbc_trans; [by eapply overwriteList_frame | by eapply overwriteList_frame].
Qed.

Lemma setupInPlace_step_frame (rmap : gmap string Container) (newPod cachedPod : loc)
    (i : nat) (st st' : gmap loc Pod * option (list ContainerResources)) :
  setupInPlace_step rmap newPod cachedPod st i = Done st' ->
  forall l, same_but_containers (deref (fst st') l) (deref (fst st) l).
Proof.
  destruct st as [h rb]. unfold setupInPlace_step.
  destruct (Containers (Spec (deref h newPod)) !! i) as [ct|]; [|discriminate].
  destruct (rmap !! c_Name ct) as [rc|]; [|by intros [= <-]].
  destruct (resizeList Requests with_Requests _ newPod cachedPod i h)
    as [h1|] eqn:H1; [|discriminate].
  cbn [mbind exec_bind].
  destruct (resizeList Limits with_Limits _ newPod cachedPod i h1)
    as [h2|] eqn:H2; [|discriminate].
  cbn [mbind exec_bind]. intros [= <-] l. cbn [fst].
  eapply sbc_trans; [by eapply resizeList_frame | by eapply resizeList_frame].
Qed.

Lemma setup_loop_frame (rmap : gmap string Container) (newPod cachedPod : loc)
    (idx : list nat) :
  forall st st',
  forM (setupInPlace_step rmap newPod cachedPod) idx st = Done st' ->
  forall l, same_but_containers (deref (fst st') l) (deref (fst st) l).
Proof.
  induction idx as [|i idx IH]; intros st st'.
  - intros [= <-] l. apply sbc_refl.
  - cbn [forM].
    destruct (setupInPlace_step rmap newPod cachedPod st i) as [st1|] eqn:H1;
      [|discriminate].
    cbn [mbind exec_bind]. intros H2 l.
    eapply sbc_trans; [by eapply IH | by eapply setupInPlace_step_frame].
Qed.

Lemma setupInPlace_keeps_request (h h3 : gmap loc Pod) (c : schedulerCache)
    (oldPod newPod : loc) (rmap : gmap string Container) (rr : PodResizeResources) :
  resize_of h newPod = Some rr ->
  setupInPlaceResizeAction h c oldPod newPod rmap = Done h3 ->
  exists rr3, resize_of h3 newPod = Some rr3 /\ Request rr3 = Request rr.
Proof.
  intros Hrr. unfold setupInPlaceResizeAction.
  destruct (podStates c !! _) as [cs|]; [|discriminate].
  destruct (forM _ _ _) as [[h1 rb]|] eqn:Hloop; [|discriminate].
  cbn [mbind exec_bind].
  pose proof (setup_loop_frame _ _ _ _ _ _ Hloop newPod) as Hf. cbn [fst] in Hf.
  apply sbc_resize in Hf as (Hr & _).
  unfold resize_of in Hrr. rewrite Hrr in Hr.
  rewrite (update_resize_done h1 newPod rr) by done.
  intros [= <-]. eexists. split; [apply resize_of_update|]. reflexivity.
Qed.

(** C9 (amended).  When the engine runs on a pod whose node the cache
    tracks and whose resize request is not empty, every call that
    returns, with or without an error, leaves the [Request] of the
    incoming pod nil: under the restart policy, after a resize in place,
    and after a capacity test that failed, whatever action is then
    stamped.  The call does return under the restart policy, and when the
    requirements are computed and the capacity test fails.  (For a node
    the cache does not track the engine returns the unknown-node error
    before it looks at the request.) *)
Theorem resize_request_cleared (h h1 : gmap loc Pod) (c : schedulerCache)
    (oldPod newPod : loc) (order : list PodDisruptionBudget) (n : NodeInfo)
    (rr : PodResizeResources) :
  nodes c !! NodeName (Spec (deref h newPod)) = Some n ->
  processPodResizeStatus h c oldPod newPod = Done h1 ->
  resize_of h1 newPod = Some rr ->
  length (default [] (Request rr)) <> 0%nat ->
  (forall e h', processPodResourcesScaling h c oldPod newPod order = Returned e h' ->
     exists rr', resize_of h' newPod = Some rr' /\ Request rr' = None)
  /\ (resolved_policy (deref h newPod) = ResizePolicyRestart ->
        exists h', processPodResourcesScaling h c oldPod newPod order = Returned None h')
  /\ (forall rmap podResource,
        resolved_policy (deref h newPod) <> ResizePolicyRestart ->
        getPodResizeRequirements (deref h1 newPod) = Done (rmap, podResource) ->
        capacity_test n podResource = false ->
        exists e h', processPodResourcesScaling h c oldPod newPod order = Returned e h').
Proof.
  intros Hn Hst Hrr Hlen.
  assert (Hdecl : forall a, exists rr',
    resize_of (<[newPod := decline a (deref h1 newPod) rr]> h1) newPod = Some rr'
    /\ Request rr' = None).
  { intros a. eexists. split; [apply resize_of_update | reflexivity]. }
  split; [|split].
  - intros e h'.
    destruct (decide (resolved_policy (deref h newPod) = ResizePolicyRestart))
      as [Hpol|Hpol].
    { rewrite (engine_restart h h1 c oldPod newPod order n rr) by done.
      intros [= <- <-]. eexists. split; [apply resize_of_update | reflexivity]. }
    destruct (getPodResizeRequirements (deref h1 newPod)) as [[rmap pr]|w] eqn:Hreq.
    2: { unfold processPodResourcesScaling. rewrite Hn, Hst. cbn [mbind exec_bind].
         unfold resize_of in Hrr. rewrite Hrr, (bool_decide_eq_true_2 _ Hlen).
         fold (resolved_policy (deref h newPod)).
         rewrite (bool_decide_eq_false_2 _ Hpol), Hreq. discriminate. }
    rewrite (engine_capacity h h1 c oldPod newPod order n rr rmap pr) by done.
    destruct (_ && _).
    + destruct (setupInPlaceResizeAction _ c oldPod newPod rmap) as [h3|] eqn:Hs;
        [|discriminate].
      cbn [mbind exec_bind]. intros [= <- <-].
      eapply (setupInPlace_keeps_request _ h3) in Hs as (rr3 & Hr3 & Hq);
        [|apply resize_of_update].
      exists rr3. split; [done|]. by rewrite Hq.
    + destruct (bool_decide _); [intros [= <- <-]; apply Hdecl|].
      destruct (0 <? _)%nat; [|intros [= <- <-]; apply Hdecl].
      destruct (checkPodDisruptionBudgetOk _ _) as [[|] [err|]];
        intros [= <- <-]; apply Hdecl.
  - intros Hpol. eexists. by apply (engine_restart h h1 c oldPod newPod order n rr).
  - intros rmap pr Hpol Hreq Hcap.
    rewrite (engine_capacity h h1 c oldPod newPod order n rr rmap pr) by done.
    unfold capacity_test in Hcap. rewrite Hcap.
    destruct (bool_decide _); [eauto|].
    destruct (0 <? _)%nat; [|eauto].
    destruct (checkPodDisruptionBudgetOk _ _) as [[|] [err|]]; eauto.
Qed.

Lemma setupInPlace_spec (h : gmap loc Pod) (c : schedulerCache) (oldPod newPod : loc)
    (rmap : gmap string Container) (cs : podState) (rr : PodResizeResources) :
  podStates c !! fst (getPodKey (deref h oldPod)) = Some cs ->
  resize_of h newPod = Some rr ->
  writable rmap (Containers (Spec (deref h newPod)))
                (Containers (Spec (deref h (pod cs)))) ->
  exists h3, setupInPlaceResizeAction h c oldPod newPod rmap = Done h3
    /\ resize_of h3 newPod =
         Some {| Request := Request rr;
                 ActionVersion := ResourceVersion (deref h newPod);
                 Action := ResizeActionUpdate;
                 Rollback := rollback_records rmap (Containers (Spec (deref h newPod))) |}
    /\ (forall j, Containers (Spec (deref h3 newPod)) !! j =
          (fun ct => resize_container rmap ct ct)
            <$> Containers (Spec (deref h newPod)) !! j)
    /\ (forall j, Containers (Spec (deref h3 (pod cs))) !! j =
          (fun cc => match Containers (Spec (deref h newPod)) !! j with
                     | Some ct => resize_container rmap ct cc
                     | None => cc
                     end)
            <$> Containers (Spec (deref h (pod cs))) !! j).
Proof.
  intros Hcs Hrr Hw. unfold setupInPlaceResizeAction. rewrite Hcs.
  set (newC := Containers (Spec (deref h newPod))) in *.
  set (cachedC := Containers (Spec (deref h (pod cs)))) in *.
  destruct (setup_loop rmap newPod (pod cs) h newC cachedC Hw
              (length newC) 0%nat (h, None)) as ([hl rb] & Hloop & Hinv).
  { lia. }
  { split; [|split; [|split]]; cbn [fst snd].
    - intros l. apply sbc_refl.
    - intros j. fold newC. destruct (newC !! j); [|done]. cbn.
      by rewrite bool_decide_eq_false_2 by lia.
    - intros j. fold cachedC. destruct (cachedC !! j); [|done]. cbn.
      by rewrite bool_decide_eq_false_2 by lia.
    - reflexivity. }
  rewrite Hloop. cbn [mbind exec_bind].
  destruct Hinv as (Hf & HN & HC & HR). cbn [fst snd Nat.add] in *.
  destruct (sbc_resize _ _ (Hf newPod)) as (Hr & Hv & _).
  unfold resize_of in Hrr. rewrite Hrr in Hr.
  rewrite (update_resize_done hl newPod rr) by done.
  eexists. split; [reflexivity|]. split; [|split].
  - rewrite resize_of_update. unfold stamp. by rewrite Hv, HR, firstn_all.
  - intros j. rewrite deref_insert_eq. cbn [Spec with_ResizeResources with_Spec Containers].
    rewrite HN. destruct (newC !! j) eqn:Hj; [|done]. cbn.
    rewrite bool_decide_eq_true_2; [done|]. by eapply lookup_lt_Some.
  - intros j.
    assert (Hc : Containers (Spec (deref
        (<[newPod := with_ResizeResources (stamp ResizeActionUpdate rb (deref hl newPod) rr)
                       (deref hl newPod)]> hl) (pod cs)))
      = Containers (Spec (deref hl (pod cs)))).
    { destruct (decide (newPod = pod cs)) as [<-|Hne].
      - by rewrite deref_insert_eq.
      - by rewrite deref_insert_ne. }
    rewrite Hc, HC. destruct (cachedC !! j); [|done]. cbn.
    destruct (decide (j < length newC)%nat) as [Hlt|Hge].
    + by rewrite bool_decide_eq_true_2.
    + rewrite bool_decide_eq_false_2 by done.
      by rewrite (lookup_ge_None_2 newC j) by lia.
Qed.

Lemma decline_containers (h : gmap loc Pod) (l l' : loc) (a : option ResizeAction)
    (rr : PodResizeResources) :
  Containers (Spec (deref (<[l := decline a (deref h l) rr]> h) l'))
    = Containers (Spec (deref h l')).
Proof.
  destruct (decide (l = l')) as [<-|Hne].
  - by rewrite deref_insert_eq.
  - by rewrite deref_insert_ne.
Qed.

(** X27.  The engine on a pod whose node is tracked, whose
    resize request is not empty and whose policy is not [Restart], with
    [podResource] the prospective aggregate that
    [getPodResizeRequirements] computes (the sums below fit 64 bits), and
    with resource maps to assign into ([writable]) in the named
    containers of the incoming pod and in the containers of the same
    index of the cached pod:
    - when the allocatable of the node is strictly greater than its
      requested amount plus [podResource], on CPU and on memory, the
      resize is committed in place: the call returns nil, every named
      container of the incoming pod and the container of the same index
      of the cached pod have the requests and limits of the resize
      written over theirs, the rollback records hold what the named
      containers had, and the action is [Update];
    - when it is not, on either dimension, nothing is committed: the
      containers of every pod and the rollback records stay as they
      were, and under the policy [InPlaceOnly] the call returns nil with
      the action [NonePerPolicy]. *)
Theorem resize_in_place_iff_capacity (h h1 : gmap loc Pod) (c : schedulerCache)
    (oldPod newPod : loc) (order : list PodDisruptionBudget) (n : NodeInfo)
    (rr : PodResizeResources) (rmap : gmap string Container)
    (podResource : Resource) (cs : podState) :
  nodes c !! NodeName (Spec (deref h newPod)) = Some n ->
  processPodResizeStatus h c oldPod newPod = Done h1 ->
  resize_of h1 newPod = Some rr ->
  length (default [] (Request rr)) <> 0%nat ->
  resolved_policy (deref h newPod) <> ResizePolicyRestart ->
  getPodResizeRequirements (deref h1 newPod) = Done (rmap, podResource) ->
  int64_range (MilliCPU (requestedResource n) + MilliCPU podResource) ->
  int64_range (Memory (requestedResource n) + Memory podResource) ->
  podStates c !! fst (getPodKey (deref h1 oldPod)) = Some cs ->
  writable rmap (Containers (Spec (deref h1 newPod)))
                (Containers (Spec (deref h1 (pod cs)))) ->
  (fits n podResource ->
     exists h3,
       processPodResourcesScaling h c oldPod newPod order = Returned None h3
       /\ resize_of h3 newPod =
            Some {| Request := None;
                    ActionVersion := ResourceVersion (deref h1 newPod);
                    Action := ResizeActionUpdate;
                    Rollback :=
                      rollback_records rmap (Containers (Spec (deref h1 newPod))) |}
       /\ (forall i ct, Containers (Spec (deref h1 newPod)) !! i = Some ct ->
             Containers (Spec (deref h3 newPod)) !! i
               = Some (resize_container rmap ct ct)
             /\ forall cc, Containers (Spec (deref h1 (pod cs))) !! i = Some cc ->
                  Containers (Spec (deref h3 (pod cs))) !! i
                    = Some (resize_container rmap ct cc))
       /\ length (Containers (Spec (deref h3 newPod)))
            = length (Containers (Spec (deref h1 newPod)))
       /\ length (Containers (Spec (deref h3 (pod cs))))
            = length (Containers (Spec (deref h1 (pod cs)))))
  /\ (~ fits n podResource ->
        exists e h3 rr3,
          processPodResourcesScaling h c oldPod newPod order = Returned e h3
          /\ (forall l, Containers (Spec (deref h3 l)) = Containers (Spec (deref h1 l)))
          /\ resize_of h3 newPod = Some rr3
          /\ Rollback rr3 = Rollback rr
          /\ (resolved_policy (deref h newPod) = ResizePolicyInPlaceOnly ->
                e = None /\ Action rr3 = ResizeActionNonePerPolicy)).
Proof.
  intros Hn Hst Hrr Hlen Hpol Hreq Hcpu Hmem Hcs Hw.
  pose proof (capacity_test_fits n podResource Hcpu Hmem) as Hcap.
  rewrite (engine_capacity h h1 c oldPod newPod order n rr rmap podResource) by done.
  set (h2 := <[newPod := with_ResizeResources (clear_request (deref h1 newPod) rr)
                           (deref h1 newPod)]> h1).
  assert (Hcont : forall l, Containers (Spec (deref h2 l)) = Containers (Spec (deref h1 l))).
  { intros l. unfold h2. destruct (decide (newPod = l)) as [<-|Hne].
    - by rewrite deref_insert_eq.
    - by rewrite deref_insert_ne. }
  split.
  - intros Hfit. rewrite (proj2 Hcap Hfit).
    destruct (setupInPlace_spec h2 c oldPod newPod rmap cs
                (clear_request (deref h1 newPod) rr))
      as (h3 & Hs & Hr3 & HN & HC).
    { rewrite (getPodKey_identity (deref h2 oldPod) (deref h1 oldPod)); [done|].
      unfold h2. destruct (decide (newPod = oldPod)) as [<-|Hne].
      - rewrite deref_insert_eq. reflexivity.
      - by rewrite deref_insert_ne. }
    { apply resize_of_update. }
    { by rewrite !Hcont. }
    rewrite Hs. cbn [mbind exec_bind]. exists h3. split; [reflexivity|].
    split; [|split; [|split]].
    + rewrite Hr3, Hcont. unfold h2. rewrite deref_insert_eq. reflexivity.
    + intros i ct Hct. split.
      * by rewrite HN, Hcont, Hct.
      * intros cc Hcc. by rewrite HC, !Hcont, Hcc, Hct.
    + rewrite <- (length_fmap (fun ct => resize_container rmap ct ct)
                    (Containers (Spec (deref h1 newPod)))).
      f_equal. apply list_eq. intros j. by rewrite HN, Hcont, list_lookup_fmap.
    + rewrite <- (length_imap
                    (fun j cc => match Containers (Spec (deref h1 newPod)) !! j with
                                 | Some ct => resize_container rmap ct cc
                                 | None => cc
                                 end)
                    (Containers (Spec (deref h1 (pod cs))))).
      f_equal. apply list_eq. intros j.
      by rewrite HC, !Hcont, list_lookup_imap.
  - intros Hfit.
    destruct (_ && _) eqn:Hb; [exfalso; by apply Hfit, Hcap|].
    destruct (bool_decide (resolved_policy (deref h newPod) = ResizePolicyInPlaceOnly))
      eqn:Hio.
    { eexists _, _, _. split; [reflexivity|].
      split; [intros l; apply decline_containers|].
      split; [apply resize_of_update|]. split; [reflexivity|]. done. }
    apply bool_decide_eq_false in Hio.
    destruct (0 <? _)%nat.
    2: { eexists _, _, _. split; [reflexivity|].
         split; [intros l; apply decline_containers|].
         split; [apply resize_of_update|]. split; [reflexivity|]. done. }
    destruct (checkPodDisruptionBudgetOk _ _) as [[|] [err|]];
      (eexists _, _, _; split; [reflexivity|];
       split; [intros l; apply decline_containers|];
       split; [apply resize_of_update|]; split; [reflexivity|]; done).
Qed.

Lemma undecisive_iff (p : Pod) (pdb : PodDisruptionBudget) :
  undecisive p pdb <->
  exists sel, LabelSelectorAsSelector (pdb_Selector pdb) = Some sel
    /\ (Empty sel = true \/ Matches sel (Labels p) = false
        \/ (PodDisruptionsAllowed pdb > 0)%Z).
Proof.
  unfold undecisive, violating, unparsable. split.
  - intros [Hv Hu].
    destruct (LabelSelectorAsSelector (pdb_Selector pdb)) as [sel|]; [|done].
    exists sel. split; [done|].
    destruct (Empty sel) eqn:He; [by left|].
    destruct (Matches sel (Labels p)) eqn:Hm; [|by right; left].
    right. right.
    destruct (decide (PodDisruptionsAllowed pdb <= 0)%Z) as [Ha|Ha]; [|lia].
    exfalso. apply Hv. exists sel. done.
  - intros (sel & Hs & Hcase). rewrite Hs. split; [|done].
    intros (sel' & [= <-] & He & Hm & Ha).
    destruct Hcase as [?|[?|?]]; [congruence | congruence | lia].
Qed.

(** C7 (amended).  The consultation of the disruption budgets for a pod
    that carries labels, reached when the capacity test fails under a
    policy that is neither [Restart] nor [InPlaceOnly], examines the
    budgets in the order in which the map yields them.  A budget is
    passed over ([undecisive]) exactly when its selector converts and
    is empty, or does not match the labels of the pod, or the budget
    allows a disruption ([PodDisruptionsAllowed > 0]).  The first budget
    that is not passed over settles the call:
    - a matching budget with [PodDisruptionsAllowed <= 0] makes the
      consultation answer "no" and the engine return nil with the action
      [NonePerPDBViolation];
    - a budget whose selector does not convert makes the consultation and
      the engine return an error, and no action is stamped.
    When no budget settles it the action is [Reschedule].  In particular,
    when every selector converts, any matching budget with
    [PodDisruptionsAllowed <= 0] yields [NonePerPDBViolation]. *)
Theorem disruption_budgets_first_decisive (h h1 : gmap loc Pod) (c : schedulerCache)
    (oldPod newPod : loc) (order : list PodDisruptionBudget) (n : NodeInfo)
    (rr : PodResizeResources) (rmap : gmap string Container)
    (podResource : Resource) :
  nodes c !! NodeName (Spec (deref h newPod)) = Some n ->
  processPodResizeStatus h c oldPod newPod = Done h1 ->
  resize_of h1 newPod = Some rr ->
  length (default [] (Request rr)) <> 0%nat ->
  resolved_policy (deref h newPod) <> ResizePolicyRestart ->
  resolved_policy (deref h newPod) <> ResizePolicyInPlaceOnly ->
  getPodResizeRequirements (deref h1 newPod) = Done (rmap, podResource) ->
  capacity_test n podResource = false ->
  (0 < size (Labels (deref h1 newPod)))%nat ->
  pdb_order c order ->
  (forall pdb,
     undecisive (deref h1 newPod) pdb <->
     exists sel, LabelSelectorAsSelector (pdb_Selector pdb) = Some sel
       /\ (Empty sel = true \/ Matches sel (Labels (deref h1 newPod)) = false
           \/ (PodDisruptionsAllowed pdb > 0)%Z))
  /\ (forall l1 pdb l2, order = l1 ++ pdb :: l2 ->
        Forall (undecisive (deref h1 newPod)) l1 ->
        (violating (deref h1 newPod) pdb ->
           checkPodDisruptionBudgetOk (deref h1 newPod) order = (false, None)
           /\ processPodResourcesScaling h c oldPod newPod order =
                Returned None
                  (<[newPod := decline (Some ResizeActionNonePerPDBViolation)
                                 (deref h1 newPod) rr]> h1))
        /\ (unparsable pdb ->
              checkPodDisruptionBudgetOk (deref h1 newPod) order
                = (false, Some (SelectorInvalid (pdb_Name pdb)))
              /\ processPodResourcesScaling h c oldPod newPod order =
                   Returned (Some (SelectorInvalid (pdb_Name pdb)))
                     (<[newPod := decline None (deref h1 newPod) rr]> h1)))
  /\ (Forall (undecisive (deref h1 newPod)) order ->
        checkPodDisruptionBudgetOk (deref h1 newPod) order = (true, None)
        /\ processPodResourcesScaling h c oldPod newPod order =
             Returned None
               (<[newPod := decline (Some ResizeActionReschedule)
                              (deref h1 newPod) rr]> h1))
  /\ (Forall (fun pdb => ~ unparsable pdb) order ->
        (exists pdb, pdb ∈ order /\ violating (deref h1 newPod) pdb) ->
        checkPodDisruptionBudgetOk (deref h1 newPod) order = (false, None)
        /\ processPodResourcesScaling h c oldPod newPod order =
             Returned None
               (<[newPod := decline (Some ResizeActionNonePerPDBViolation)
                              (deref h1 newPod) rr]> h1)).
Proof.
  intros Hn Hst Hrr Hlen Hpol Hio Hreq Hcap Hlab _.
  assert (Heng : processPodResourcesScaling h c oldPod newPod order =
    match checkPodDisruptionBudgetOk (deref h1 newPod) order with
    | (_, Some err) =>
        Returned (Some err) (<[newPod := decline None (deref h1 newPod) rr]> h1)
    | (false, None) =>
        Returned None
          (<[newPod := decline (Some ResizeActionNonePerPDBViolation)
                         (deref h1 newPod) rr]> h1)
    | (true, None) =>
        Returned None
          (<[newPod := decline (Some ResizeActionReschedule) (deref h1 newPod) rr]> h1)
    end).
  { rewrite (engine_capacity h h1 c oldPod newPod order n rr rmap podResource) by done.
    unfold capacity_test in Hcap. rewrite Hcap.
    rewrite (bool_decide_eq_false_2 _ Hio).
    apply Nat.ltb_lt in Hlab. rewrite Hlab. reflexivity. }
  split; [|split; [|split]].
  - intros pdb. apply undecisive_iff.
  - intros l1 pdb l2 -> Hl1. split; intros Hd.
    + assert (Hchk : checkPodDisruptionBudgetOk (deref h1 newPod) (l1 ++ pdb :: l2)
                     = (false, None))
        by (rewrite check_first_decisive by done; by apply check_loop_violating).
      split; [done|]. by rewrite Heng, Hchk.
    + assert (Hchk : checkPodDisruptionBudgetOk (deref h1 newPod) (l1 ++ pdb :: l2)
                     = (false, Some (SelectorInvalid (pdb_Name pdb))))
        by (rewrite check_first_decisive by done; by apply check_loop_unparsable).
      split; [done|]. by rewrite Heng, Hchk.
  - intros Hall. pose proof (check_all_undecisive _ _ Hall) as Hchk.
    split; [done|]. by rewrite Heng, Hchk.
  - intros Hparse Hex. pose proof (check_all_parse _ _ Hparse Hex) as Hchk.
    split; [done|]. by rewrite Heng, Hchk.
Qed.

End Properties.

(** * Properties of the other operations

    What the queries, the remaining branches of the pod events, the node
    and budget events, the status handling of the resize engine, the
    reaper on a broken cache and the reconciliation of a caller's node
    map do. *)

Section Operations.

Context {K : Collaborators}.

(** Modelled from the spec: the key is "a stable identifier derived from
    the workload's namespace and unique identity"; it does not read the
    [Spec]. *)
Hypothesis getPodKey_identity :
  forall p q, same_identity p q -> getPodKey p = getPodKey q.

(** *** Inversion of the successful calls *)

Lemma AssumePod_nil (h : gmap loc Pod) (c c' : schedulerCache) (p : loc) :
  AssumePod h c p = Returned None c' ->
  exists key, getPodKey (deref h p) = (key, None)
    /\ podStates c !! key = None
    /\ podStates c' =
         <[key := {| pod := p; deadline := None; bindingFinished := false |}]> (podStates c)
    /\ assumedPods c' = {[key]} ∪ assumedPods c
    /\ nodes c' = nodes (addPod h c p)
    /\ pdbs c' = pdbs c /\ ttl c' = ttl c.
Proof.
  unfold AssumePod. destruct (getPodKey (deref h p)) as [key [err|]]; [discriminate|].
  destruct (podStates c !! key) eqn:Hps; [discriminate|].
  intros [= <-]. exists key. repeat split; done.
Qed.

Lemma ForgetPod_nil (h : gmap loc Pod) (c c' : schedulerCache) (p : loc) :
  ForgetPod h c p = Returned None c' ->
  exists key c1, getPodKey (deref h p) = (key, None)
    /\ is_Some (podStates c !! key) /\ key ∈ assumedPods c
    /\ removePod h c p = Returned None c1
    /\ podStates c' = delete key (podStates c)
    /\ assumedPods c' = assumedPods c ∖ {[key]}
    /\ nodes c' = nodes c1
    /\ pdbs c' = pdbs c /\ ttl c' = ttl c.
Proof.
  unfold ForgetPod. destruct (getPodKey (deref h p)) as [key [err|]]; [discriminate|].
  destruct (podStates c !! key) as [ps|] eqn:Hps; [|discriminate].
  case_bool_decide; [discriminate|].
  case_bool_decide as Hin; [|discriminate].
  destruct (removePod h c p) as [[[e|] c1]|] eqn:Hrm; try discriminate.
  cbn. intros [= <-].
  destruct (removePod_frame h c c1 p None Hrm) as (Hps1 & Has1 & Hpdb & Httl & _).
  exists key, c1. cbn. rewrite Hps1, Has1. repeat split; eauto.
Qed.

Lemma AddPod_nil (h : gmap loc Pod) (c c' : schedulerCache) (p : loc) :
  AddPod h c p = Returned None c' ->
  exists key, getPodKey (deref h p) = (key, None)
    /\ (podStates c !! key = None \/ key ∈ assumedPods c)
    /\ (exists bf, podStates c' =
          <[key := {| pod := p; deadline := None; bindingFinished := bf |}]> (podStates c))
    /\ assumedPods c' = assumedPods c ∖ {[key]} ∪
         (if bool_decide (is_Some (podStates c !! key)) then ∅ else assumedPods c)
    /\ pdbs c' = pdbs c /\ ttl c' = ttl c.
Proof.
  unfold AddPod. destruct (getPodKey (deref h p)) as [key [err|]]; [discriminate|].
  destruct (podStates c !! key) as [ps|] eqn:Hps.
  - case_bool_decide as Hin; [|discriminate].
    case_bool_decide as Hne.
    + destruct (removePod h c (pod ps)) as [[e c1]|] eqn:Hrm; [|discriminate].
      destruct (removePod_frame h c c1 (pod ps) e Hrm) as (Hps1 & Has1 & Hpdb & Httl & _).
      cbn. rewrite Hps1, Hps. intros [= <-]. exists key. cbn.
      rewrite Has1, bool_decide_eq_true_2 by eauto.
      split; [done|]. split; [by right|]. split; [eauto|].
      split; [by rewrite (right_id_L ∅ (∪))|]. done.
    + cbn. rewrite Hps. intros [= <-]. exists key. cbn.
      rewrite bool_decide_eq_true_2 by eauto.
      split; [done|]. split; [by right|]. split; [eauto|].
      split; [by rewrite (right_id_L ∅ (∪))|]. done.
  - intros [= <-]. exists key. cbn.
    rewrite bool_decide_eq_false_2 by (rewrite Hps; by intros [? ?]).
    split; [done|]. split; [by left|]. split; [eauto|].
    split; [|done]. apply set_eq. intros x.
    rewrite elem_of_union, elem_of_difference. tauto.
Qed.

Lemma RemovePod_nil (h : gmap loc Pod) (c c' : schedulerCache) (p : loc) :
  RemovePod h c p = Returned None c' ->
  exists key ps c1, getPodKey (deref h p) = (key, None)
    /\ podStates c !! key = Some ps /\ (key ∉ assumedPods c)
    /\ NodeName (Spec (deref h (pod ps))) = NodeName (Spec (deref h p))
    /\ removePod h c (pod ps) = Returned None c1
    /\ podStates c' = delete key (podStates c)
    /\ assumedPods c' = assumedPods c
    /\ nodes c' = nodes c1
    /\ pdbs c' = pdbs c /\ ttl c' = ttl c.
Proof.
  unfold RemovePod. destruct (getPodKey (deref h p)) as [key [err|]]; [discriminate|].
  destruct (podStates c !! key) as [ps|] eqn:Hps; [|discriminate].
  case_bool_decide as Hin; [discriminate|]. cbn.
  case_bool_decide as Hne; [discriminate|].
  destruct (removePod h c (pod ps)) as [[[e|] c1]|] eqn:Hrm; try discriminate.
  cbn. intros [= <-].
  destruct (removePod_frame h c c1 (pod ps) None Hrm) as (Hps1 & Has1 & Hpdb & Httl & _).
  exists key, ps, c1. cbn. rewrite Hps1.
  repeat split; try done.
Qed.

Lemma expirePod_nil (h : gmap loc Pod) (c c' : schedulerCache) (key : string)
    (ps : podState) :
  expirePod h c key ps = Returned None c' ->
  exists c1, removePod h c (pod ps) = Returned None c1
    /\ podStates c' = delete key (podStates c)
    /\ assumedPods c' = assumedPods c ∖ {[key]}
    /\ nodes c' = nodes c1
    /\ pdbs c' = pdbs c /\ ttl c' = ttl c.
Proof.
  unfold expirePod.
  destruct (removePod h c (pod ps)) as [[[e|] c1]|] eqn:Hrm; try discriminate.
  cbn. intros [= <-].
  destruct (removePod_frame h c c1 (pod ps) None Hrm) as (Hps1 & Has1 & Hpdb & Httl & _).
  exists c1. cbn. rewrite Hps1, Has1. repeat split; done.
Qed.

(** X1.  [GetPod] follows the life cycle of a pod.  After an [AssumePod]
    or an [AddPod] of pod [p] that returned nil it returns [p] and a nil
    error; [finishBinding] does not change what it returns; after a
    [ForgetPod], a [RemovePod] or an [expirePod] that returned nil, and
    for every key without state, it returns no pod and the error that the
    pod does not exist. *)
Theorem GetPod_follows_life_cycle (h : gmap loc Pod) (c c' : schedulerCache) (p : loc) :
  (AssumePod h c p = Returned None c' -> GetPod h c' p = (Some p, None))
  /\ (AddPod h c p = Returned None c' -> GetPod h c' p = (Some p, None))
  /\ (forall now, finishBinding h c p now = Returned None c' ->
        GetPod h c' p = GetPod h c p)
  /\ (ForgetPod h c p = Returned None c' ->
        exists key, GetPod h c' p = (None, Some (DoesNotExist key)))
  /\ (RemovePod h c p = Returned None c' ->
        exists key, GetPod h c' p = (None, Some (DoesNotExist key)))
  /\ (forall key ps, getPodKey (deref h p) = (key, None) ->
        expirePod h c key ps = Returned None c' ->
        GetPod h c' p = (None, Some (DoesNotExist key)))
  /\ (forall key, getPodKey (deref h p) = (key, None) -> podStates c !! key = None ->
        GetPod h c p = (None, Some (DoesNotExist key))).
Proof.
  split; [|split; [|split; [|split; [|split; [|split]]]]].
  - intros (key & Hkey & _ & Hps & _)%AssumePod_nil.
    unfold GetPod. by rewrite Hkey, Hps, lookup_insert_eq.
  - intros (key & Hkey & _ & (bf & Hps) & _)%AddPod_nil.
    unfold GetPod. by rewrite Hkey, Hps, lookup_insert_eq.
  - intros now. unfold finishBinding, GetPod.
    destruct (getPodKey (deref h p)) as [key [err|]]; [discriminate|].
    destruct (podStates c !! key) as [ps|] eqn:Hps; [|intros [= <-]; by rewrite Hps].
    case_bool_decide; intros [= <-]; [|by rewrite Hps].
    cbn. by rewrite lookup_insert_eq.
  - intros (key & c1 & Hkey & _ & _ & _ & Hps & _)%ForgetPod_nil.
    exists key. unfold GetPod. by rewrite Hkey, Hps, lookup_delete_eq.
  - intros (key & ps & c1 & Hkey & _ & _ & _ & _ & Hps & _)%RemovePod_nil.
    exists key. unfold GetPod. by rewrite Hkey, Hps, lookup_delete_eq.
  - intros key ps Hkey (c1 & _ & Hps & _)%expirePod_nil.
    unfold GetPod. by rewrite Hkey, Hps, lookup_delete_eq.
  - intros key Hkey Hps. unfold GetPod. by rewrite Hkey, Hps.
Qed.

(** X2.  [IsAssumedPod] follows the life cycle of a pod, always with a
    nil error: it is true after an [AssumePod] that returned nil;
    [finishBinding] does not change it; it is false after a [ForgetPod],
    a [RemovePod] or an [expirePod] that returned nil, and after an
    [AddPod] that returned nil in a cache where every assumed key has a
    state (invariant 1). *)
Theorem IsAssumedPod_follows_life_cycle (h : gmap loc Pod) (c c' : schedulerCache)
    (p : loc) :
  (AssumePod h c p = Returned None c' -> IsAssumedPod h c' p = (true, None))
  /\ (forall now, finishBinding h c p now = Returned None c' ->
        IsAssumedPod h c' p = IsAssumedPod h c p)
  /\ (AddPod h c p = Returned None c' -> assumed_have_state c ->
        IsAssumedPod h c' p = (false, None))
  /\ (ForgetPod h c p = Returned None c' -> IsAssumedPod h c' p = (false, None))
  /\ (RemovePod h c p = Returned None c' -> IsAssumedPod h c' p = (false, None))
  /\ (forall key ps, getPodKey (deref h p) = (key, None) ->
        expirePod h c key ps = Returned None c' ->
        IsAssumedPod h c' p = (false, None)).
Proof.
  split; [|split; [|split; [|split; [|split]]]].
  - intros (key & Hkey & _ & _ & Has & _)%AssumePod_nil.
    unfold IsAssumedPod. rewrite Hkey, Has, bool_decide_eq_true_2; [done|].
    apply elem_of_union_l. by apply elem_of_singleton.
  - intros now. unfold finishBinding, IsAssumedPod.
    destruct (getPodKey (deref h p)) as [key [err|]]; [discriminate|].
    destruct (podStates c !! key) as [ps|] eqn:Hps; [|by intros [= <-]].
    destruct (bool_decide (key ∈ assumedPods c)) eqn:Hb; intros [= <-]; cbn;
      by rewrite ?Hb.
  - intros (key & Hkey & Hcase & _ & Has & _)%AddPod_nil Hinv.
    unfold IsAssumedPod. rewrite Hkey, Has, bool_decide_eq_false_2; [done|].
    rewrite elem_of_union, elem_of_difference, elem_of_singleton.
    intros [[_ Hn]|Hin]; [done|].
    case_bool_decide as Hs; [by apply elem_of_empty in Hin|].
    by apply Hs, Hinv.
  - intros (key & c1 & Hkey & _ & _ & _ & _ & Has & _)%ForgetPod_nil.
    unfold IsAssumedPod. rewrite Hkey, Has, bool_decide_eq_false_2; [done|].
    rewrite elem_of_difference, elem_of_singleton. by intros [_ Hn].
  - intros (key & ps & c1 & Hkey & _ & Hnin & _ & _ & _ & Has & _)%RemovePod_nil.
    unfold IsAssumedPod. by rewrite Hkey, Has, bool_decide_eq_false_2.
  - intros key ps Hkey (c1 & _ & _ & Has & _)%expirePod_nil.
    unfold IsAssumedPod. rewrite Hkey, Has, bool_decide_eq_false_2; [done|].
    rewrite elem_of_difference, elem_of_singleton. by intros [_ Hn].
Qed.

(** X3.  A pod that [AddPod] has added cannot be added again: in a cache
    where every assumed key has a state (invariant 1), after an [AddPod]
    that returned nil, [AddPod] of any pod with the same key returns the
    already-added error and leaves the cache as it is. *)
Theorem AddPod_not_repeatable (h : gmap loc Pod) (c c1 : schedulerCache) (p q : loc) :
  assumed_have_state c ->
  AddPod h c p = Returned None c1 ->
  getPodKey (deref h q) = getPodKey (deref h p) ->
  exists key, getPodKey (deref h p) = (key, None)
    /\ AddPod h c1 q = Returned (Some (AlreadyAdded key)) c1.
Proof.
  intros Hinv (key & Hkey & Hcase & (bf & Hps) & Has & _)%AddPod_nil Hq.
  exists key. split; [done|].
  unfold AddPod. rewrite Hq, Hkey, Hps, lookup_insert_eq.
  rewrite bool_decide_eq_false_2; [done|].
  rewrite Has, elem_of_union, elem_of_difference, elem_of_singleton.
  intros [[_ Hn]|Hin]; [done|].
  case_bool_decide as Hs; [by apply elem_of_empty in Hin|].
  by apply Hs, Hinv.
Qed.

(** X4.  An expired pod is added back: after an [expirePod] of key [key]
    that returned nil, [AddPod] of a pod with this key returns nil,
    records a fresh state for it (no deadline, binding not finished),
    leaves the key out of [assumedPods] and adds the pod to the node it
    names; [GetPod] then returns the pod and [IsAssumedPod] is false. *)
Theorem AddPod_after_expiry (h : gmap loc Pod) (c c1 : schedulerCache) (p : loc)
    (key : string) (ps : podState) :
  getPodKey (deref h p) = (key, None) ->
  expirePod h c key ps = Returned None c1 ->
  exists c2, AddPod h c1 p = Returned None c2
    /\ podStates c2 =
         <[key := {| pod := p; deadline := None; bindingFinished := false |}]>
           (delete key (podStates c))
    /\ assumedPods c2 = assumedPods c ∖ {[key]}
    /\ nodes c2 = nodes (addPod h c1 p)
    /\ GetPod h c2 p = (Some p, None)
    /\ IsAssumedPod h c2 p = (false, None).
Proof.
  intros Hkey (c0 & _ & Hps & Has & _)%expirePod_nil.
  unfold AddPod. rewrite Hkey, Hps, lookup_delete_eq.
  eexists. split; [reflexivity|]. cbn. rewrite Hps, Has.
  split; [done|]. split; [done|]. split; [done|].
  unfold GetPod, IsAssumedPod. rewrite Hkey. cbn.
  rewrite lookup_insert_eq, Has. split; [done|].
  rewrite bool_decide_eq_false_2; [done|].
  rewrite elem_of_difference, elem_of_singleton. by intros [_ Hn].
Qed.

(** X5.  [RemovePod] of a pod with key [key]:
    - returns the not-found error and leaves the cache as it is when the
      key has no state or is in [assumedPods];
    - is fatal ([glog.Fatalf]) when the key is confirmed and the cached
      pod names another node than the submitted one;
    - otherwise, when the cached pod carries the key and is accounted on
      its node, returns nil, takes one pod with this key off the
      accounting of that node (it is the cached pod that is removed) and
      deletes the key from [podStates]; [assumedPods] is left as it is. *)
Theorem RemovePod_spec (h : gmap loc Pod) (c : schedulerCache) (p : loc) (key : string) :
  getPodKey (deref h p) = (key, None) ->
  (podStates c !! key = None \/ key ∈ assumedPods c ->
     RemovePod h c p = Returned (Some (NotFound key)) c)
  /\ (forall ps, podStates c !! key = Some ps -> key ∉ assumedPods c ->
        NodeName (Spec (deref h (pod ps))) <> NodeName (Spec (deref h p)) ->
        RemovePod h c p = Crashed Fatalf)
  /\ (forall ps, podStates c !! key = Some ps -> key ∉ assumedPods c ->
        NodeName (Spec (deref h (pod ps))) = NodeName (Spec (deref h p)) ->
        getPodKey (deref h (pod ps)) = (key, None) ->
        (1 <= accounted h c (NodeName (Spec (deref h p))) key)%nat ->
        exists c', RemovePod h c p = Returned None c'
          /\ podStates c' = delete key (podStates c)
          /\ assumedPods c' = assumedPods c
          /\ (forall name k,
                accounted h c' name k =
                  (accounted h c name k
                   - (if bool_decide (name = NodeName (Spec (deref h p)) /\ k = key)
                      then 1 else 0))%nat)
          /\ pdbs c' = pdbs c /\ ttl c' = ttl c).
Proof.
  intros Hkey. unfold RemovePod. rewrite Hkey. split; [|split].
  - intros [Hno|Hin]; [by rewrite Hno|].
    destruct (podStates c !! key); [|done].
    by rewrite (bool_decide_eq_true_2 _ Hin).
  - intros ps Hps Hnin Hne. rewrite Hps, (bool_decide_eq_false_2 _ Hnin). cbn.
    by rewrite (bool_decide_eq_true_2 _ Hne).
  - intros ps Hps Hnin Heq Hckey Hacc.
    rewrite Hps, (bool_decide_eq_false_2 _ Hnin). cbn.
    rewrite bool_decide_eq_false_2 by (intros Hne; by apply Hne).
    rewrite <- Heq in Hacc.
    destruct (removePod_accounted h c (pod ps) key Hckey Hacc) as (c1 & Hrm & Hcount).
    destruct (removePod_frame h c c1 (pod ps) None Hrm) as (Hps1 & Has1 & Hpdb & Httl & _).
    rewrite Hrm. cbn. eexists. split; [reflexivity|]. cbn.
    rewrite Hps1. rewrite <- Heq. repeat split; done.
Qed.

Lemma sub64_add64 (a b : Z) : int64_range a -> sub64 (add64 a b) b = a.
Proof.
  unfold int64_range, sub64, add64, wrap64. intros Ha.
  replace ((a + b + 2 ^ 63) mod 2 ^ 64 - 2 ^ 63 - b + 2 ^ 63)%Z
    with ((a + b + 2 ^ 63) mod 2 ^ 64 - b)%Z by lia.
  rewrite Zminus_mod_idemp_l.
  replace (a + b + 2 ^ 63 - b)%Z with (a + 2 ^ 63)%Z by lia.
  rewrite Z.mod_small; lia.
Qed.

Lemma remove_by_key_snoc (h : gmap loc Pod) (k : string) (l : list loc) (p : loc) :
  count_key h k l = 0%nat -> has_key h k p = true ->
  remove_by_key h k (l ++ [p]) = Some l.
Proof.
  intros Hc Hp. induction l as [|q l IH]; cbn [remove_by_key app].
  - by rewrite Hp.
  - rewrite count_key_cons in Hc. destruct (has_key h k q); [lia|].
    rewrite IH by lia. done.
Qed.

Lemma removePod_addPod (h : gmap loc Pod) (c c0 : schedulerCache) (p : loc)
    (key : string) :
  getPodKey (deref h p) = (key, None) ->
  accounted h c (NodeName (Spec (deref h p))) key = 0%nat ->
  nodes c0 = nodes (addPod h c p) ->
  exists c', removePod h c0 p = Returned None c'
    /\ podStates c' = podStates c0 /\ assumedPods c' = assumedPods c0
    /\ pdbs c' = pdbs c0 /\ ttl c' = ttl c0
    /\ (forall name, pods_on c' name = pods_on c name)
    /\ (forall name n n', nodes c !! name = Some n -> nodes c' !! name = Some n' ->
          same_sums n n')
    /\ (forall name, nodes c !! name = None -> nodes c' !! name = None).
Proof.
  intros Hkey Hacc Hnodes. unfold removePod. rewrite Hnodes.
  unfold addPod. cbn [nodes with_nodes].
  set (N := NodeName (Spec (deref h p))) in *.
  set (n0 := default NewNodeInfo (nodes c !! N)).
  rewrite lookup_insert_eq.
  assert (Hcount : count_key h key (pods n0) = 0%nat).
  { unfold n0, accounted in *. destruct (nodes c !! N); [done|reflexivity]. }
  unfold NodeInfo_RemovePod, NodeInfo_AddPod. rewrite Hkey.
  destruct (calculateNonzero (deref h p)) as [cpu0 mem0]. cbn [pods node].
  rewrite (remove_by_key_snoc h key (pods n0) p Hcount)
    by (by apply has_key_true).
  cbn [pods node].
  assert (Hp0 : pods_on c N = pods n0).
  { unfold pods_on, n0. by destruct (nodes c !! N). }
  set (n' := {| node := node n0; pods := pods n0;
                requestedResource := _; nonzeroRequest := _;
                allocatableResource := _; generation := _ |}).
  assert (Hsame : forall n, nodes c !! N = Some n -> same_sums n n').
  { intros n Hn. unfold n', n0. rewrite Hn. cbn.
    repeat split; cbn; intros Hr; by apply sub64_add64. }
  destruct (bool_decide (length (pods n0) = 0%nat) && bool_decide (node n0 = None))
    eqn:Hshell.
  - apply andb_true_iff in Hshell as [Hlen Hnode].
    apply bool_decide_eq_true in Hlen, Hnode. apply nil_length_inv in Hlen.
    eexists. split; [reflexivity|]. cbn [podStates assumedPods pdbs ttl nodes with_nodes].
    rewrite delete_insert_eq.
    split; [done|]. split; [done|]. split; [done|]. split; [done|].
    split; [|split]; intros name; destruct (decide (name = N)) as [->|Hne].
    + rewrite Hp0, Hlen. unfold pods_on. cbn. by rewrite lookup_delete_eq.
    + unfold pods_on. cbn. by rewrite lookup_delete_ne.
    + intros n n2 _. by rewrite lookup_delete_eq.
    + intros n n2 Hn. rewrite lookup_delete_ne by done. intros Hn2.
      assert (n2 = n) as -> by congruence. by repeat split.
    + intros _. by rewrite lookup_delete_eq.
    + intros Hn. by rewrite lookup_delete_ne.
  - eexists. split; [reflexivity|]. cbn [podStates assumedPods pdbs ttl nodes with_nodes].
    rewrite insert_insert_eq.
    split; [done|]. split; [done|]. split; [done|]. split; [done|].
    split; [|split]; intros name; destruct (decide (name = N)) as [->|Hne].
    + rewrite Hp0. unfold pods_on. cbn. by rewrite lookup_insert_eq.
    + unfold pods_on. cbn. by rewrite lookup_insert_ne.
    + intros n n2 Hn. rewrite lookup_insert_eq. intros [= <-]. by apply Hsame.
    + intros n n2 Hn. rewrite lookup_insert_ne by done. intros Hn2.
      assert (n2 = n) as -> by congruence. by repeat split.
    + intros Hn. exfalso. unfold n0 in Hshell. rewrite Hn in Hshell. done.
    + intros Hn. by rewrite lookup_insert_ne.
Qed.

(** X6.  [ForgetPod] undoes [AssumePod]: in a cache where every assumed
    key has a state (invariant 1) and the node of pod [p] accounts no pod
    with the key of [p], after an [AssumePod] of [p] that returned nil,
    [ForgetPod] of [p] returns nil and leaves [podStates], [assumedPods]
    and the budgets as they were before the [AssumePod], every node with
    the pods it had, every node record that is still there with the
    descriptor and the CPU and memory sums it had, and no record for a
    node that had none. *)
Theorem ForgetPod_undoes_AssumePod (h : gmap loc Pod) (c c1 : schedulerCache)
    (p : loc) (key : string) :
  assumed_have_state c ->
  getPodKey (deref h p) = (key, None) ->
  accounted h c (NodeName (Spec (deref h p))) key = 0%nat ->
  AssumePod h c p = Returned None c1 ->
  exists c2, ForgetPod h c1 p = Returned None c2
    /\ podStates c2 = podStates c /\ assumedPods c2 = assumedPods c
    /\ pdbs c2 = pdbs c /\ ttl c2 = ttl c
    /\ (forall name, pods_on c2 name = pods_on c name)
    /\ (forall name n n2, nodes c !! name = Some n -> nodes c2 !! name = Some n2 ->
          same_sums n n2)
    /\ (forall name, nodes c !! name = None -> nodes c2 !! name = None).
Proof.
  intros Hinv Hkey Hacc (key' & Hkey' & Hfresh & Hps & Has & Hn & Hpdb & Httl)%AssumePod_nil.
  assert (key' = key) as -> by congruence.
  destruct (removePod_addPod h c c1 p key Hkey Hacc Hn)
    as (c' & Hrm & Hps' & Has' & Hpdb' & Httl' & Hpods & Hsums & Hnone).
  unfold ForgetPod. rewrite Hkey, Hps, lookup_insert_eq. cbn [pod].
  rewrite bool_decide_eq_false_2 by (intros Hne; by apply Hne).
  rewrite bool_decide_eq_true_2
    by (rewrite Has; apply elem_of_union_l; by apply elem_of_singleton).
  rewrite Hrm. cbn. eexists. split; [reflexivity|]. cbn.
  rewrite Hps', Has', Hps, Has, Hpdb', Httl'.
  split; [by apply delete_insert_id|].
  split; [|done].
  apply set_eq. intros x. rewrite elem_of_difference, elem_of_union, elem_of_singleton.
  split; [intros [[->|Hx] Hne]; done|].
  intros Hx. split; [by right|]. intros ->.
  destruct (Hinv key Hx) as [ps Hs]. congruence.
Qed.

(** X7.  [RemovePod] undoes the [AddPod] of a new pod: in a cache where
    every assumed key has a state (invariant 1), the key of pod [p] has
    none and the node of [p] accounts no pod with this key, after an
    [AddPod] of [p] that returned nil, [RemovePod] of [p] returns nil and
    leaves [podStates], [assumedPods] and the budgets as they were before
    the [AddPod], every node with the pods it had, every node record that
    is still there with the descriptor and the CPU and memory sums it
    had, and no record for a node that had none. *)
Theorem RemovePod_undoes_AddPod (h : gmap loc Pod) (c c1 : schedulerCache)
    (p : loc) (key : string) :
  assumed_have_state c ->
  getPodKey (deref h p) = (key, None) ->
  podStates c !! key = None ->
  accounted h c (NodeName (Spec (deref h p))) key = 0%nat ->
  AddPod h c p = Returned None c1 ->
  exists c2, RemovePod h c1 p = Returned None c2
    /\ podStates c2 = podStates c /\ assumedPods c2 = assumedPods c
    /\ pdbs c2 = pdbs c /\ ttl c2 = ttl c
    /\ (forall name, pods_on c2 name = pods_on c name)
    /\ (forall name n n2, nodes c !! name = Some n -> nodes c2 !! name = Some n2 ->
          same_sums n n2)
    /\ (forall name, nodes c !! name = None -> nodes c2 !! name = None).
Proof.
  intros Hinv Hkey Hfresh Hacc Hadd.
  pose proof Hadd as (key' & Hkey' & _ & (bf & Hps) & Has & Hpdb & Httl)%AddPod_nil.
  assert (key' = key) as -> by congruence.
  rewrite bool_decide_eq_false_2 in Has by (rewrite Hfresh; by intros [? ?]).
  assert (Hnin : key ∉ assumedPods c).
  { intros Hin. destruct (Hinv key Hin) as [ps Hs]. congruence. }
  assert (Has1 : assumedPods c1 = assumedPods c).
  { rewrite Has. apply set_eq. intros x.
    rewrite elem_of_union, elem_of_difference. tauto. }
  assert (Hn : nodes c1 = nodes (addPod h c p)).
  { revert Hadd. unfold AddPod. rewrite Hkey, Hfresh. by intros [= <-]. }
  destruct (removePod_addPod h c c1 p key Hkey Hacc Hn)
    as (c' & Hrm & Hps' & Has' & Hpdb' & Httl' & Hpods & Hsums & Hnone).
  unfold RemovePod. rewrite Hkey, Hps, lookup_insert_eq. cbn [pod].
  rewrite Has1, (bool_decide_eq_false_2 _ Hnin). cbn [negb].
  rewrite bool_decide_eq_false_2 by (intros Hne; by apply Hne).
  rewrite Hrm. cbn. eexists. split; [reflexivity|]. cbn.
  rewrite Hps', Has', Hpdb', Httl', Hps, Has1, Hpdb, Httl.
  split; [by apply delete_insert_id|]. done.
Qed.

(** X8.  [UpdatePod], [key] being the key of the old pod:
    - returns the not-added error and leaves the cache and the pods as
      they are when the key has no state or is in [assumedPods];
    - is fatal ([glog.Fatalf]) when the key is confirmed and the cached
      pod names another node than the new pod;
    - whenever it returns, with or without an error, [podStates],
      [assumedPods] and the budgets are as they were: the cached pod of
      the key is not replaced by the new pod;
    - when the resize engine is not consulted (feature gate off, one of
      the pods not running, deletion pending, or no resize record) and
      the old pod is removed from its node, it returns nil, writes to no
      pod and adds the new pod to the node it names. *)
Theorem UpdatePod_spec (h : gmap loc Pod) (c : schedulerCache) (oldPod newPod : loc)
    (order : list PodDisruptionBudget) (key : string) :
  getPodKey (deref h oldPod) = (key, None) ->
  (podStates c !! key = None \/ key ∈ assumedPods c ->
     UpdatePod h c oldPod newPod order = Returned (Some (NotAdded key)) (h, c))
  /\ (forall ps, podStates c !! key = Some ps -> key ∉ assumedPods c ->
        NodeName (Spec (deref h (pod ps))) <> NodeName (Spec (deref h newPod)) ->
        UpdatePod h c oldPod newPod order = Crashed Fatalf)
  /\ (forall e h' c', UpdatePod h c oldPod newPod order = Returned e (h', c') ->
        podStates c' = podStates c /\ assumedPods c' = assumedPods c
        /\ pdbs c' = pdbs c /\ ttl c' = ttl c)
  /\ (forall ps c1, podStates c !! key = Some ps -> key ∉ assumedPods c ->
        NodeName (Spec (deref h (pod ps))) = NodeName (Spec (deref h newPod)) ->
        removePod h c oldPod = Returned None c1 ->
        (VerticalScaling = false
         \/ Phase (Status (deref h oldPod)) <> PodRunning
         \/ Phase (Status (deref h newPod)) <> PodRunning
         \/ DeletionTimestamp (deref h newPod) <> None
         \/ ResizeResources (Spec (deref h newPod)) = None) ->
        UpdatePod h c oldPod newPod order = Returned None (h, addPod h c1 newPod)).
Proof.
  intros Hkey. unfold UpdatePod. rewrite Hkey. split; [|split; [|split]].
  - intros [Hno|Hin]; [by rewrite Hno|].
    destruct (podStates c !! key); [|done].
    by rewrite (bool_decide_eq_true_2 _ Hin).
  - intros ps Hps Hnin Hne. rewrite Hps, (bool_decide_eq_false_2 _ Hnin). cbn.
    by rewrite (bool_decide_eq_true_2 _ Hne).
  - intros e h' c'.
    destruct (podStates c !! key) as [ps|]; [|by intros [= <- <- <-]].
    destruct (negb _); [|by intros [= <- <- <-]].
    destruct (bool_decide _); [discriminate|].
    unfold updatePod.
    destruct (removePod h c oldPod) as [[err c1]|] eqn:Hrm; [|discriminate].
    destruct (removePod_frame h c c1 oldPod err Hrm) as (Hps1 & Has1 & Hpdb & Httl & Herr & _).
    cbn. destruct err as [e0|].
    { intros [= <- <- <-]. by rewrite Herr. }
    match goal with
    | |- context [mbind _ ?m] => destruct m as [[err2 h1]|]; [|discriminate]
    end.
    cbn. by intros [= <- <- <-].
  - intros ps c1 Hps Hnin Heq Hrm Hgate.
    rewrite Hps, (bool_decide_eq_false_2 _ Hnin). cbn.
    rewrite bool_decide_eq_false_2 by (intros Hne; by apply Hne).
    unfold updatePod. rewrite Hrm. cbn.
    assert (Hg : VerticalScaling
            && bool_decide (Phase (Status (deref h oldPod)) = PodRunning)
            && bool_decide (Phase (Status (deref h newPod)) = PodRunning)
            && bool_decide (DeletionTimestamp (deref h newPod) = None)
            && bool_decide (ResizeResources (Spec (deref h newPod)) ≠ None) = false).
    { destruct Hgate as [->|[H|[H|[H|H]]]]; [done| | | |].
      - rewrite (bool_decide_eq_false_2 _ H). by rewrite andb_false_r.
      - rewrite (bool_decide_eq_false_2 _ H). by rewrite !andb_false_r.
      - rewrite (bool_decide_eq_false_2 _ H). by rewrite !andb_false_r.
      - rewrite (bool_decide_eq_false_2 (_ ≠ None)) by (intros Hn; by apply Hn).
        by rewrite !andb_false_r. }
    by rewrite Hg.
Qed.

(** *** Listing *)

Lemma FilteredList_inner (f : loc -> bool) (l acc : list loc) :
  foldl (fun acc pod => if f pod then acc ++ [pod] else acc) acc l
  = acc ++ filter (fun pod => f pod = true) l.
Proof.
  revert acc. induction l as [|p l IH]; intros acc; cbn [foldl].
  - by rewrite filter_nil, app_nil_r.
  - rewrite IH, filter_cons. destruct (f p) eqn:Hf.
    + rewrite decide_True by done. by rewrite <- app_assoc.
    + by rewrite decide_False by done.
Qed.

Lemma FilteredList_outer (f : loc -> bool) (order : list NodeInfo) (acc : list loc) :
  foldl (fun acc info =>
           foldl (fun acc pod => if f pod then acc ++ [pod] else acc) acc (pods info))
        acc order
  = acc ++ filter (fun pod => f pod = true) (order ≫= pods).
Proof.
  revert acc. induction order as [|n order IH]; intros acc; cbn [foldl].
  - by rewrite app_nil_r.
  - rewrite IH, FilteredList_inner. cbn. rewrite filter_app. by rewrite <- app_assoc.
Qed.

Lemma FilteredList_filter (h : gmap loc Pod) (podFilter : Pod -> bool)
    (selector : Selector) (order : list NodeInfo) :
  FilteredList h podFilter selector order =
    (filter (fun pod => podFilter (deref h pod)
                        && Matches selector (Labels (deref h pod)) = true)
            (order ≫= pods), None).
Proof.
  unfold FilteredList.
  by rewrite (FilteredList_outer
    (fun pod => podFilter (deref h pod) && Matches selector (Labels (deref h pod)))).
Qed.

Lemma FilteredList_maxSize_length (sizing : list NodeInfo) :
  FilteredList_maxSize sizing = length (sizing ≫= pods).
Proof.
  unfold FilteredList_maxSize.
  assert (H : forall acc, foldl (fun maxSize info => (maxSize + length (pods info))%nat)
                            acc sizing = (acc + length (sizing ≫= pods))%nat).
  { induction sizing as [|n l IH]; intros acc; cbn [foldl].
    - cbn. lia.
    - rewrite IH. cbn. rewrite length_app. lia. }
  by rewrite H.
Qed.

Lemma node_order_elem (c : schedulerCache) (order : list NodeInfo) (p : loc) :
  node_order c order ->
  (p ∈ order ≫= pods) <-> exists name, p ∈ pods_on c name.
Proof.
  unfold node_order. intros Hord. rewrite list_elem_of_bind. split.
  - intros (n & Hp & Hn). rewrite Hord in Hn.
    apply list_elem_of_fmap in Hn as ([name n'] & -> & Hn).
    apply elem_of_map_to_list in Hn. exists name. unfold pods_on. by rewrite Hn.
  - intros (name & Hp). unfold pods_on in Hp.
    destruct (nodes c !! name) as [n|] eqn:Hn; [|by apply elem_of_nil in Hp].
    exists n. split; [done|]. rewrite Hord.
    apply list_elem_of_fmap. exists (name, n). split; [done|].
    by apply elem_of_map_to_list.
Qed.

Lemma FilteredList_elem (h : gmap loc Pod) (c : schedulerCache)
    (podFilter : Pod -> bool) (selector : Selector) (order : list NodeInfo) (p : loc) :
  node_order c order ->
  p ∈ fst (FilteredList h podFilter selector order) <->
    podFilter (deref h p) = true
    /\ Matches selector (Labels (deref h p)) = true
    /\ exists name, p ∈ pods_on c name.
Proof.
  intros Hord. rewrite FilteredList_filter. cbn [fst].
  rewrite list_elem_of_filter, andb_true_iff, (node_order_elem c order p Hord).
  tauto.
Qed.

(** X9.  [FilteredList], in whatever order the two loops visit the nodes
    of the cache: the error is nil; a pod is in the result exactly when
    some node accounts it, the filter accepts it and the selector matches
    its labels; the result is not longer than the capacity that was
    allocated for it; for another order of visit the result is a
    permutation of it; and [List] returns the accounted pods whose
    labels the selector matches. *)
Theorem FilteredList_spec (h : gmap loc Pod) (c : schedulerCache)
    (podFilter : Pod -> bool) (selector : Selector) (sizing order : list NodeInfo) :
  node_order c sizing -> node_order c order ->
  exists l, FilteredList h podFilter selector order = (l, None)
    /\ (forall p, p ∈ l <->
          podFilter (deref h p) = true
          /\ Matches selector (Labels (deref h p)) = true
          /\ exists name, p ∈ pods_on c name)
    /\ (length l <= FilteredList_maxSize sizing)%nat
    /\ (forall order', node_order c order' ->
          fst (FilteredList h podFilter selector order') ≡ₚ l)
    /\ (forall p, p ∈ fst (List h selector order) <->
          Matches selector (Labels (deref h p)) = true
          /\ exists name, p ∈ pods_on c name).
Proof.
  intros Hsz Hord. rewrite FilteredList_filter. eexists. split; [reflexivity|].
  split; [|split; [|split]].
  - intros p. rewrite list_elem_of_filter, andb_true_iff, (node_order_elem c order p Hord).
    tauto.
  - rewrite FilteredList_maxSize_length.
    etransitivity; [apply length_filter|].
    unfold node_order in *. by rewrite Hsz, Hord.
  - intros order' Hord'. rewrite FilteredList_filter. cbn [fst].
    unfold node_order in *. by rewrite Hord', Hord.
  - intros p. unfold List. rewrite FilteredList_filter. cbn [fst].
    rewrite list_elem_of_filter, (node_order_elem c order p Hord). cbn. tauto.
Qed.

(** X10.  A pod is listed as soon as it is assumed or added: after an
    [AssumePod] of pod [p] that returned nil, or an [AddPod] of [p] that
    returned nil for a key without state, [List] with the selector that
    matches everything returns [p], [List] returns [p] for every selector
    that matches its labels, and so does [FilteredList] for every filter
    that accepts [p]. *)
Theorem List_after_AssumePod_AddPod (h : gmap loc Pod) (c c' : schedulerCache) (p : loc)
    (podFilter : Pod -> bool) (selector : Selector) (order : list NodeInfo) :
  AssumePod h c p = Returned None c'
  \/ (AddPod h c p = Returned None c'
      /\ podStates c !! fst (getPodKey (deref h p)) = None) ->
  node_order c' order ->
  p ∈ fst (List h Everything order)
  /\ (Matches selector (Labels (deref h p)) = true -> p ∈ fst (List h selector order))
  /\ (podFilter (deref h p) = true -> Matches selector (Labels (deref h p)) = true ->
        p ∈ fst (FilteredList h podFilter selector order)).
Proof.
  intros Hop Hord.
  assert (Hon : exists name, p ∈ pods_on c' name).
  { exists (NodeName (Spec (deref h p))).
    assert (Hadd : forall c0, p ∈ pods_on (addPod h c0 p) (NodeName (Spec (deref h p)))).
    { intros c0. unfold pods_on, addPod. cbn [nodes with_nodes].
      rewrite lookup_insert_eq. unfold NodeInfo_AddPod.
      destruct (calculateNonzero (deref h p)). cbn [pods].
      apply elem_of_app. right. by apply list_elem_of_singleton. }
    destruct Hop as [Hop|[Hop Hfresh]].
    - apply AssumePod_nil in Hop as (key & _ & _ & _ & _ & Hn & _).
      unfold pods_on. rewrite Hn. apply Hadd.
    - revert Hop Hfresh. unfold AddPod.
      destruct (getPodKey (deref h p)) as [key [err|]]; [discriminate|].
      cbn [fst]. intros Hop Hfresh. rewrite Hfresh in Hop.
      injection Hop as <-. apply Hadd. }
  split; [|split].
  - unfold List. by apply (FilteredList_elem h c').
  - intros Hm. unfold List. by apply (FilteredList_elem h c').
  - intros Hf Hm. by apply (FilteredList_elem h c').
Qed.

(** *** Budgets *)

Lemma ListPDBs_elem (c : schedulerCache) (selector : Selector)
    (order : list PodDisruptionBudget) (q : PodDisruptionBudget) :
  pdb_order c order ->
  q ∈ fst (ListPDBs selector order) <->
    Matches selector (pdb_Labels q) = true /\ exists uid, pdbs c !! uid = Some q.
Proof.
  unfold pdb_order, ListPDBs, listPDBs. intros Hord. cbn [fst].
  rewrite list_elem_of_filter, Hord, list_elem_of_fmap.
  split.
  - intros [Hm ([uid q'] & -> & Hq)]. split; [done|]. exists uid.
    by apply elem_of_map_to_list.
  - intros [Hm (uid & Hq)]. split; [done|]. exists (uid, q). split; [done|].
    by apply elem_of_map_to_list.
Qed.

(** X11.  [ListPDBs] after [AddPDB] and after [RemovePDB], in whatever
    order the budgets are visited.  Its error is nil.  After [AddPDB] of
    budget [pdb] it returns the budgets whose labels the selector
    matches among [pdb] and the budgets that were stored under another
    UID: a budget stored under the UID of [pdb] is replaced.  After
    [RemovePDB] of [pdb] it returns those among the budgets that were
    stored under another UID. *)
Theorem ListPDBs_after_AddPDB_RemovePDB (c : schedulerCache) (pdb : PodDisruptionBudget)
    (selector : Selector) :
  (forall order, pdb_order c order -> snd (ListPDBs selector order) = None)
  /\ (exists c1, AddPDB c pdb = Returned None c1
       /\ forall order, pdb_order c1 order ->
            forall q, q ∈ fst (ListPDBs selector order) <->
              Matches selector (pdb_Labels q) = true
              /\ (q = pdb \/ exists uid, uid <> pdb_UID pdb /\ pdbs c !! uid = Some q))
  /\ (exists c2, RemovePDB c pdb = Returned None c2
       /\ forall order, pdb_order c2 order ->
            forall q, q ∈ fst (ListPDBs selector order) <->
              Matches selector (pdb_Labels q) = true
              /\ exists uid, uid <> pdb_UID pdb /\ pdbs c !! uid = Some q).
Proof.
  split; [done|]. split.
  - eexists. split; [reflexivity|]. intros order Hord q.
    rewrite (ListPDBs_elem _ selector order q Hord). cbn [pdbs with_pdbs].
    split; intros [Hm Hq]; (split; [done|]).
    + destruct Hq as (uid & Hq). destruct (decide (uid = pdb_UID pdb)) as [->|Hne].
      * rewrite lookup_insert_eq in Hq. left. congruence.
      * rewrite lookup_insert_ne in Hq by done. right. eauto.
    + destruct Hq as [->|(uid & Hne & Hq)].
      * exists (pdb_UID pdb). by rewrite lookup_insert_eq.
      * exists uid. by rewrite lookup_insert_ne.
  - eexists. split; [reflexivity|]. intros order Hord q.
    rewrite (ListPDBs_elem _ selector order q Hord). cbn [pdbs with_pdbs].
    split; intros [Hm (uid & Hq)]; (split; [done|]).
    + destruct (decide (uid = pdb_UID pdb)) as [->|Hne].
      * by rewrite lookup_delete_eq in Hq.
      * rewrite lookup_delete_ne in Hq by done. eauto.
    + destruct Hq as [Hne Hq]. exists uid. by rewrite lookup_delete_ne.
Qed.

Lemma with_pdbs_id (c : schedulerCache) : with_pdbs (pdbs c) c = c.
Proof. by destruct c. Qed.

Lemma with_nodes_id (c : schedulerCache) : with_nodes (nodes c) c = c.
Proof. by destruct c. Qed.

(** X12.  The registry of budgets.  [AddPDB] returns nil, and repeating
    it changes nothing; [UpdatePDB] is [AddPDB] of the new budget,
    whatever the old one is, so that an old budget with another UID stays
    in the cache; [RemovePDB] after [AddPDB] gives back the cache when the
    UID was not in use.  [RemovePDB] returns nil, repeating it changes
    nothing, and it leaves the cache as it is when the UID is not in
    use. *)
Theorem PDB_registry_round_trip (c : schedulerCache) (pdb : PodDisruptionBudget) :
  (exists c1, AddPDB c pdb = Returned None c1
     /\ AddPDB c1 pdb = Returned None c1
     /\ (forall oldPDB, UpdatePDB c oldPDB pdb = Returned None c1)
     /\ (pdbs c !! pdb_UID pdb = None -> RemovePDB c1 pdb = Returned None c)
     /\ (forall oldPDB, pdb_UID oldPDB <> pdb_UID pdb ->
           pdbs c1 !! pdb_UID oldPDB = pdbs c !! pdb_UID oldPDB))
  /\ (exists c2, RemovePDB c pdb = Returned None c2
        /\ RemovePDB c2 pdb = Returned None c2
        /\ (pdbs c !! pdb_UID pdb = None -> c2 = c)).
Proof.
  split.
  - eexists. split; [reflexivity|]. unfold UpdatePDB, AddPDB, RemovePDB.
    cbn [pdbs with_pdbs]. split; [|split; [|split]].
    + unfold with_pdbs. cbn. by rewrite insert_insert_eq.
    + done.
    + intros Hno. rewrite delete_insert_id by done.
      unfold with_pdbs. cbn. by destruct c.
    + intros oldPDB Hne. by rewrite lookup_insert_ne.
  - eexists. split; [reflexivity|]. unfold RemovePDB. cbn [pdbs with_pdbs].
    split.
    + unfold with_pdbs. cbn. by rewrite delete_delete_eq.
    + intros Hno. rewrite delete_id by done. apply with_pdbs_id.
Qed.

(** *** Node events *)

(** X13.  [RemoveNode] undoes [AddNode]: for a node whose name the cache
    does not track, [AddNode] returns nil and leaves a record with the
    descriptor and without pods, and [RemoveNode] of the node then
    returns nil and gives back the cache. *)
Theorem AddNode_RemoveNode_round_trip (c : schedulerCache) (nd : Node) :
  nodes c !! node_Name nd = None ->
  exists c1, AddNode c nd = Returned None c1
    /\ (exists n1, nodes c1 !! node_Name nd = Some n1 /\ node n1 = Some nd /\ pods n1 = [])
    /\ RemoveNode c1 nd = Returned None c.
Proof.
  intros Hn. unfold AddNode, RemoveNode. rewrite Hn. cbn.
  eexists. split; [reflexivity|]. cbn. rewrite lookup_insert_eq. cbn.
  split; [eauto|].
  rewrite delete_insert_id by done. by destruct c.
Qed.

Lemma pods_on_insert (c : schedulerCache) (name0 name : string) (n0 : NodeInfo) :
  pods_on (with_nodes (<[name0 := n0]> (nodes c)) c) name
  = if decide (name = name0) then pods n0 else pods_on c name.
Proof.
  unfold pods_on. cbn. destruct (decide (name = name0)) as [->|Hne].
  - by rewrite lookup_insert_eq.
  - by rewrite lookup_insert_ne.
Qed.

(** X14.  Node events do not touch the pods: whenever [AddNode],
    [UpdateNode] or [RemoveNode] of node [nd] returns, the error is nil,
    [podStates], [assumedPods] and the budgets are as they were, every
    node accounts the pods it accounted, a node record with pods is still
    there with the same pods and the same requested sums, and the records
    of the other nodes are as they were. *)
Theorem node_events_keep_pods (c c' : schedulerCache) (nd : Node) (e : option error) :
  AddNode c nd = Returned e c'
  \/ (exists oldNode, UpdateNode c oldNode nd = Returned e c')
  \/ RemoveNode c nd = Returned e c' ->
  e = None
  /\ podStates c' = podStates c /\ assumedPods c' = assumedPods c /\ pdbs c' = pdbs c
  /\ (forall name, pods_on c' name = pods_on c name)
  /\ (forall name n, nodes c !! name = Some n -> pods n <> [] ->
        exists n', nodes c' !! name = Some n'
          /\ pods n' = pods n
          /\ requestedResource n' = requestedResource n
          /\ nonzeroRequest n' = nonzeroRequest n)
  /\ (forall name, name <> node_Name nd -> nodes c' !! name = nodes c !! name).
Proof.
  assert (Hset : AddNode c nd = Returned e c' ->
    e = None
    /\ podStates c' = podStates c /\ assumedPods c' = assumedPods c /\ pdbs c' = pdbs c
    /\ (forall name, pods_on c' name = pods_on c name)
    /\ (forall name n, nodes c !! name = Some n -> pods n <> [] ->
          exists n', nodes c' !! name = Some n'
            /\ pods n' = pods n
            /\ requestedResource n' = requestedResource n
            /\ nonzeroRequest n' = nonzeroRequest n)
    /\ (forall name, name <> node_Name nd -> nodes c' !! name = nodes c !! name)).
  { unfold AddNode. cbn. intros [= <- <-].
    split; [done|]. split; [done|]. split; [done|]. split; [done|].
    split; [|split].
    - intros name. rewrite pods_on_insert.
      destruct (decide (name = node_Name nd)) as [->|Hne]; [|done].
      unfold pods_on. by destruct (nodes c !! node_Name nd).
    - intros name n Hn Hp. cbn. destruct (decide (name = node_Name nd)) as [->|Hne].
      + rewrite lookup_insert_eq, Hn. eauto.
      + rewrite lookup_insert_ne by done. eauto.
    - intros name Hne. cbn. by rewrite lookup_insert_ne. }
  intros [Hop|[[oldNode Hop]|Hop]]; [by apply Hset | by apply Hset |].
  clear Hset. revert Hop. unfold RemoveNode.
  destruct (nodes c !! node_Name nd) as [n0|] eqn:Hn0; [|discriminate].
  cbn. destruct (bool_decide (length (pods n0) = 0%nat)) eqn:Hlen; cbn.
  - intros [= <- <-]. apply bool_decide_eq_true, nil_length_inv in Hlen.
    split; [done|]. split; [done|]. split; [done|]. split; [done|].
    split; [|split].
    + intros name. unfold pods_on. cbn. destruct (decide (name = node_Name nd)) as [->|Hne].
      * by rewrite lookup_delete_eq, Hn0, Hlen.
      * by rewrite lookup_delete_ne.
    + intros name n Hn Hp. cbn. destruct (decide (name = node_Name nd)) as [->|Hne].
      * congruence.
      * rewrite lookup_delete_ne by done. eauto.
    + intros name Hne. cbn. by rewrite lookup_delete_ne.
  - intros [= <- <-].
    split; [done|]. split; [done|]. split; [done|]. split; [done|].
    split; [|split].
    + intros name. rewrite pods_on_insert.
      destruct (decide (name = node_Name nd)) as [->|Hne]; [|done].
      unfold pods_on. by rewrite Hn0.
    + intros name n Hn Hp. cbn. destruct (decide (name = node_Name nd)) as [->|Hne].
      * rewrite lookup_insert_eq. assert (n = n0) as -> by congruence. eauto.
      * rewrite lookup_insert_ne by done. eauto.
    + intros name Hne. cbn. by rewrite lookup_insert_ne.
Qed.

Lemma remove_by_key_length (h : gmap loc Pod) (k : string) (l l' : list loc) :
  remove_by_key h k l = Some l' -> length l = S (length l').
Proof.
  revert l'. induction l as [|p l IH]; intros l'; cbn [remove_by_key]; [done|].
  destruct (has_key h k p); [by intros [= <-]|].
  destruct (remove_by_key h k l) as [r|]; [|done]. cbn.
  intros [= <-]. cbn. f_equal. by apply IH.
Qed.

(** X15.  When a node record leaves the cache.  [RemoveNode] of a tracked
    node returns nil; it deletes the record when the node has no pods,
    and otherwise keeps it, without descriptor and with the same pods.
    [removePod], when it returns nil for a pod on a tracked node, deletes
    the record of the node exactly when the record had no descriptor and
    this one pod, and otherwise keeps it with the same descriptor and one
    pod less. *)
Theorem empty_records_are_dropped (h : gmap loc Pod) (c : schedulerCache) :
  (forall nd n, nodes c !! node_Name nd = Some n ->
     exists c', RemoveNode c nd = Returned None c'
       /\ (pods n = [] -> nodes c' = delete (node_Name nd) (nodes c))
       /\ (pods n <> [] ->
             exists n', nodes c' = <[node_Name nd := n']> (nodes c)
               /\ node n' = None /\ pods n' = pods n))
  /\ (forall p c' n, removePod h c p = Returned None c' ->
        nodes c !! NodeName (Spec (deref h p)) = Some n ->
        (nodes c' !! NodeName (Spec (deref h p)) = None
           <-> node n = None /\ length (pods n) = 1%nat)
        /\ (forall n', nodes c' !! NodeName (Spec (deref h p)) = Some n' ->
              node n' = node n /\ length (pods n) = S (length (pods n')))).
Proof.
  split.
  - intros nd n Hn. unfold RemoveNode. rewrite Hn. cbn.
    destruct (pods n) as [|q l] eqn:Hp; cbn.
    + eexists. split; [reflexivity|]. split; [done|]. done.
    + eexists. split; [reflexivity|]. split; [done|]. intros _.
      eexists. split; [reflexivity|]. done.
  - intros p c' n. unfold removePod. intros Hrm Hn. rewrite Hn in Hrm.
    unfold NodeInfo_RemovePod in Hrm.
    destruct (getPodKey (deref h p)) as [k [err|]]; [discriminate|].
    destruct (remove_by_key h k (pods n)) as [rest|] eqn:Hrest; [|discriminate].
    apply remove_by_key_length in Hrest.
    destruct (calculateNonzero (deref h p)) as [cpu0 mem0]. cbn [pods node] in Hrm.
    destruct (bool_decide (length rest = 0%nat)) eqn:Hlen;
      destruct (bool_decide (node n = None)) eqn:Hnode; cbn [andb] in Hrm;
      injection Hrm as <-; cbn [nodes with_nodes];
      rewrite ?lookup_delete_eq, ?lookup_insert_eq.
    all: try apply bool_decide_eq_true in Hlen; try apply bool_decide_eq_false in Hlen.
    all: try apply bool_decide_eq_true in Hnode; try apply bool_decide_eq_false in Hnode.
    + split; [|done]. split; [intros _; split; [done|lia] | done].
    + split; [split; [done | by intros [? _]] |]. intros n' [= <-]. cbn. done.
    + split; [split; [done | intros [_ ?]; lia] |]. intros n' [= <-]. cbn. done.
    + split; [split; [done | intros [_ ?]; lia] |]. intros n' [= <-]. cbn. done.
Qed.

Lemma overlay_merged (base upd : option (gmap string Z)) :
  (needs upd -> is_Some base) -> overlay base upd = Done (merged upd base).
Proof.
  unfold overlay, merged, needs. intros Hn. destruct upd as [u|]; [|done].
  case_bool_decide as Hu; [done|].
  destruct Hn as [b ->]; [eauto|]. done.
Qed.

Lemma overlay_crash (upd : option (gmap string Z)) :
  needs upd -> overlay None upd = Crashed NilMapAssignment.
Proof.
  unfold overlay, needs. intros (u & -> & Hu). by rewrite bool_decide_eq_false_2.
Qed.

Lemma assignable_dec (rmap : gmap string Container) (ct : Container) :
  assignable rmap ct
  \/ exists rc, rmap !! c_Name ct = Some rc /\ needs (Requests (c_Resources rc))
                /\ Requests (c_Resources ct) = None.
Proof.
  unfold assignable. destruct (rmap !! c_Name ct) as [rc|]; [|by left].
  destruct (needs_dec (Requests (c_Resources rc))) as [Hn|Hn].
  - destruct (Requests (c_Resources ct)) as [b|] eqn:Hb.
    + left. intros rc' [= <-] _. eauto.
    + right. eauto.
  - left. intros rc' [= <-] Hn'. done.
Qed.

Lemma resizeRequirements_step_ok (rmap : gmap string Container) (r : Resource)
    (ct : Container) :
  assignable rmap ct ->
  resizeRequirements_step rmap r ct =
    Done (Resource_Add r (Requests (c_Resources (resize_container rmap ct ct)))).
Proof.
  unfold assignable, resizeRequirements_step, resize_container. intros Ha.
  destruct (rmap !! c_Name ct) as [rc|]; [|done].
  rewrite overlay_merged by eauto. done.
Qed.

Lemma resizeRequirements_step_crash (rmap : gmap string Container) (r : Resource)
    (ct rc : Container) :
  rmap !! c_Name ct = Some rc -> needs (Requests (c_Resources rc)) ->
  Requests (c_Resources ct) = None ->
  resizeRequirements_step rmap r ct = Crashed NilMapAssignment.
Proof.
  unfold resizeRequirements_step. intros -> Hn ->. by rewrite overlay_crash.
Qed.

Lemma resizeRequirements_loop (rmap : gmap string Container) (cs : list Container) :
  forall r,
  (Forall (assignable rmap) cs ->
     forM (resizeRequirements_step rmap) cs r =
       Done (foldl (fun r c => Resource_Add r (Requests (c_Resources c))) r
               ((fun ct => resize_container rmap ct ct) <$> cs)))
  /\ (~ Forall (assignable rmap) cs ->
        forM (resizeRequirements_step rmap) cs r = Crashed NilMapAssignment).
Proof.
  induction cs as [|ct cs IH]; intros r.
  - split; [done|]. intros Hn. exfalso. by apply Hn.
  - cbn [forM]. destruct (assignable_dec rmap ct) as [Ha|(rc & Hrc & Hn & Hb)].
    + rewrite resizeRequirements_step_ok by done. cbn [mbind exec_bind].
      split.
      * intros Hall. apply Forall_cons in Hall as [_ Hall].
        by rewrite (proj1 (IH _)).
      * intros Hall. apply (proj2 (IH _)). intros Hcs. apply Hall. by constructor.
    + rewrite (resizeRequirements_step_crash rmap r ct rc) by done.
      split; [|done]. intros Hall. apply Forall_cons in Hall as [Ha _].
      destruct (Ha rc Hrc Hn) as [b Hb']. congruence.
Qed.

Lemma resizeContainersMap_of_lookup (req : list ContainerResources) (name : string) :
  resizeContainersMap_of (Some req) !! name =
    entry_container <$> last (filter (fun cr => cr_Name cr = name) req).
Proof.
  unfold resizeContainersMap_of. cbn [from_option id].
  induction req as [|cr req IH] using rev_ind; [done|].
  rewrite foldl_app. cbn [foldl]. rewrite filter_app, filter_cons, filter_nil.
  destruct (decide (cr_Name cr = name)) as [<-|Hne].
  - rewrite lookup_insert_eq, last_snoc. done.
  - rewrite lookup_insert_ne by done. rewrite app_nil_r. exact IH.
Qed.

(** X16.  [getPodResizeRequirements] on a pod with a resize record.  The
    resize map holds, for a container name, the last entry of the request
    with this name.  When every container that the request names with a
    non-empty list of requests has a map of requests, the function
    returns the resize map and the request vector that the pod has once
    its containers are resized; when some such container has a nil map,
    it panics on the assignment to it.  For a nil or empty request it
    returns the empty map and the request vector of the pod. *)
Theorem getPodResizeRequirements_spec (p : Pod) (rr : PodResizeResources) :
  ResizeResources (Spec p) = Some rr ->
  let rmap := resizeContainersMap_of (Request rr) in
  (forall name, rmap !! name =
     entry_container <$> last (filter (fun cr => cr_Name cr = name) (default [] (Request rr))))
  /\ (Forall (assignable rmap) (Containers (Spec p)) ->
        getPodResizeRequirements p =
          Done (rmap,
                calculateResource
                  (with_Containers (fmap (fun ct => resize_container rmap ct ct)) p)))
  /\ (~ Forall (assignable rmap) (Containers (Spec p)) ->
        getPodResizeRequirements p = Crashed NilMapAssignment)
  /\ (Request rr = None \/ Request rr = Some [] ->
        getPodResizeRequirements p = Done (∅, calculateResource p)).
Proof.
  intros Hrr rmap. unfold getPodResizeRequirements. rewrite Hrr. fold rmap.
  split; [|split; [|split]].
  - intros name. unfold rmap. destruct (Request rr) as [req|].
    + apply resizeContainersMap_of_lookup.
    + done.
  - intros Hall. rewrite (proj1 (resizeRequirements_loop rmap _ _) Hall). done.
  - intros Hall. by rewrite (proj2 (resizeRequirements_loop rmap _ _) Hall).
  - intros Hreq. assert (rmap = ∅) as ->.
    { unfold rmap. by destruct Hreq as [->| ->]. }
    rewrite (proj1 (resizeRequirements_loop ∅ _ _)).
    + cbn. unfold calculateResource. do 3 f_equal.
      induction (Containers (Spec p)) as [|ct cs IH]; [done|].
      cbn. by rewrite IH.
    + apply Forall_forall. intros ct _ rc Hrc. by rewrite lookup_empty in Hrc.
Qed.

Section Restore.

Variable get : ResourceRequirements -> option (gmap string Z).
Variable set : option (gmap string Z) -> Container -> Container.
Hypothesis set_set : forall v w c, set v (set w c) = set v c.
Hypothesis set_get : forall c, set (get (c_Resources c)) c = c.

Lemma restoreList_spec (saved : option (gmap string Z)) (newPod cachedPod : loc)
    (i : nat) (h : gmap loc Pod) :
  (i < length (Containers (Spec (deref h newPod))))%nat ->
  (i < length (Containers (Spec (deref h cachedPod))))%nat ->
  exists h', restoreList set saved newPod cachedPod i h = Done h'
    /\ (forall l, same_but_containers (deref h' l) (deref h l))
    /\ (forall l j,
          Containers (Spec (deref h' l)) !! j =
            if bool_decide ((l = newPod \/ l = cachedPod) /\ j = i)
            then (fun c => set (adopt saved (get (c_Resources c))) c)
                   <$> Containers (Spec (deref h l)) !! j
            else Containers (Spec (deref h l)) !! j).
Proof.
  intros Hi Hic. destruct saved as [v|]; cbn [restoreList adopt].
  2: { exists h. split; [done|]. split; [intros l; apply sbc_refl|]. intros l j.
       case_bool_decide; [|done].
       destruct (Containers (Spec (deref h l)) !! j) as [c|]; [|done]. cbn.
       by rewrite set_get. }
  destruct (lookup_lt_is_Some_2 _ _ Hi) as [c Hc].
  destruct (lookup_lt_is_Some_2 _ _ Hic) as [cc Hcc].
  unfold assignList at 2. rewrite Hc. cbn [mbind exec_bind].
  destruct (decide (cachedPod = newPod)) as [->|Hne].
  - unfold assignList. rewrite deref_insert_eq.
    cbn [Spec with_Containers with_Spec Containers].
    rewrite list_lookup_insert_eq by done.
    eexists. split; [reflexivity|]. split.
    + intros l. destruct (decide (newPod = l)) as [<-|Hl].
      * rewrite deref_insert_eq. reflexivity.
      * by rewrite !deref_insert_ne.
    + intros l j. destruct (decide (newPod = l)) as [<-|Hl].
      * rewrite deref_insert_eq. cbn [Spec with_Containers with_Spec Containers].
        rewrite set_set, list_insert_insert_eq.
        destruct (decide (j = i)) as [->|Hj].
        -- rewrite bool_decide_eq_true_2 by auto.
           by rewrite list_lookup_insert_eq, Hc by done.
        -- rewrite bool_decide_eq_false_2 by (intros [_ ?]; done).
           by rewrite list_lookup_insert_ne.
      * rewrite !deref_insert_ne by done.
        rewrite bool_decide_eq_false_2; [done|]. intros [[?|?] _]; congruence.
  - unfold assignList. rewrite deref_insert_ne by done. rewrite Hcc.
    eexists. split; [reflexivity|]. split.
    + intros l. destruct (decide (cachedPod = l)) as [<-|Hl].
      * rewrite deref_insert_eq. reflexivity.
      * rewrite deref_insert_ne by done.
        destruct (decide (newPod = l)) as [<-|Hl'].
        -- rewrite deref_insert_eq. reflexivity.
        -- by rewrite deref_insert_ne.
    + intros l j. destruct (decide (cachedPod = l)) as [<-|Hl].
      * rewrite deref_insert_eq. cbn [Spec with_Containers with_Spec Containers].
        destruct (decide (j = i)) as [->|Hj].
        -- rewrite bool_decide_eq_true_2 by auto.
           by rewrite list_lookup_insert_eq, Hcc by done.
        -- rewrite bool_decide_eq_false_2 by (intros [_ ?]; done).
           by rewrite list_lookup_insert_ne.
      * rewrite deref_insert_ne by done.
        destruct (decide (newPod = l)) as [<-|Hl'].
        -- rewrite deref_insert_eq. cbn [Spec with_Containers with_Spec Containers].
           destruct (decide (j = i)) as [->|Hj].
           ++ rewrite bool_decide_eq_true_2 by auto.
              by rewrite list_lookup_insert_eq, Hc by done.
           ++ rewrite bool_decide_eq_false_2 by (intros [_ ?]; done).
              by rewrite list_lookup_insert_ne.
        -- rewrite deref_insert_ne by done.
           rewrite bool_decide_eq_false_2; [done|]. intros [[?|?] _]; congruence.
Qed.

End Restore.

Lemma rollback_records_filter (rmap : gmap string Container) (cs : list Container) :
  default [] (rollback_records rmap cs)
  = record_of <$> filter (fun ct => is_Some (rmap !! c_Name ct)) cs.
Proof.
  induction cs as [|ct cs IH] using rev_ind; [done|].
  rewrite rollback_records_snoc, filter_app, filter_cons, filter_nil, fmap_app.
  destruct (rmap !! c_Name ct) as [rc|] eqn:Hrc.
  - rewrite decide_True by eauto. cbn. by rewrite IH.
  - rewrite decide_False by (by intros [? ?]). cbn. by rewrite app_nil_r.
Qed.

Lemma find_record_none (P : Container -> Prop) `{!forall c, Decision (P c)}
    (name : string) (cs : list Container) :
  name ∉ c_Name <$> cs ->
  List.find (fun rb => bool_decide (cr_Name rb = name)) (record_of <$> filter P cs) = None.
Proof.
  induction cs as [|c cs IH]; [done|].
  rewrite fmap_cons, not_elem_of_cons. intros [Hne Hn].
  rewrite filter_cons. destruct (decide (P c)); [|by apply IH].
  cbn. rewrite bool_decide_eq_false_2 by done. by apply IH.
Qed.

Lemma find_record (rmap : gmap string Container) (cs : list Container) (i : nat)
    (ct : Container) :
  NoDup (c_Name <$> cs) -> cs !! i = Some ct ->
  List.find (fun rb => bool_decide (cr_Name rb = c_Name ct))
            (record_of <$> filter (fun ct => is_Some (rmap !! c_Name ct)) cs)
  = match rmap !! c_Name ct with
    | Some _ => Some (record_of ct)
    | None => None
    end.
Proof.
  revert i. induction cs as [|c cs IH]; intros i Hnd Hi; [done|].
  rewrite fmap_cons in Hnd. apply NoDup_cons in Hnd as [Hc Hnd].
  rewrite filter_cons. destruct i as [|i]; cbn in Hi.
  - injection Hi as ->. destruct (rmap !! c_Name ct) as [rc|] eqn:Hrc.
    + rewrite decide_True by eauto. cbn. by rewrite bool_decide_eq_true_2.
    + rewrite decide_False by (by intros [? ?]). by apply find_record_none.
  - assert (Hne : c_Name c <> c_Name ct).
    { intros Heq. apply Hc. rewrite Heq. apply list_elem_of_fmap.
      exists ct. split; [done|]. by eapply list_elem_of_lookup_2. }
    destruct (decide (is_Some (rmap !! c_Name c))).
    + cbn. rewrite bool_decide_eq_false_2 by done. by eapply IH.
    + by eapply IH.
Qed.

Lemma restored_twice (ct c : Container) :
  with_Limits (adopt (Limits (c_Resources ct))
                 (Limits (c_Resources
                    (with_Requests (adopt (Requests (c_Resources ct))
                                      (Requests (c_Resources c))) c))))
    (with_Requests (adopt (Requests (c_Resources ct)) (Requests (c_Resources c))) c)
  = restored ct c.
Proof. reflexivity. Qed.

Lemma rollback_step_spec (rmap : gmap string Container) (cs0 : list Container)
    (newPod cachedPod : loc) (i : nat) (h : gmap loc Pod) (rr : PodResizeResources)
    (cur ct : Container) :
  Containers (Spec (deref h newPod)) !! i = Some cur ->
  c_Name cur = c_Name ct -> cs0 !! i = Some ct ->
  NoDup (c_Name <$> cs0) ->
  ResizeResources (Spec (deref h newPod)) = Some rr ->
  Rollback rr = rollback_records rmap cs0 ->
  (i < length (Containers (Spec (deref h cachedPod))))%nat ->
  exists h', rollback_step newPod cachedPod h i = Done h'
    /\ (forall l, same_but_containers (deref h' l) (deref h l))
    /\ (forall l j,
          Containers (Spec (deref h' l)) !! j =
            if bool_decide ((l = newPod \/ l = cachedPod) /\ j = i)
            then restore_container rmap ct <$> Containers (Spec (deref h l)) !! j
            else Containers (Spec (deref h l)) !! j).
Proof.
  intros Hcur Hname Hct Hnd Hrr Hrb Hic.
  unfold rollback_step, restore_container. rewrite Hcur, Hrr, Hrb, Hname.
  rewrite rollback_records_filter, (find_record rmap cs0 i ct Hnd Hct).
  destruct (rmap !! c_Name ct) as [rc|] eqn:Hrc.
  2: { exists h. split; [done|]. split; [intros l; apply sbc_refl|].
       intros l j. case_bool_decide; [|done].
       by destruct (Containers (Spec (deref h l)) !! j). }
  assert (Hi : (i < length (Containers (Spec (deref h newPod))))%nat)
    by (by eapply lookup_lt_Some).
  cbn [record_of cr_Resources Requests Limits].
  destruct (restoreList_spec Requests with_Requests
              (fun v w c => eq_refl) with_Requests_get
              (Requests (c_Resources ct)) newPod cachedPod i h Hi Hic)
    as (h1 & Hr1 & Hf1 & Hl1).
  rewrite Hr1. cbn [mbind exec_bind].
  destruct (restoreList_spec Limits with_Limits
              (fun v w c => eq_refl) with_Limits_get
              (Limits (c_Resources ct)) newPod cachedPod i h1)
    as (h2 & Hr2 & Hf2 & Hl2).
  { eapply lookup_lt_is_Some_1. rewrite Hl1, bool_decide_eq_true_2 by auto.
    rewrite Hcur. eauto. }
  { eapply lookup_lt_is_Some_1. rewrite Hl1, bool_decide_eq_true_2 by auto.
    destruct (lookup_lt_is_Some_2 _ _ Hic) as [cc ->]. eauto. }
  rewrite Hr2. exists h2. split; [done|]. split.
  - intros l. eapply sbc_trans; [apply Hf2 | apply Hf1].
  - intros l j. rewrite Hl2, Hl1. case_bool_decide; [|done].
    by destruct (Containers (Spec (deref h l)) !! j).
Qed.

Lemma rollback_loop (rmap : gmap string Container) (cs0 : list Container)
    (newPod cachedPod : loc) (h0 : gmap loc Pod) (rr : PodResizeResources) :
  NoDup (c_Name <$> cs0) ->
  ResizeResources (Spec (deref h0 newPod)) = Some rr ->
  Rollback rr = rollback_records rmap cs0 ->
  c_Name <$> Containers (Spec (deref h0 newPod)) = c_Name <$> cs0 ->
  (length cs0 <= length (Containers (Spec (deref h0 cachedPod))))%nat ->
  forall k i h, (i + k = length cs0)%nat ->
    (forall l, same_but_containers (deref h l) (deref h0 l)) ->
    (forall l j,
       Containers (Spec (deref h l)) !! j =
         if bool_decide ((l = newPod \/ l = cachedPod) /\ (j < i)%nat)
         then (fun c => match cs0 !! j with
                        | Some ct => restore_container rmap ct c
                        | None => c
                        end) <$> Containers (Spec (deref h0 l)) !! j
         else Containers (Spec (deref h0 l)) !! j) ->
    exists h', forM (rollback_step newPod cachedPod) (seq i k) h = Done h'
      /\ (forall l, same_but_containers (deref h' l) (deref h0 l))
      /\ (forall l j,
            Containers (Spec (deref h' l)) !! j =
              if bool_decide ((l = newPod \/ l = cachedPod) /\ (j < i + k)%nat)
              then (fun c => match cs0 !! j with
                             | Some ct => restore_container rmap ct c
                             | None => c
                             end) <$> Containers (Spec (deref h0 l)) !! j
              else Containers (Spec (deref h0 l)) !! j).
Proof.
  intros Hnd Hrr Hrb Hnames Hlen.
  induction k as [|k IH]; intros i h Hik Hf Hl.
  - exists h. split; [done|]. split; [done|]. intros l j. rewrite Hl.
    by rewrite Nat.add_0_r.
  - assert (Hi : (i < length cs0)%nat) by lia.
    destruct (lookup_lt_is_Some_2 cs0 i Hi) as [ct Hct].
    assert (Hcur0 : exists cur, Containers (Spec (deref h0 newPod)) !! i = Some cur
                                /\ c_Name cur = c_Name ct).
    { assert (Hn : (c_Name <$> Containers (Spec (deref h0 newPod))) !! i
                   = Some (c_Name ct)).
      { rewrite Hnames, list_lookup_fmap, Hct. done. }
      rewrite list_lookup_fmap in Hn.
      destruct (Containers (Spec (deref h0 newPod)) !! i) as [cur|]; [|done].
      injection Hn as Hn. eauto. }
    destruct Hcur0 as (cur & Hcur0 & Hname).
    assert (Hcur : Containers (Spec (deref h newPod)) !! i = Some cur).
    { rewrite Hl, bool_decide_eq_false_2 by (intros [_ ?]; lia). done. }
    assert (Hrr' : ResizeResources (Spec (deref h newPod)) = Some rr).
    { destruct (sbc_resize _ _ (Hf newPod)) as (-> & _). done. }
    assert (Hic : (i < length (Containers (Spec (deref h cachedPod))))%nat).
    { eapply lookup_lt_is_Some_1. rewrite Hl, bool_decide_eq_false_2 by (intros [_ ?]; lia).
      apply lookup_lt_is_Some_2. lia. }
    destruct (rollback_step_spec rmap cs0 newPod cachedPod i h rr cur ct
                Hcur Hname Hct Hnd Hrr' Hrb Hic) as (h1 & Hstep & Hf1 & Hl1).
    cbn [seq forM]. rewrite Hstep. cbn [mbind exec_bind].
    destruct (IH (S i) h1) as (h' & Hloop & Hf' & Hl'); [lia | |  |].
    + intros l. eapply sbc_trans; [apply Hf1 | apply Hf].
    + intros l j. rewrite Hl1, Hl.
      destruct (decide ((l = newPod \/ l = cachedPod))) as [Hin|Hout].
      * destruct (decide (j = i)) as [->|Hj].
        -- rewrite bool_decide_eq_true_2 by auto.
           rewrite bool_decide_eq_false_2 by (intros [_ ?]; lia).
           rewrite bool_decide_eq_true_2 by (split; [done|lia]).
           rewrite Hct. done.
        -- rewrite bool_decide_eq_false_2 by (intros [_ ?]; done).
           destruct (decide (j < i)%nat).
           ++ by rewrite !bool_decide_eq_true_2 by (split; [done|lia]).
           ++ by rewrite !bool_decide_eq_false_2 by (intros [_ ?]; lia).
      * by rewrite !bool_decide_eq_false_2 by (intros [? _]; done).
    + exists h'. split; [done|]. split; [done|]. intros l j. rewrite Hl'.
      by replace (S i + k)%nat with (i + S k)%nat by lia.
Qed.

Lemma rollback_spec (h0 : gmap loc Pod) (c : schedulerCache) (oldPod newPod : loc)
    (rmap : gmap string Container) (cs0 : list Container) (cs : podState)
    (rr : PodResizeResources) :
  podStates c !! fst (getPodKey (deref h0 oldPod)) = Some cs ->
  ResizeResources (Spec (deref h0 newPod)) = Some rr ->
  Rollback rr = rollback_records rmap cs0 ->
  NoDup (c_Name <$> cs0) ->
  c_Name <$> Containers (Spec (deref h0 newPod)) = c_Name <$> cs0 ->
  (length cs0 <= length (Containers (Spec (deref h0 (pod cs)))))%nat ->
  exists h', rollbackPodResources h0 c oldPod newPod = Done h'
    /\ (forall l, same_but_containers (deref h' l) (deref h0 l))
    /\ (forall l j,
          Containers (Spec (deref h' l)) !! j =
            if bool_decide (l = newPod \/ l = pod cs)
            then (fun c => match cs0 !! j with
                           | Some ct => restore_container rmap ct c
                           | None => c
                           end) <$> Containers (Spec (deref h0 l)) !! j
            else Containers (Spec (deref h0 l)) !! j).
Proof.
  intros Hcs Hrr Hrb Hnd Hnames Hlen. unfold rollbackPodResources. rewrite Hcs.
  assert (Hl0 : length (Containers (Spec (deref h0 newPod))) = length cs0).
  { by rewrite <- (length_fmap c_Name), Hnames, length_fmap. }
  rewrite Hl0.
  destruct (rollback_loop rmap cs0 newPod (pod cs) h0 rr Hnd Hrr Hrb Hnames Hlen
              (length cs0) 0%nat h0) as (h' & Hloop & Hf & Hl).
  { lia. }
  { intros l. apply sbc_refl. }
  { intros l j. by rewrite bool_decide_eq_false_2 by (intros [_ ?]; lia). }
  exists h'. split; [done|]. split; [done|]. intros l j. rewrite Hl. cbn [Nat.add].
  destruct (decide (l = newPod \/ l = pod cs)) as [Hin|Hout].
  - rewrite (bool_decide_eq_true_2 (l = newPod \/ l = pod cs)) by done.
    destruct (decide (j < length cs0)%nat).
    + by rewrite bool_decide_eq_true_2.
    + rewrite bool_decide_eq_false_2 by (intros [_ ?]; lia).
      rewrite (lookup_ge_None_2 cs0 j) by lia.
      by destruct (Containers (Spec (deref h0 l)) !! j).
  - rewrite (bool_decide_eq_false_2 (l = newPod \/ l = pod cs)) by done.
    by rewrite bool_decide_eq_false_2 by (intros [? _]; done).
Qed.

Lemma sbc_identity (p q : Pod) : same_but_containers p q -> same_identity p q.
Proof.
  unfold same_but_containers, same_identity, with_Containers, with_Spec.
  intros H. injection H. intros. by f_equal.
Qed.

Lemma resize_container_name (rmap : gmap string Container) (ct c : Container) :
  c_Name (resize_container rmap ct c) = c_Name c.
Proof. unfold resize_container. by destruct (rmap !! c_Name ct). Qed.

Lemma restore_resize_same (rmap : gmap string Container) (ct : Container) :
  restore_container rmap ct (resize_container rmap ct ct) = ct.
Proof.
  unfold restore_container, resize_container.
  destruct (rmap !! c_Name ct) as [rc|]; [|done].
  destruct ct as [n [l r]], rc as [n' [l' r']].
  unfold restored, resized, adopt, merged, with_Limits, with_Requests. cbn.
  destruct l, r, l', r'; cbn; repeat case_bool_decide; reflexivity.
Qed.

Lemma restore_resize_cached (rmap : gmap string Container) (ct cc : Container) :
  (forall rc, rmap !! c_Name ct = Some rc ->
     (needs (Requests (c_Resources rc)) -> is_Some (Requests (c_Resources ct)))
     /\ (needs (Limits (c_Resources rc)) -> is_Some (Limits (c_Resources ct)))) ->
  restore_container rmap ct (resize_container rmap ct cc) = restore_container rmap ct cc.
Proof.
  unfold restore_container, resize_container. intros Hw.
  destruct (rmap !! c_Name ct) as [rc|]; [|done].
  destruct (Hw rc eq_refl) as [Hr Hl].
  assert (HL : adopt (Limits (c_Resources ct))
                 (merged (Limits (c_Resources rc)) (Limits (c_Resources cc)))
               = adopt (Limits (c_Resources ct)) (Limits (c_Resources cc))).
  { unfold adopt. destruct (Limits (c_Resources ct)) eqn:E; [done|].
    apply merged_not_needed. intros Hn. by destruct (Hl Hn). }
  assert (HR : adopt (Requests (c_Resources ct))
                 (merged (Requests (c_Resources rc)) (Requests (c_Resources cc)))
               = adopt (Requests (c_Resources ct)) (Requests (c_Resources cc))).
  { unfold adopt. destruct (Requests (c_Resources ct)) eqn:E; [done|].
    apply merged_not_needed. intros Hn. by destruct (Hr Hn). }
  unfold restored, resized, with_Limits, with_Requests. cbn -[merged adopt].
  by rewrite HL, HR.
Qed.

Lemma setupInPlace_frame (h h3 : gmap loc Pod) (c : schedulerCache)
    (oldPod newPod : loc) (rmap : gmap string Container) :
  setupInPlaceResizeAction h c oldPod newPod rmap = Done h3 ->
  forall l, same_identity (deref h3 l) (deref h l).
Proof.
  unfold setupInPlaceResizeAction.
  destruct (podStates c !! _) as [cs|]; [|discriminate].
  destruct (forM _ _ _) as [[h1 rb]|] eqn:Hloop; [|discriminate].
  cbn [mbind exec_bind].
  pose proof (setup_loop_frame _ _ _ _ _ _ Hloop) as Hf. cbn [fst] in Hf.
  unfold update_resize. destruct (ResizeResources _); [|discriminate].
  intros [= <-] l. destruct (decide (newPod = l)) as [<-|Hne].
  - rewrite deref_insert_eq. etransitivity; [|apply sbc_identity, Hf]. reflexivity.
  - rewrite deref_insert_ne by done. by apply sbc_identity.
Qed.

(** X17.  A rollback undoes a commit.  For a pod whose containers have
    distinct names, a cached pod with at least as many containers, and
    resource maps to assign into ([writable]):
    [setupInPlaceResizeAction] returns, [rollbackPodResources] on the
    pods it leaves returns too, and then the containers of the incoming
    pod are what they were before the commit; each container of the
    cached pod at the index of a named container has the requests and
    the limits that the incoming container had, where it had some, so
    that a cached pod with the containers of the incoming pod has its
    containers back as well; and the resize record is the one the commit
    stamped. *)
Theorem rollback_undoes_commit (h : gmap loc Pod) (c : schedulerCache)
    (oldPod newPod : loc) (rmap : gmap string Container) (cs : podState)
    (rr : PodResizeResources) :
  podStates c !! fst (getPodKey (deref h oldPod)) = Some cs ->
  resize_of h newPod = Some rr ->
  writable rmap (Containers (Spec (deref h newPod)))
                (Containers (Spec (deref h (pod cs)))) ->
  NoDup (c_Name <$> Containers (Spec (deref h newPod))) ->
  (length (Containers (Spec (deref h newPod)))
     <= length (Containers (Spec (deref h (pod cs)))))%nat ->
  exists h3 h4,
    setupInPlaceResizeAction h c oldPod newPod rmap = Done h3
    /\ rollbackPodResources h3 c oldPod newPod = Done h4
    /\ Containers (Spec (deref h4 newPod)) = Containers (Spec (deref h newPod))
    /\ (forall j cc, Containers (Spec (deref h (pod cs))) !! j = Some cc ->
          Containers (Spec (deref h4 (pod cs))) !! j =
            Some (match Containers (Spec (deref h newPod)) !! j with
                  | Some ct => restore_container rmap ct cc
                  | None => cc
                  end))
    /\ (Containers (Spec (deref h (pod cs))) = Containers (Spec (deref h newPod)) ->
          Containers (Spec (deref h4 (pod cs))) = Containers (Spec (deref h (pod cs))))
    /\ resize_of h4 newPod = resize_of h3 newPod.
Proof.
  intros Hcs Hrr Hw Hnd Hlen.
  set (newC := Containers (Spec (deref h newPod))) in *.
  set (cachedC := Containers (Spec (deref h (pod cs)))) in *.
  destruct (setupInPlace_spec h c oldPod newPod rmap cs rr Hcs Hrr Hw)
    as (h3 & Hs & Hr3 & HN & HC).
  fold newC in HN, HC, Hr3. fold cachedC in HC.
  destruct (rollback_spec h3 c oldPod newPod rmap newC cs
              {| Request := Request rr;
                 ActionVersion := ResourceVersion (deref h newPod);
                 Action := ResizeActionUpdate;
                 Rollback := rollback_records rmap newC |})
    as (h4 & Hrb & Hf & Hl).
  { rewrite (getPodKey_identity (deref h3 oldPod) (deref h oldPod)); [done|].
    by eapply setupInPlace_frame. }
  { exact Hr3. }
  { reflexivity. }
  { exact Hnd. }
  { apply list_eq. intros j. rewrite !list_lookup_fmap, HN.
    destruct (newC !! j); [|done]. cbn. by rewrite resize_container_name. }
  { rewrite <- (length_imap
                    (fun j cc => match newC !! j with
                                 | Some ct => resize_container rmap ct cc
                                 | None => cc
                                 end) cachedC) in Hlen.
    etransitivity; [exact Hlen|]. apply Nat.eq_le_incl. f_equal.
    apply list_eq. intros j. by rewrite HC, list_lookup_imap. }
  assert (Hcached : forall j cc, cachedC !! j = Some cc ->
    Containers (Spec (deref h4 (pod cs))) !! j =
      Some (match newC !! j with
            | Some ct => restore_container rmap ct cc
            | None => cc
            end)).
  { intros j cc Hcc. rewrite Hl, bool_decide_eq_true_2 by auto.
    rewrite HC, Hcc. cbn. destruct (newC !! j) as [ct|] eqn:Hct; [|done].
    f_equal. apply restore_resize_cached. intros rc Hrc.
    destruct (Hw j ct rc Hct Hrc) as [Hq Hm].
    split; intros Hn; [by destruct (Hq Hn) | by destruct (Hm Hn)]. }
  exists h3, h4. split; [done|]. split; [done|]. split; [|split; [|split]].
  - apply list_eq. intros j. rewrite Hl, bool_decide_eq_true_2 by auto.
    rewrite HN. destruct (newC !! j) as [ct|] eqn:Hct; [|done]. cbn.
    by rewrite restore_resize_same.
  - exact Hcached.
  - intros Heq. apply list_eq. intros j.
    destruct (cachedC !! j) as [cc|] eqn:Hcc.
    + rewrite (Hcached j cc Hcc). rewrite <- Heq, Hcc.
      unfold restore_container. destruct (rmap !! c_Name cc); [|done].
      f_equal. destruct cc as [n [l r]]. unfold restored, adopt. cbn.
      by destruct l, r.
    + rewrite Hl, bool_decide_eq_true_2 by auto. rewrite HC, Hcc. done.
  - unfold resize_of. by destruct (sbc_resize _ _ (Hf newPod)) as (-> & _).
Qed.

(** X18.  [processPodResizeStatus] on a pod with a resize record [rr]
    looks at the first condition of type [PodResourcesResizeStatus] only:
    - without such a condition, or when its message is not the action
      version of [rr], it writes nothing;
    - when the message is the action version and the status is not
      [False], or no rollback is recorded, it stamps the action
      [UpdateDone] with the resource version of the pod and clears the
      rollback records, and writes nothing else;
    - when the status is [False] and the rollback records are those that
      a commit saved for the containers [cs0] (distinct names, the names
      of the containers of the pod), it returns with the same stamp, and
      each container of the incoming and of the cached pod at the index
      of a named container has the requests and limits of [cs0], where
      there are some; no other container is written. *)
Theorem resize_status_acknowledged (h : gmap loc Pod) (c : schedulerCache)
    (oldPod newPod : loc) (rr : PodResizeResources) :
  resize_of h newPod = Some rr ->
  (resize_status (deref h newPod) = None ->
     processPodResizeStatus h c oldPod newPod = Done h)
  /\ (forall pc, resize_status (deref h newPod) = Some pc ->
        cond_Message pc <> ActionVersion rr ->
        processPodResizeStatus h c oldPod newPod = Done h)
  /\ (forall pc, resize_status (deref h newPod) = Some pc ->
        cond_Message pc = ActionVersion rr ->
        cond_Status pc <> ConditionFalse \/ Rollback rr = None ->
        processPodResizeStatus h c oldPod newPod =
          Done (<[newPod := with_ResizeResources (acknowledged (deref h newPod) rr)
                               (deref h newPod)]> h))
  /\ (forall pc rmap cs0 cs, resize_status (deref h newPod) = Some pc ->
        cond_Message pc = ActionVersion rr ->
        cond_Status pc = ConditionFalse ->
        Rollback rr <> None ->
        Rollback rr = rollback_records rmap cs0 ->
        NoDup (c_Name <$> cs0) ->
        c_Name <$> Containers (Spec (deref h newPod)) = c_Name <$> cs0 ->
        podStates c !! fst (getPodKey (deref h oldPod)) = Some cs ->
        (length cs0 <= length (Containers (Spec (deref h (pod cs)))))%nat ->
        exists h', processPodResizeStatus h c oldPod newPod = Done h'
          /\ resize_of h' newPod = Some (acknowledged (deref h newPod) rr)
          /\ (forall l j,
                Containers (Spec (deref h' l)) !! j =
                  if bool_decide (l = newPod \/ l = pod cs)
                  then (fun c => match cs0 !! j with
                                 | Some ct => restore_container rmap ct c
                                 | None => c
                                 end) <$> Containers (Spec (deref h l)) !! j
                  else Containers (Spec (deref h l)) !! j)).
Proof.
  intros Hrr. pose proof Hrr as Hrr'. unfold resize_of in Hrr'.
  unfold processPodResizeStatus. fold (resize_status (deref h newPod)).
  split; [|split; [|split]].
  - by intros ->.
  - intros pc -> Hne. rewrite Hrr'. by rewrite bool_decide_eq_false_2.
  - intros pc -> Heq Hcase. rewrite Hrr', bool_decide_eq_true_2 by done.
    assert (Hb : bool_decide (cond_Status pc = ConditionFalse)
                 && bool_decide (Rollback rr ≠ None) = false).
    { destruct Hcase as [Hs|Hr].
      - by rewrite (bool_decide_eq_false_2 _ Hs).
      - rewrite (bool_decide_eq_false_2 (Rollback rr ≠ None)) by (intros Hn; by apply Hn).
        by rewrite andb_false_r. }
    rewrite Hb. cbn [mbind exec_bind].
    by rewrite (update_resize_done h newPod rr).
  - intros pc rmap cs0 cs -> Heq Hst Hrb Hrec Hnd Hnames Hcs Hlen.
    rewrite Hrr', bool_decide_eq_true_2 by done.
    rewrite (bool_decide_eq_true_2 _ Hst), (bool_decide_eq_true_2 _ Hrb). cbn [andb].
    destruct (rollback_spec h c oldPod newPod rmap cs0 cs rr Hcs Hrr' Hrec Hnd Hnames Hlen)
      as (h1 & Hroll & Hf & Hl).
    rewrite Hroll. cbn [mbind exec_bind].
    destruct (sbc_resize _ _ (Hf newPod)) as (Hr1 & Hv1 & _).
    rewrite Hrr' in Hr1.
    rewrite (update_resize_done h1 newPod rr) by done.
    eexists. split; [reflexivity|]. split.
    + rewrite resize_of_update. unfold stamp, acknowledged. by rewrite Hv1.
    + intros l j. rewrite <- Hl. destruct (decide (newPod = l)) as [<-|Hne].
      * by rewrite deref_insert_eq.
      * by rewrite deref_insert_ne.
Qed.

(** *** The reaper on a broken cache *)

Lemma cleanup_step_states (h : gmap loc Pod) (now : Z) (c c1 : schedulerCache)
    (k0 : string) :
  cleanup_step h now c k0 = Done c1 ->
  forall k, k <> k0 -> podStates c1 !! k = podStates c !! k.
Proof.
  unfold cleanup_step. destruct (podStates c !! k0) as [ps|]; [|discriminate].
  destruct (negb (bindingFinished ps)); [by intros [= <-]|].
  destruct (deadline ps) as [dl|]; [|discriminate].
  destruct (now >? dl)%Z; [|by intros [= <-]].
  unfold expirePod.
  destruct (removePod h c (pod ps)) as [[e c0]|] eqn:Hrm; [|discriminate].
  destruct (removePod_frame h c c0 (pod ps) e Hrm) as (Hps & _).
  cbn. destruct e as [e|]; cbn; intros [= <-] k Hne; [by rewrite Hps|].
  cbn. rewrite Hps. by apply lookup_delete_ne.
Qed.

(** X19.  The reaper panics on a cache that breaks invariant 1 or 4: when
    one of the keys it visits has no state, or has a finished binding and
    no deadline, [cleanupAssumedPods] does not return, in whatever order
    and at whatever time it runs. *)
Theorem cleanupAssumedPods_crashes (h : gmap loc Pod) (c : schedulerCache) (now : Z)
    (keys : list string) (k : string) :
  k ∈ keys -> unreapable c k ->
  exists why, cleanupAssumedPods h c now keys = Crashed why.
Proof.
  unfold cleanupAssumedPods. revert c.
  induction keys as [|k0 keys IH]; intros c Hin Hbad; [by apply elem_of_nil in Hin|].
  cbn [forM]. destruct (decide (k0 = k)) as [->|Hne].
  - unfold cleanup_step. destruct Hbad as [->|(ps & -> & -> & ->)]; cbn; eauto.
  - apply elem_of_cons in Hin as [->|Hin]; [done|].
    destruct (cleanup_step h now c k0) as [c1|w] eqn:Hstep; [|cbn; eauto].
    cbn. apply IH; [done|].
    pose proof (cleanup_step_states h now c c1 k0 Hstep k) as Hsame.
    unfold unreapable. rewrite Hsame by done. exact Hbad.
Qed.

Lemma expired_mono (now now' : Z) (ps : podState) :
  (now' <= now)%Z -> expired now ps = false -> expired now' ps = false.
Proof.
  unfold expired. intros Hle. destruct (bindingFinished ps); [|done]. cbn.
  destruct (deadline ps) as [dl|]; [|done].
  rewrite !Z.gtb_ltb, !Z.ltb_ge. lia.
Qed.

Lemma cleanup_all_kept (h : gmap loc Pod) (now : Z) (c : schedulerCache)
    (keys : list string) :
  (forall k, k ∈ keys -> exists ps, podStates c !! k = Some ps
     /\ (bindingFinished ps = true -> is_Some (deadline ps))
     /\ expired now ps = false) ->
  forM (cleanup_step h now) keys c = Done c.
Proof.
  induction keys as [|k keys IH]; intros Hall; [done|].
  cbn [forM]. destruct (Hall k) as (ps & Hps & Hdl & Hex); [by left|].
  rewrite (cleanup_step_kept h now c k ps Hps Hdl Hex). cbn.
  apply IH. intros k' Hk'. apply Hall. by right.
Qed.

(** X20.  A reaper tick is idempotent: over a cache whose assumed keys
    satisfy invariants 1, 2 and 4, a tick at time [now] returns, and a
    further tick on the cache it leaves, at the same or at an earlier
    time and in whatever order, returns and changes nothing. *)
Theorem cleanupAssumedPods_idempotent (h : gmap loc Pod) (c : schedulerCache)
    (now : Z) (keys : list string) :
  assumed_accounted h c ->
  key_order c keys ->
  exists c', cleanupAssumedPods h c now keys = Done c'
    /\ forall keys' now', key_order c' keys' -> (now' <= now)%Z ->
         cleanupAssumedPods h c' now' keys' = Done c'.
Proof.
  intros Hwf Hord. unfold key_order in Hord.
  assert (Hnd : NoDup keys) by (rewrite Hord; apply NoDup_elements).
  assert (Hmem : forall k, k ∈ keys <-> k ∈ assumedPods c).
  { intros k. by rewrite Hord, elem_of_elements. }
  destruct (cleanup_loop h now keys c Hnd) as (c' & Hloop & HA & HP & HN);
    [intros k; apply Hmem | done |].
  exists c'. split; [exact Hloop|].
  intros keys' now' Hord' Hle. unfold cleanupAssumedPods, key_order in *.
  apply cleanup_all_kept. intros k Hk.
  rewrite Hord', elem_of_elements in Hk. apply HA in Hk as [Hk Hb].
  rewrite (bool_decide_eq_true_2 (k ∈ keys)) in Hb by (by apply Hmem).
  cbn in Hb. destruct (Hwf k Hk) as (ps & Hps & _ & _ & Hdl).
  exists ps. rewrite HP, (bool_decide_eq_true_2 (k ∈ keys)) by (by apply Hmem).
  cbn. rewrite Hb. split; [done|]. split; [done|].
  apply (expired_mono now); [done|]. unfold expires in Hb. by rewrite Hps in Hb.
Qed.

Lemma reconcile_loop (l : list (string * NodeInfo)) :
  forall m, NoDup l.*1 ->
  exists m1, forM reconcile_step l (Some m) = Done (Some m1)
    /\ forall name,
         m1 !! name =
           match (list_to_map l : gmap string NodeInfo) !! name with
           | None => m !! name
           | Some info =>
               match m !! name with
               | Some current =>
                   if bool_decide (generation current = generation info)
                   then Some current else Some info
               | None => Some info
               end
           end.
Proof.
  induction l as [|[n0 i0] l IH]; intros m Hnd.
  - exists m. split; [done|]. intros name. cbn. by rewrite lookup_empty.
  - rewrite fmap_cons in Hnd. apply NoDup_cons in Hnd as [Hn0 Hnd]. cbn [fst] in Hn0.
    assert (Hnone : (list_to_map l : gmap string NodeInfo) !! n0 = None).
    { by apply not_elem_of_list_to_map_1. }
    cbn [forM reconcile_step]. cbn [from_option id].
    set (ma := match m !! n0 with
               | Some current =>
                   if bool_decide (generation current = generation i0)
                   then m else <[n0 := i0]> m
               | None => <[n0 := i0]> m
               end).
    assert (Hstep : match m !! n0 with
                    | Some current =>
                        if bool_decide (generation current ≠ generation i0)
                        then assignClone (Some m) n0 i0
                        else Done (Some m)
                    | None => assignClone (Some m) n0 i0
                    end = Done (Some ma)).
    { unfold ma, assignClone. destruct (m !! n0) as [cur|]; [|done].
      destruct (decide (generation cur = generation i0)) as [Heq|Hne].
      - rewrite bool_decide_eq_false_2 by (intros Hn; by apply Hn).
        by rewrite bool_decide_eq_true_2.
      - rewrite bool_decide_eq_true_2 by done. by rewrite bool_decide_eq_false_2. }
    rewrite Hstep. cbn [mbind exec_bind].
    clear Hstep.
    destruct (IH ma Hnd) as (m1 & Hloop & Hm1). exists m1. split; [done|].
    intros name. rewrite Hm1. cbn [list_to_map foldr uncurry].
    change (foldr (λ '(k, v), <[k:=v]>) ∅ l) with (list_to_map l : gmap string NodeInfo).
    destruct (decide (name = n0)) as [->|Hne].
    + rewrite Hnone, lookup_insert_eq. unfold ma.
      destruct (m !! n0) as [cur|] eqn:Hcur.
      * cbn [snd]. destruct (bool_decide (generation cur = generation i0)); [done|].
        by rewrite lookup_insert_eq.
      * by rewrite lookup_insert_eq.
    + rewrite lookup_insert_ne by done.
      assert (Hma : ma !! name = m !! name).
      { unfold ma. destruct (m !! n0) as [cur|];
          [destruct (bool_decide (generation cur = generation i0)); [done|]|];
          by rewrite lookup_insert_ne. }
      by rewrite Hma.
Qed.

Lemma reconcile_loop_nil (l : list (string * NodeInfo)) :
  forM reconcile_step l None =
    match l with
    | [] => Done None
    | _ => Crashed NilMapAssignment
    end.
Proof. destruct l as [|[n0 i0] l]; [done|]. cbn. by rewrite lookup_empty. Qed.

Lemma prune_loop (c : schedulerCache) (keys : list string) :
  forall m1, exists m2, foldl (prune_step c) (Some m1) keys = Some m2
    /\ forall name,
         m2 !! name =
           if bool_decide (name ∈ keys) && bool_decide (nodes c !! name = None)
           then None else m1 !! name.
Proof.
  induction keys as [|k keys IH]; intros m1.
  - exists m1. split; [done|]. intros name.
    by rewrite bool_decide_eq_false_2 by apply not_elem_of_nil.
  - cbn [foldl]. unfold prune_step at 2.
    destruct (nodes c !! k) as [n|] eqn:Hk.
    + destruct (IH m1) as (m2 & Hloop & Hm2). exists m2. split; [done|].
      intros name. rewrite Hm2. destruct (decide (name = k)) as [->|Hne].
      * rewrite (bool_decide_eq_false_2 (nodes c !! k = None)) by (by rewrite Hk).
        by rewrite !andb_false_r.
      * replace (bool_decide (name ∈ k :: keys)) with (bool_decide (name ∈ keys)); [done|].
        apply bool_decide_ext. rewrite elem_of_cons. intuition.
    + cbn [fmap option_fmap option_map]. destruct (IH (delete k m1)) as (m2 & Hloop & Hm2).
      exists m2. split; [done|]. intros name. rewrite Hm2.
      destruct (decide (name = k)) as [->|Hne].
      * rewrite lookup_delete_eq, (bool_decide_eq_true_2 (k ∈ k :: keys)) by (by left).
        rewrite (bool_decide_eq_true_2 (nodes c !! k = None)) by done. cbn.
        by destruct (_ && _).
      * rewrite lookup_delete_ne by done.
        replace (bool_decide (name ∈ k :: keys)) with (bool_decide (name ∈ keys)); [done|].
        apply bool_decide_ext. rewrite elem_of_cons. intuition.
Qed.

Lemma reconcile_run (c : schedulerCache) (m : gmap string NodeInfo)
    (order : list (string * NodeInfo)) (range2 : gmap string NodeInfo -> list string) :
  entry_order c order -> key_range range2 ->
  exists m',
    UpdateNodeNameToInfoMap c (Some m) order range2 = Returned None (Some m')
    /\ (forall name, m' !! name = reconciled c m name).
Proof.
  unfold entry_order, key_range. intros Hord Hrange.
  assert (Hnd : NoDup order.*1).
  { rewrite Hord. apply NoDup_fst_map_to_list. }
  assert (Hmap : (list_to_map order : gmap string NodeInfo) = nodes c).
  { rewrite (list_to_map_proper order (map_to_list (nodes c)) Hnd Hord).
    apply list_to_map_to_list. }
  unfold UpdateNodeNameToInfoMap.
  destruct (reconcile_loop order m Hnd) as (m1 & Hloop & Hm1).
  rewrite Hloop. cbn [mbind exec_bind from_option id].
  destruct (prune_loop c (range2 m1) m1) as (m2 & Hprune & Hm2).
  rewrite Hprune. exists m2. split; [done|].
  intros name. rewrite Hm2, Hm1, Hmap. unfold reconciled.
  destruct (nodes c !! name) as [info|] eqn:Hn.
  - rewrite (bool_decide_eq_false_2 (Some info = None)) by done.
    by rewrite andb_false_r.
  - rewrite (bool_decide_eq_true_2 (None = None)) by done. rewrite andb_true_r.
    case_bool_decide as Hin; [done|].
    destruct (m !! name) as [cur|] eqn:Hcur; [|done].
    exfalso. apply Hin. rewrite Hrange.
    apply list_elem_of_fmap. exists (name, cur). split; [done|].
    apply elem_of_map_to_list. by rewrite Hm1, Hmap, Hn.
Qed.

Lemma reconciled_generation (c : schedulerCache) (m : gmap string NodeInfo)
    (name : string) (info' : NodeInfo) :
  reconciled c m name = Some info' ->
  exists info, nodes c !! name = Some info /\ generation info' = generation info.
Proof.
  unfold reconciled. destruct (nodes c !! name) as [info|]; [|done].
  destruct (m !! name) as [cur|]; [case_bool_decide|]; intros [= <-]; eauto.
Qed.

(** X21.  [UpdateNodeNameToInfoMap], in whatever order the two loops run.
    On a caller's map that is not nil it returns nil and leaves in the
    map exactly the names that the cache tracks; under each, the entry of
    the caller when it carried the generation of the record of the cache,
    and the record of the cache otherwise; so every entry has the
    generation of the record of the cache.  On the nil map it returns nil
    when the cache tracks no node and panics on the assignment when it
    tracks one. *)
Theorem UpdateNodeNameToInfoMap_spec (c : schedulerCache)
    (order : list (string * NodeInfo)) (range2 : gmap string NodeInfo -> list string) :
  entry_order c order -> key_range range2 ->
  (forall m, exists m',
     UpdateNodeNameToInfoMap c (Some m) order range2 = Returned None (Some m')
     /\ (forall name, m' !! name = reconciled c m name)
     /\ dom m' = dom (nodes c)
     /\ (forall name info', m' !! name = Some info' ->
           exists info, nodes c !! name = Some info
             /\ generation info' = generation info))
  /\ (nodes c = ∅ ->
        UpdateNodeNameToInfoMap c None order range2 = Returned None None)
  /\ (nodes c <> ∅ ->
        UpdateNodeNameToInfoMap c None order range2 = Crashed NilMapAssignment).
Proof.
  intros Hord Hrange. split; [|split].
  - intros m. destruct (reconcile_run c m order range2 Hord Hrange) as (m' & Hrun & Hrec).
    exists m'. split; [done|]. split; [done|]. split.
    + apply set_eq. intros name. rewrite !elem_of_dom, Hrec. unfold reconciled.
      destruct (nodes c !! name) as [info|].
      * destruct (m !! name) as [cur|]; [case_bool_decide|]; split; eauto.
      * split; intros [? ?]; done.
    + intros name info'. rewrite Hrec. apply reconciled_generation.
  - unfold entry_order, key_range in *.
    intros Hempty. unfold UpdateNodeNameToInfoMap. rewrite reconcile_loop_nil.
    rewrite Hempty, map_to_list_empty in Hord. apply Permutation_nil_r in Hord as ->.
    cbn. assert (range2 ∅ = []) as ->; [|done].
    apply Permutation_nil_r. by rewrite Hrange, map_to_list_empty.
  - unfold entry_order, key_range in *.
    intros Hne. unfold UpdateNodeNameToInfoMap. rewrite reconcile_loop_nil.
    destruct order as [|e l]; [|done]. exfalso. apply Hne.
    apply map_to_list_empty_iff. by apply Permutation_nil_r.
Qed.

(** X22.  [IsUpToDate] of a node record panics when the record has no
    descriptor; otherwise it returns, and returns true exactly when the
    cache tracks the name of the descriptor with a record of the same
    generation.  An entry that [UpdateNodeNameToInfoMap] left under the
    name of its descriptor is up to date. *)
Theorem IsUpToDate_spec (c : schedulerCache) (n : NodeInfo) :
  (node n = None -> IsUpToDate c n = Crashed NilDereference)
  /\ (forall nd, node n = Some nd ->
        exists b, IsUpToDate c n = Done b
          /\ (b = true <-> exists node0, nodes c !! node_Name nd = Some node0
                             /\ generation n = generation node0))
  /\ (forall nd name m order range2 m',
        entry_order c order -> key_range range2 ->
        UpdateNodeNameToInfoMap c (Some m) order range2 = Returned None (Some m') ->
        m' !! name = Some n -> node n = Some nd -> node_Name nd = name ->
        IsUpToDate c n = Done true).
Proof.
  split; [|split].
  - unfold IsUpToDate. by intros ->.
  - intros nd Hn. unfold IsUpToDate. rewrite Hn.
    destruct (nodes c !! node_Name nd) as [node0|].
    + eexists. split; [reflexivity|]. rewrite bool_decide_eq_true. split.
      * intros Hg. eauto.
      * intros (node0' & [= <-] & Hg). done.
    + exists false. split; [done|]. split; [done|]. intros (? & ? & _). done.
  - intros nd name m order range2 m' Hord Hrange Hrun Hm' Hn Hname.
    destruct (reconcile_run c m order range2 Hord Hrange) as (m'' & Hrun' & Hrec).
    rewrite Hrun in Hrun'. injection Hrun' as <-.
    rewrite Hrec in Hm'.
    destruct (reconciled_generation c m name n Hm') as (info & Hinfo & Hg).
    unfold IsUpToDate. rewrite Hn, Hname, Hinfo. by rewrite bool_decide_eq_true_2.
Qed.

(** *** What the engine leaves of a pod *)

Lemma assignList_frame (set : option (gmap string Z) -> Container -> Container)
    (l : loc) (i : nat) (v : option (gmap string Z)) (h h' : gmap loc Pod) :
  assignList set l i v h = Done h' ->
  forall l', same_but_containers (deref h' l') (deref h l').
Proof.
  unfold assignList.
  destruct (Containers (Spec (deref h l)) !! i) as [c|]; [|discriminate].
  intros [= <-] l'. destruct (decide (l = l')) as [<-|Hne].
  - rewrite deref_insert_eq. reflexivity.
  - by rewrite deref_insert_ne.
Qed.

Lemma restoreList_frame (set : option (gmap string Z) -> Container -> Container)
    (saved : option (gmap string Z)) (newPod cachedPod : loc) (i : nat)
    (h h' : gmap loc Pod) :
  restoreList set saved newPod cachedPod i h = Done h' ->
  forall l, same_but_containers (deref h' l) (deref h l).
Proof.
  unfold restoreList. destruct saved as [v|]; [|by intros [= <-]].
  destruct (assignList set newPod i (Some v) h) as [h1|] eqn:H1; [|discriminate].
  cbn [mbind exec_bind]. intros H2 l.
  eapply sbc_trans; [by eapply assignList_frame | by eapply assignList_frame].
Qed.

Lemma rollback_step_frame (newPod cachedPod : loc) (i : nat) (h h' : gmap loc Pod) :
  rollback_step newPod cachedPod h i = Done h' ->
  forall l, same_but_containers (deref h' l) (deref h l).
Proof.
  unfold rollback_step.
  destruct (Containers (Spec (deref h newPod)) !! i) as [ct|]; [|discriminate].
  destruct (ResizeResources (Spec (deref h newPod))) as [rr|]; [|discriminate].
  destruct (List.find _ _) as [rb|]; [|by intros [= <-]].
  destruct (restoreList with_Requests _ newPod cachedPod i h) as [h1|] eqn:H1;
    [|discriminate].
  cbn [mbind exec_bind]. intros H2 l.
  eapply sbc_trans; [by eapply restoreList_frame | by eapply restoreList_frame].
Qed.

Lemma rollback_loop_frame (newPod cachedPod : loc) (idx : list nat) :
  forall h h', forM (rollback_step newPod cachedPod) idx h = Done h' ->
  forall l, same_but_containers (deref h' l) (deref h l).
Proof.
  induction idx as [|i idx IH]; intros h h'.
  - intros [= <-] l. apply sbc_refl.
  - cbn [forM].
    destruct (rollback_step newPod cachedPod h i) as [h1|] eqn:H1; [|discriminate].
    cbn [mbind exec_bind]. intros H2 l.
    eapply sbc_trans; [by eapply IH | by eapply rollback_step_frame].
Qed.

Lemma update_resize_labels (l : loc) (f : Pod -> PodResizeResources -> PodResizeResources)
    (h h' : gmap loc Pod) :
  update_resize l f h = Done h' ->
  forall l', Labels (deref h' l') = Labels (deref h l').
Proof.
  unfold update_resize. destruct (ResizeResources _); [|discriminate].
  intros [= <-] l'. destruct (decide (l = l')) as [<-|Hne].
  - by rewrite deref_insert_eq.
  - by rewrite deref_insert_ne.
Qed.

Lemma processPodResizeStatus_labels (h h1 : gmap loc Pod) (c : schedulerCache)
    (oldPod newPod : loc) :
  processPodResizeStatus h c oldPod newPod = Done h1 ->
  forall l, Labels (deref h1 l) = Labels (deref h l).
Proof.
  unfold processPodResizeStatus.
  destruct (List.find _ _) as [pc|]; [|by intros [= <-]].
  destruct (ResizeResources _) as [rr|]; [|discriminate].
  destruct (bool_decide (cond_Message pc = ActionVersion rr)); [|by intros [= <-]].
  destruct (_ && _).
  - unfold rollbackPodResources.
    destruct (podStates c !! _) as [cs|]; [|discriminate].
    destruct (forM _ _ _) as [h0|] eqn:Hloop; [|discriminate].
    cbn [mbind exec_bind]. intros Hup l.
    rewrite (update_resize_labels _ _ _ _ Hup).
    by destruct (sbc_resize _ _ (rollback_loop_frame _ _ _ _ _ Hloop l)) as (_ & _ & ->).
  - cbn [mbind exec_bind]. intros Hup l. by rewrite (update_resize_labels _ _ _ _ Hup).
Qed.

(** X25. The engine consults the disruption budgets on one path only. Under
    the policy [Restart], under the policy [InPlaceOnly], and for a pod
    without labels, its outcome (the error, the pods and what it crashes
    with) is the same for any two lists of budgets: a budget that allows
    no disruption, or whose selector does not convert, changes nothing
    there. *)
Theorem budgets_not_consulted (h : gmap loc Pod) (c : schedulerCache)
    (oldPod newPod : loc) (order order' : list PodDisruptionBudget) :
  resolved_policy (deref h newPod) = ResizePolicyRestart
  \/ resolved_policy (deref h newPod) = ResizePolicyInPlaceOnly
  \/ Labels (deref h newPod) = ∅ ->
  processPodResourcesScaling h c oldPod newPod order
  = processPodResourcesScaling h c oldPod newPod order'.
Proof.
  intros Hcase. unfold processPodResourcesScaling.
  destruct (nodes c !! _) as [n|]; [|done].
  fold (resolved_policy (deref h newPod)).
  destruct (processPodResizeStatus h c oldPod newPod) as [h1|] eqn:Hst; [|done].
  cbn [mbind exec_bind].
  destruct (ResizeResources (Spec (deref h1 newPod))) as [rr|]; [|done].
  destruct (bool_decide (length _ ≠ 0%nat)); [|done].
  destruct (bool_decide (resolved_policy (deref h newPod) = ResizePolicyRestart)) eqn:Hr;
    [done|].
  destruct (getPodResizeRequirements _) as [[rmap pr]|]; [|done].
  cbn [mbind exec_bind].
  destruct (update_resize newPod clear_request h1) as [h2|] eqn:H2; [|done].
  cbn [mbind exec_bind]. destruct (_ && _); [done|].
  destruct (update_resize newPod set_actionVersion h2) as [h3|] eqn:H3; [|done].
  cbn [mbind exec_bind].
  destruct (bool_decide (resolved_policy (deref h newPod) = ResizePolicyInPlaceOnly)) eqn:Hi;
    [done|].
  destruct Hcase as [Hc|[Hc|Hc]].
  - rewrite Hc in Hr. by rewrite bool_decide_eq_true_2 in Hr.
  - rewrite Hc in Hi. by rewrite bool_decide_eq_true_2 in Hi.
  - rewrite (update_resize_labels _ _ _ _ H3), (update_resize_labels _ _ _ _ H2),
      (processPodResizeStatus_labels _ _ _ _ _ Hst), Hc.
    reflexivity.
Qed.

(** X26. [UpdatePod] of a confirmed pod removes the old pod before it
    consults the engine. When that removal drops the record of the node
    (the pod was its last and the node has no descriptor) and the gate of
    the engine is open, the engine finds no node: [UpdatePod] returns the
    unknown-node error, and the new pod is added all the same. *)
Theorem UpdatePod_on_undescribed_node (h : gmap loc Pod) (c c1 : schedulerCache)
    (oldPod newPod : loc) (order : list PodDisruptionBudget) (key : string)
    (ps : podState) :
  getPodKey (deref h oldPod) = (key, None) ->
  podStates c !! key = Some ps -> key ∉ assumedPods c ->
  NodeName (Spec (deref h (pod ps))) = NodeName (Spec (deref h newPod)) ->
  NodeName (Spec (deref h oldPod)) = NodeName (Spec (deref h newPod)) ->
  removePod h c oldPod = Returned None c1 ->
  nodes c1 !! NodeName (Spec (deref h newPod)) = None ->
  VerticalScaling = true ->
  Phase (Status (deref h oldPod)) = PodRunning ->
  Phase (Status (deref h newPod)) = PodRunning ->
  DeletionTimestamp (deref h newPod) = None ->
  ResizeResources (Spec (deref h newPod)) <> None ->
  UpdatePod h c oldPod newPod order
  = Returned (Some (UnknownNode (NodeName (Spec (deref h newPod)))))
             (h, addPod h c1 newPod).
Proof.
  intros Hkey Hps Hnin Heq Hold Hrm Hnone Hvs Ho Hn Hd Hrr.
  unfold UpdatePod. rewrite Hkey, Hps, (bool_decide_eq_false_2 _ Hnin). cbn [negb].
  rewrite bool_decide_eq_false_2 by (intros Hne; by apply Hne).
  unfold updatePod. rewrite Hrm. cbn [mbind exec_bind].
  rewrite Hvs, !bool_decide_eq_true_2 by done. cbn [andb].
  unfold processPodResourcesScaling. rewrite Hnone. reflexivity.
Qed.

(** *** When the commit returns *)

Lemma overwriteList_other (get : ResourceRequirements -> option (gmap string Z))
    (set : option (gmap string Z) -> Container -> Container)
    (l : loc) (i : nat) (u : gmap string Z) (h h' : gmap loc Pod) :
  overwriteList get set l i u h = Done h' ->
  forall l' j, j <> i ->
    Containers (Spec (deref h' l')) !! j = Containers (Spec (deref h l')) !! j.
Proof.
  unfold overwriteList.
  destruct (Containers (Spec (deref h l)) !! i) as [c|]; [|discriminate].
  destruct (get (c_Resources c)); [|discriminate].
  intros [= <-] l' j Hj. destruct (decide (l = l')) as [<-|Hne].
  - rewrite deref_insert_eq. cbn [Spec with_Containers with_Spec Containers].
    by rewrite list_lookup_insert_ne.
  - by rewrite deref_insert_ne.
Qed.

Lemma overwriteList_crash (get : ResourceRequirements -> option (gmap string Z))
    (set : option (gmap string Z) -> Container -> Container)
    (l : loc) (i : nat) (u : gmap string Z) (h : gmap loc Pod) (w : crash) :
  overwriteList get set l i u h = Crashed w ->
  w = NilMapAssignment \/ w = IndexOutOfRange.
Proof.
  unfold overwriteList.
  destruct (Containers (Spec (deref h l)) !! i) as [c|]; [|intros [= <-]; by right].
  destruct (get (c_Resources c)); [discriminate | intros [= <-]; by left].
Qed.

Lemma resizeList_other (get : ResourceRequirements -> option (gmap string Z))
    (set : option (gmap string Z) -> Container -> Container)
    (upd : option (gmap string Z)) (newPod cachedPod : loc) (i : nat)
    (h h' : gmap loc Pod) :
  resizeList get set upd newPod cachedPod i h = Done h' ->
  forall l j, j <> i ->
    Containers (Spec (deref h' l)) !! j = Containers (Spec (deref h l)) !! j.
Proof.
  unfold resizeList. destruct upd as [u|]; [|by intros [= <-]].
  case_bool_decide; [by intros [= <-]|].
  destruct (overwriteList get set newPod i u h) as [h1|] eqn:H1; [|discriminate].
  cbn [mbind exec_bind]. intros H2 l j Hj.
  rewrite (overwriteList_other _ _ _ _ _ _ _ H2 l j Hj).
  by rewrite (overwriteList_other _ _ _ _ _ _ _ H1 l j Hj).
Qed.

Lemma resizeList_crash (get : ResourceRequirements -> option (gmap string Z))
    (set : option (gmap string Z) -> Container -> Container)
    (upd : option (gmap string Z)) (newPod cachedPod : loc) (i : nat)
    (h : gmap loc Pod) (w : crash) :
  resizeList get set upd newPod cachedPod i h = Crashed w ->
  w = NilMapAssignment \/ w = IndexOutOfRange.
Proof.
  unfold resizeList. destruct upd as [u|]; [|discriminate].
  case_bool_decide; [discriminate|].
  destruct (overwriteList get set newPod i u h) as [h1|w1] eqn:H1.
  - cbn [mbind exec_bind]. apply overwriteList_crash.
  - cbn [mbind exec_bind]. intros [= <-]. by eapply overwriteList_crash.
Qed.

(** A list that was overwritten had a map to assign into, in the
    incoming container and in the cached one. *)
Lemma resizeList_done (get : ResourceRequirements -> option (gmap string Z))
    (set : option (gmap string Z) -> Container -> Container)
    (upd : option (gmap string Z)) (newPod cachedPod : loc) (i : nat)
    (h h' : gmap loc Pod) :
  resizeList get set upd newPod cachedPod i h = Done h' ->
  needs upd ->
  (exists c, Containers (Spec (deref h newPod)) !! i = Some c
             /\ is_Some (get (c_Resources c)))
  /\ (exists cc, Containers (Spec (deref h cachedPod)) !! i = Some cc
                /\ is_Some (get (c_Resources cc))).
Proof.
  intros Hrun (u & -> & Hu). unfold resizeList in Hrun.
  rewrite bool_decide_eq_false_2 in Hrun by done.
  destruct (overwriteList get set newPod i u h) as [h1|] eqn:H1; [|discriminate].
  cbn [mbind exec_bind] in Hrun. unfold overwriteList in H1.
  destruct (Containers (Spec (deref h newPod)) !! i) as [c|] eqn:Hc; [|discriminate].
  destruct (get (c_Resources c)) as [b|] eqn:Hb; [|discriminate].
  injection H1 as <-.
  split; [exists c; split; [done|]; by rewrite Hb|].
  destruct (decide (cachedPod = newPod)) as [->|Hne].
  - exists c. split; [done|]. by rewrite Hb.
  - unfold overwriteList in Hrun. rewrite deref_insert_ne in Hrun by done.
    destruct (Containers (Spec (deref h cachedPod)) !! i) as [cc|]; [|discriminate].
    destruct (get (c_Resources cc)) as [bc|] eqn:Hbc; [|discriminate].
    exists cc. split; [done|]. by rewrite Hbc.
Qed.

Lemma setupInPlace_step_other (rmap : gmap string Container) (newPod cachedPod : loc)
    (i : nat) (st st' : gmap loc Pod * option (list ContainerResources)) :
  setupInPlace_step rmap newPod cachedPod st i = Done st' ->
  forall l j, j <> i ->
    Containers (Spec (deref (fst st') l)) !! j = Containers (Spec (deref (fst st) l)) !! j.
Proof.
  destruct st as [h rb]. unfold setupInPlace_step.
  destruct (Containers (Spec (deref h newPod)) !! i) as [ct|]; [|discriminate].
  destruct (rmap !! c_Name ct) as [rc|]; [|by intros [= <-]].
  destruct (resizeList Requests with_Requests _ newPod cachedPod i h)
    as [h1|] eqn:H1; [|discriminate].
  cbn [mbind exec_bind].
  destruct (resizeList Limits with_Limits _ newPod cachedPod i h1)
    as [h2|] eqn:H2; [|discriminate].
  cbn [mbind exec_bind]. intros [= <-] l j Hj. cbn [fst].
  rewrite (resizeList_other _ _ _ _ _ _ _ _ H2 l j Hj).
  by rewrite (resizeList_other _ _ _ _ _ _ _ _ H1 l j Hj).
Qed.

Lemma setupInPlace_step_crash (rmap : gmap string Container) (newPod cachedPod : loc)
    (i : nat) (st : gmap loc Pod * option (list ContainerResources)) (w : crash) :
  setupInPlace_step rmap newPod cachedPod st i = Crashed w ->
  w = NilMapAssignment \/ w = IndexOutOfRange.
Proof.
  destruct st as [h rb]. unfold setupInPlace_step.
  destruct (Containers (Spec (deref h newPod)) !! i) as [ct|];
    [|intros [= <-]; by right].
  destruct (rmap !! c_Name ct) as [rc|]; [|discriminate].
  destruct (resizeList Requests with_Requests _ newPod cachedPod i h)
    as [h1|w1] eqn:H1.
  - cbn [mbind exec_bind].
    destruct (resizeList Limits with_Limits _ newPod cachedPod i h1)
      as [h2|w2] eqn:H2; [discriminate|].
    cbn [mbind exec_bind]. intros [= <-]. by eapply resizeList_crash.
  - cbn [mbind exec_bind]. intros [= <-]. by eapply resizeList_crash.
Qed.

(** A step that returned found the maps it assigns into. *)
Lemma setupInPlace_step_done (rmap : gmap string Container) (newPod cachedPod : loc)
    (i : nat) (h : gmap loc Pod) (rb : option (list ContainerResources))
    (st' : gmap loc Pod * option (list ContainerResources)) (ct rc : Container) :
  setupInPlace_step rmap newPod cachedPod (h, rb) i = Done st' ->
  Containers (Spec (deref h newPod)) !! i = Some ct ->
  rmap !! c_Name ct = Some rc ->
  (needs (Requests (c_Resources rc)) ->
     is_Some (Requests (c_Resources ct))
     /\ exists cc, Containers (Spec (deref h cachedPod)) !! i = Some cc
                   /\ is_Some (Requests (c_Resources cc)))
  /\ (needs (Limits (c_Resources rc)) ->
       is_Some (Limits (c_Resources ct))
       /\ exists cc, Containers (Spec (deref h cachedPod)) !! i = Some cc
                     /\ is_Some (Limits (c_Resources cc))).
Proof.
  intros Hrun Hct Hrc. unfold setupInPlace_step in Hrun. rewrite Hct, Hrc in Hrun.
  destruct (resizeList Requests with_Requests (Requests (c_Resources rc))
              newPod cachedPod i h) as [h1|] eqn:H1; [|discriminate].
  cbn [mbind exec_bind] in Hrun.
  destruct (resizeList Limits with_Limits (Limits (c_Resources rc))
              newPod cachedPod i h1) as [h2|] eqn:H2; [|discriminate].
  assert (Hreq : needs (Requests (c_Resources rc)) ->
     (exists c, Containers (Spec (deref h newPod)) !! i = Some c
                /\ is_Some (Requests (c_Resources c)))
     /\ (exists cc, Containers (Spec (deref h cachedPod)) !! i = Some cc
                   /\ is_Some (Requests (c_Resources cc))))
    by (by apply (resizeList_done _ _ _ _ _ _ _ _ H1)).
  split.
  - intros Hn. destruct (Hreq Hn) as ((c & Hc & Hs) & Hcc).
    rewrite Hct in Hc. injection Hc as <-. done.
  - intros Hn.
    destruct (resizeList_spec Requests with_Requests
                (fun v c => eq_refl) (fun v w c => eq_refl) with_Requests_get
                (Requests (c_Resources rc)) newPod cachedPod i h Hreq)
      as (h1' & Hr1 & _ & Hl1).
    rewrite H1 in Hr1. injection Hr1 as <-.
    destruct (resizeList_done _ _ _ _ _ _ _ _ H2 Hn)
      as ((c & Hc & Hs) & (cc & Hcc & Hsc)).
    rewrite Hl1, bool_decide_eq_true_2 in Hc by auto.
    rewrite Hl1, bool_decide_eq_true_2 in Hcc by auto.
    rewrite Hct in Hc. cbn in Hc. injection Hc as <-.
    split; [exact Hs|].
    destruct (Containers (Spec (deref h cachedPod)) !! i) as [cc0|]; [|discriminate].
    cbn in Hcc. injection Hcc as <-. exists cc0. split; [done | exact Hsc].
Qed.

Lemma setup_loop_done (rmap : gmap string Container) (newPod cachedPod : loc)
    (newC cachedC : list Container) :
  forall k i h rb st',
    (forall j, (i <= j)%nat ->
       Containers (Spec (deref h newPod)) !! j = newC !! j
       /\ Containers (Spec (deref h cachedPod)) !! j = cachedC !! j) ->
    forM (setupInPlace_step rmap newPod cachedPod) (seq i k) (h, rb) = Done st' ->
    forall j ct rc, (i <= j < i + k)%nat ->
      newC !! j = Some ct -> rmap !! c_Name ct = Some rc ->
      (needs (Requests (c_Resources rc)) ->
         is_Some (Requests (c_Resources ct))
         /\ exists cc, cachedC !! j = Some cc /\ is_Some (Requests (c_Resources cc)))
      /\ (needs (Limits (c_Resources rc)) ->
           is_Some (Limits (c_Resources ct))
           /\ exists cc, cachedC !! j = Some cc /\ is_Some (Limits (c_Resources cc))).
Proof.
  induction k as [|k IH]; intros i h rb st' Hinv Hrun j ct rc Hj Hct Hrc; [lia|].
  cbn [seq forM] in Hrun.
  destruct (setupInPlace_step rmap newPod cachedPod (h, rb) i) as [[h1 rb1]|] eqn:Hstep;
    [|discriminate].
  cbn [mbind exec_bind] in Hrun.
  destruct (decide (j = i)) as [->|Hne].
  - destruct (Hinv i) as [HN HC]; [lia|].
    rewrite <- HC.
    apply (setupInPlace_step_done rmap newPod cachedPod i h rb (h1, rb1)); [done| |done].
    by rewrite HN.
  - apply (IH (S i) h1 rb1 st'); [|done|lia|done|done].
    intros j' Hj'. destruct (Hinv j') as [HN HC]; [lia|].
    pose proof (setupInPlace_step_other _ _ _ _ _ _ Hstep) as Ho. cbn [fst] in Ho.
    rewrite !Ho by lia. done.
Qed.

Lemma setup_loop_crash (rmap : gmap string Container) (newPod cachedPod : loc)
    (idx : list nat) (w : crash) :
  forall st, forM (setupInPlace_step rmap newPod cachedPod) idx st = Crashed w ->
    w = NilMapAssignment \/ w = IndexOutOfRange.
Proof.
  induction idx as [|i idx IH]; intros st; [discriminate|]. cbn [forM].
  destruct (setupInPlace_step rmap newPod cachedPod st i) as [st1|w1] eqn:Hstep.
  - cbn [mbind exec_bind]. apply IH.
  - cbn [mbind exec_bind]. intros [= <-]. by eapply setupInPlace_step_crash.
Qed.

(** The commit returns exactly when the maps it assigns into exist. *)
Lemma setupInPlace_returns (h : gmap loc Pod) (c : schedulerCache) (oldPod newPod : loc)
    (rmap : gmap string Container) (cs : podState) (rr : PodResizeResources) :
  podStates c !! fst (getPodKey (deref h oldPod)) = Some cs ->
  resize_of h newPod = Some rr ->
  (writable rmap (Containers (Spec (deref h newPod)))
                 (Containers (Spec (deref h (pod cs))))
   -> exists h3, setupInPlaceResizeAction h c oldPod newPod rmap = Done h3)
  /\ (~ writable rmap (Containers (Spec (deref h newPod)))
                      (Containers (Spec (deref h (pod cs))))
      -> exists w, setupInPlaceResizeAction h c oldPod newPod rmap = Crashed w
                   /\ (w = NilMapAssignment \/ w = IndexOutOfRange)).
Proof.
  intros Hcs Hrr. split.
  - intros Hw.
    destruct (setupInPlace_spec h c oldPod newPod rmap cs rr Hcs Hrr Hw) as (h3 & Hs & _).
    eauto.
  - intros Hnw. unfold setupInPlaceResizeAction. rewrite Hcs.
    destruct (forM _ _ _) as [[h1 rb]|w] eqn:Hloop.
    + exfalso. apply Hnw. intros j ct rc Hct Hrc.
      apply (setup_loop_done rmap newPod (pod cs) _ _ _ _ _ _ _
               (fun j _ => conj eq_refl eq_refl) Hloop j ct rc); [|done|done].
      split; [lia|]. by eapply lookup_lt_Some.
    + exists w. split; [reflexivity|]. by eapply setup_loop_crash.
Qed.

(** X28.  When the capacity test passes, on a pod whose node is tracked,
    whose resize request is not empty, whose policy is not [Restart] and
    whose old pod has a cached state, the engine returns exactly when the
    maps the commit assigns into exist ([writable]): then it returns nil
    with the action [Update].  When a named container of the incoming
    pod, or the container of the same index of the cached pod, lacks the
    map of requests or of limits that the resize sets, or the cached pod
    has no container of that index, the engine panics, on the assignment
    to an entry of a nil map or on the index, and returns nothing. *)
Theorem commit_returns_iff_writable (h h1 : gmap loc Pod) (c : schedulerCache)
    (oldPod newPod : loc) (order : list PodDisruptionBudget) (n : NodeInfo)
    (rr : PodResizeResources) (rmap : gmap string Container)
    (podResource : Resource) (cs : podState) :
  nodes c !! NodeName (Spec (deref h newPod)) = Some n ->
  processPodResizeStatus h c oldPod newPod = Done h1 ->
  resize_of h1 newPod = Some rr ->
  length (default [] (Request rr)) <> 0%nat ->
  resolved_policy (deref h newPod) <> ResizePolicyRestart ->
  getPodResizeRequirements (deref h1 newPod) = Done (rmap, podResource) ->
  podStates c !! fst (getPodKey (deref h1 oldPod)) = Some cs ->
  capacity_test n podResource = true ->
  (writable rmap (Containers (Spec (deref h1 newPod)))
                 (Containers (Spec (deref h1 (pod cs))))
   -> exists h3 rr3,
        processPodResourcesScaling h c oldPod newPod order = Returned None h3
        /\ resize_of h3 newPod = Some rr3
        /\ Action rr3 = ResizeActionUpdate)
  /\ (~ writable rmap (Containers (Spec (deref h1 newPod)))
                      (Containers (Spec (deref h1 (pod cs))))
      -> exists w,
           processPodResourcesScaling h c oldPod newPod order = Crashed w
           /\ (w = NilMapAssignment \/ w = IndexOutOfRange)).
Proof.
  intros Hn Hst Hrr Hlen Hpol Hreq Hcs Hcap.
  rewrite (engine_capacity h h1 c oldPod newPod order n rr rmap podResource) by done.
  unfold capacity_test in Hcap. rewrite Hcap.
  set (h2 := <[newPod := with_ResizeResources (clear_request (deref h1 newPod) rr)
                           (deref h1 newPod)]> h1).
  assert (Hcont : forall l, Containers (Spec (deref h2 l)) = Containers (Spec (deref h1 l))).
  { intros l. unfold h2. destruct (decide (newPod = l)) as [<-|Hne].
    - by rewrite deref_insert_eq.
    - by rewrite deref_insert_ne. }
  assert (Hcs2 : podStates c !! fst (getPodKey (deref h2 oldPod)) = Some cs).
  { rewrite (getPodKey_identity (deref h2 oldPod) (deref h1 oldPod)); [done|].
    unfold h2. destruct (decide (newPod = oldPod)) as [<-|Hne].
    - rewrite deref_insert_eq. reflexivity.
    - by rewrite deref_insert_ne. }
  split.
  - intros Hw.
    destruct (setupInPlace_spec h2 c oldPod newPod rmap cs
                (clear_request (deref h1 newPod) rr) Hcs2)
      as (h3 & Hs & Hr3 & _).
    { apply resize_of_update. }
    { by rewrite !Hcont. }
    rewrite Hs. cbn [mbind exec_bind]. eexists h3, _.
    split; [reflexivity|]. split; [exact Hr3 | reflexivity].
  - intros Hnw.
    destruct (setupInPlace_returns h2 c oldPod newPod rmap cs
                (clear_request (deref h1 newPod) rr) Hcs2) as (_ & Hcr).
    { apply resize_of_update. }
    destruct Hcr as (w & Hs & Hw).
    { by rewrite !Hcont. }
    rewrite Hs. cbn [mbind exec_bind]. eauto.
Qed.

End Operations.

(** * Properties of the host priorities *)

Section HostPriorities.

Import SchedulerApi.

Lemma string_compare_refl (s : string) : String.compare s s = Eq.
Proof.
  induction s as [|a s IH]; [reflexivity|]. cbn.
  unfold Ascii.compare. by rewrite N.compare_refl.
Qed.

Lemma string_compare_lt_trans (s t u : string) :
  String.compare s t = Lt -> String.compare t u = Lt -> String.compare s u = Lt.
Proof.
  revert t u. induction s as [|a s IH]; intros [|b t] [|c u]; cbn; try done.
  unfold Ascii.compare.
  destruct (N.compare_spec (Ascii.N_of_ascii a) (Ascii.N_of_ascii b)) as [Hab|Hab|Hab];
    destruct (N.compare_spec (Ascii.N_of_ascii b) (Ascii.N_of_ascii c)) as [Hbc|Hbc|Hbc];
    try done; intros H1 H2.
  - rewrite Hab, Hbc, N.compare_refl. by eapply IH.
  - rewrite Hab. by apply N.compare_lt_iff in Hbc as ->.
  - rewrite <- Hbc. by apply N.compare_lt_iff in Hab as ->.
  - assert (Hac : (Ascii.N_of_ascii a < Ascii.N_of_ascii c)%N) by lia.
    by apply N.compare_lt_iff in Hac as ->.
Qed.

Lemma string_ltb_irrefl (s : string) : String.ltb s s = false.
Proof. unfold String.ltb. by rewrite string_compare_refl. Qed.

Lemma string_ltb_trans (s t u : string) :
  String.ltb s t = true -> String.ltb t u = true -> String.ltb s u = true.
Proof.
  unfold String.ltb.
  destruct (String.compare s t) eqn:H1; try done.
  destruct (String.compare t u) eqn:H2; try done.
  by rewrite (string_compare_lt_trans s t u).
Qed.

Lemma string_ltb_total (s t : string) :
  String.ltb s t = false -> String.ltb t s = false -> s = t.
Proof.
  unfold String.ltb. rewrite (String.compare_antisym t s).
  destruct (String.compare s t) eqn:H1; try done.
  intros _ _. by apply String.compare_eq_iff.
Qed.

Lemma less_irrefl a : less a a = false.
Proof. unfold less. rewrite bool_decide_eq_true_2 by done. apply string_ltb_irrefl. Qed.

Lemma less_trans a b c : less a b = true -> less b c = true -> less a c = true.
Proof.
  unfold less. repeat case_bool_decide; rewrite ?Z.ltb_lt; try lia; try congruence.
  apply string_ltb_trans.
Qed.

Lemma less_total a b : less a b = false -> less b a = false -> a = b.
Proof.
  unfold less. repeat case_bool_decide; rewrite ?Z.ltb_ge; try lia; try congruence.
  intros H1 H2. destruct a, b; cbn in *. f_equal; [by apply string_ltb_total | done].
Qed.

Lemma index_Done h i a :
  index h i = Done a <-> (0 <= i)%Z /\ h !! Z.to_nat i = Some a.
Proof.
  unfold index. destruct (Z.ltb_spec i 0).
  - split; [done | lia].
  - destruct (h !! Z.to_nat i); split.
    + intros [= ->]. done.
    + intros [_ ?]; congruence.
    + done.
    + intros [_ ?]; congruence.
Qed.

Lemma index_Crashed h i w :
  index h i = Crashed w -> w = IndexOutOfRange /\ ~ (0 <= i < Len h)%Z.
Proof.
  unfold index, Len. destruct (Z.ltb_spec i 0).
  - intros [= <-]. split; [done | lia].
  - destruct (h !! Z.to_nat i) eqn:Hl; [done|]. intros [= <-]. split; [done|].
    apply lookup_ge_None in Hl. lia.
Qed.

Lemma index_in_range h i :
  (0 <= i < Len h)%Z -> exists a, index h i = Done a.
Proof.
  unfold Len. intros Hi.
  destruct (lookup_lt_is_Some_2 h (Z.to_nat i)) as [a Ha]; [lia|].
  exists a. apply index_Done. split; [lia | done].
Qed.

Lemma Less_Done h i j a b :
  index h i = Done a -> index h j = Done b -> Less h i j = Done (less a b).
Proof.
  intros Ha Hb. unfold Less, less. rewrite Ha, Hb. cbn.
  by case_bool_decide.
Qed.

Lemma Less_inv h i j r :
  Less h i j = Done r ->
  exists a b, index h i = Done a /\ index h j = Done b /\ r = less a b.
Proof.
  unfold Less. destruct (index h i) as [a|] eqn:Ha; [|done].
  destruct (index h j) as [b|] eqn:Hb; [|done]. cbn.
  intros Hr. exists a, b. split; [done|]. split; [done|].
  unfold less. by case_bool_decide; injection Hr as <-.
Qed.

(** X23.  [Less] orders the entries of a list strictly and totally.  It
    returns exactly when both indices are within the list, and panics
    otherwise.  On indices within the list it is irreflexive, asymmetric
    and transitive, and neither of two entries is less than the other
    exactly when they are the same entry, score and host: the order in
    which a sort leaves the list is determined. *)
Theorem Less_strict_total_order (h : HostPriorityList) :
  (forall i j, (exists r, Less h i j = Done r) <-> (0 <= i < Len h)%Z /\ (0 <= j < Len h)%Z)
  /\ (forall i j, ~ ((0 <= i < Len h)%Z /\ (0 <= j < Len h)%Z) ->
        Less h i j = Crashed IndexOutOfRange)
  /\ (forall i, (0 <= i < Len h)%Z -> Less h i i = Done false)
  /\ (forall i j, Less h i j = Done true -> Less h j i = Done false)
  /\ (forall i j k, Less h i j = Done true -> Less h j k = Done true ->
        Less h i k = Done true)
  /\ (forall i j a b, index h i = Done a -> index h j = Done b ->
        (Less h i j = Done false /\ Less h j i = Done false <-> a = b)).
Proof.
  assert (Hcr : forall i j, ~ ((0 <= i < Len h)%Z /\ (0 <= j < Len h)%Z) ->
        Less h i j = Crashed IndexOutOfRange).
  { intros i j Hn. unfold Less.
    destruct (index h i) as [a|w] eqn:Ha.
    - destruct (index h j) as [b|w] eqn:Hb.
      + exfalso. apply Hn. apply index_Done in Ha as [? Ha], Hb as [? Hb].
        apply lookup_lt_Some in Ha, Hb. unfold Len. lia.
      + cbn. by apply index_Crashed in Hb as [-> _].
    - cbn. by apply index_Crashed in Ha as [-> _]. }
  split; [|split; [exact Hcr|split; [|split; [|split]]]].
  - intros i j. split.
    + intros [r Hr]. destruct (decide ((0 <= i < Len h)%Z /\ (0 <= j < Len h)%Z)); [done|].
      rewrite Hcr in Hr by done. done.
    + intros [Hi Hj]. destruct (index_in_range h i Hi) as [a Ha].
      destruct (index_in_range h j Hj) as [b Hb].
      eexists. by apply Less_Done.
  - intros i Hi. destruct (index_in_range h i Hi) as [a Ha].
    rewrite (Less_Done h i i a a) by done. by rewrite less_irrefl.
  - intros i j (a & b & Ha & Hb & Hr)%Less_inv.
    rewrite (Less_Done h j i b a) by done. f_equal.
    destruct (less b a) eqn:Hba; [|done].
    symmetry in Hr. pose proof (less_trans a b a Hr Hba) as Haa.
    by rewrite less_irrefl in Haa.
  - intros i j k (a & b & Ha & Hb & Hr)%Less_inv (b' & c & Hb' & Hc & Hr')%Less_inv.
    rewrite Hb in Hb'. injection Hb' as <-.
    rewrite (Less_Done h i k a c) by done. f_equal. by apply (less_trans a b c).
  - intros i j a b Ha Hb.
    rewrite (Less_Done h i j a b), (Less_Done h j i b a) by done. split.
    + intros [[= H1] [= H2]]. by apply less_total.
    + intros <-. by rewrite less_irrefl.
Qed.

(** X24.  [Swap] on two indices within the list returns the list with
    the two entries exchanged: a permutation of the same length, with
    every other entry in place, and swapping again gives the list
    back. *)
Theorem Swap_spec (h : HostPriorityList) (i j : Z) :
  (0 <= i < Len h)%Z -> (0 <= j < Len h)%Z ->
  exists h', Swap h i j = Done h'
    /\ h' ≡ₚ h
    /\ Len h' = Len h
    /\ index h' i = index h j
    /\ index h' j = index h i
    /\ (forall k, k <> i -> k <> j -> index h' k = index h k)
    /\ Swap h' i j = Done h.
Proof.
  intros Hi Hj.
  destruct (index_in_range h i Hi) as [a Ha]. destruct (index_in_range h j Hj) as [b Hb].
  pose proof Ha as Ha'. pose proof Hb as Hb'.
  apply index_Done in Ha' as [_ Ha'], Hb' as [_ Hb'].
  set (I := Z.to_nat i) in *. set (J := Z.to_nat j) in *.
  assert (HI : (I < length h)%nat) by (by eapply lookup_lt_Some).
  assert (HJ : (J < length h)%nat) by (by eapply lookup_lt_Some).
  assert (Hlook : forall n, <[J := a]> (<[I := b]> h) !! n =
            if decide (n = J) then Some a else if decide (n = I) then Some b else h !! n).
  { intros n. destruct (decide (n = J)) as [Hn|HnJ].
    - rewrite Hn. by rewrite list_lookup_insert_eq by (by rewrite length_insert).
    - rewrite list_lookup_insert_ne by done.
      destruct (decide (n = I)) as [Hn|HnI].
      + rewrite Hn. by rewrite list_lookup_insert_eq.
      + by rewrite list_lookup_insert_ne. }
  unfold Swap. rewrite Ha, Hb. cbn. fold I J.
  eexists. split; [reflexivity|].
  assert (Hi' : index (<[J := a]> (<[I := b]> h)) i = Done b).
  { apply index_Done. split; [lia|]. fold I. rewrite Hlook.
    destruct (decide (I = J)) as [e|_]; [|by rewrite decide_True].
    rewrite e in Ha'. congruence. }
  assert (Hj' : index (<[J := a]> (<[I := b]> h)) j = Done a).
  { apply index_Done. split; [lia|]. fold J. rewrite Hlook. by rewrite decide_True. }
  split; [|split; [|split; [|split; [|split]]]].
  - apply Permutation_inj. split; [by rewrite !length_insert|].
    exists (fun n => if decide (n = J) then I else if decide (n = I) then J else n).
    split.
    + intros n m. repeat case_decide; congruence.
    + intros n. rewrite Hlook. repeat case_decide; congruence.
  - unfold Len. by rewrite !length_insert.
  - congruence.
  - congruence.
  - intros k Hki Hkj. unfold index. destruct (Z.ltb_spec k 0); [done|].
    rewrite Hlook. rewrite !decide_False; [done | |]; unfold I, J; lia.
  - rewrite Hi', Hj'. cbn. fold I J. f_equal. apply list_eq. intros n.
    destruct (decide (n = J)) as [Hn|HnJ].
    + rewrite Hn. by rewrite list_lookup_insert_eq by (by rewrite !length_insert).
    + rewrite list_lookup_insert_ne by done.
      destruct (decide (n = I)) as [Hn|HnI].
      * rewrite Hn. by rewrite list_lookup_insert_eq by (by rewrite !length_insert).
      * rewrite list_lookup_insert_ne by done. rewrite Hlook.
        by rewrite !decide_False.
Qed.

End HostPriorities.

Import Scenario.

#[local] Existing Instance Scenario.collaborators.

Lemma Scenario_getPodKey_identity (p q : Pod) :
  same_identity p q -> getPodKey p = getPodKey q.
Proof.
  unfold same_identity, with_Spec. cbn. unfold podKeyByUID. intros H.
  injection H as _ _ Hu _ _ _. by rewrite Hu.
Qed.

Lemma assumed_cache_assumed : assumedPods assumed_cache = {[ "a" ]}.
Proof. vm_compute. reflexivity. Qed.

Lemma bound_cache_assumed : assumedPods bound_cache = {[ "a" ]}.
Proof. vm_compute. reflexivity. Qed.

Lemma assumed_cache_nodes (name : string) :
  name <> "n1" -> nodes assumed_cache !! name = None.
Proof.
  intros Hne.
  assert (H : exists n, nodes assumed_cache = {[ "n1" := n ]}).
  { eexists. vm_compute. reflexivity. }
  destruct H as [n ->]. by apply lookup_singleton_ne.
Qed.

(** [AssumePod_spec] on the empty cache and on the cache that already
    holds pod [a]. *)
Lemma AssumePod_spec_witness :
  (exists c',
     AssumePod heap0 empty_cache 1%positive = Returned None c'
     /\ assumedPods c' = {[ "a" ]} ∪ assumedPods empty_cache)
  /\ AssumePod heap0 assumed_cache 1%positive
     = Returned (Some (AlreadyPresent "a")) assumed_cache.
Proof.
  assert (Hkey : getPodKey (deref heap0 1%positive) = ("a", None))
    by (vm_compute; reflexivity).
  split.
  - destruct (AssumePod_spec heap0 empty_cache 1%positive "a" Hkey)
      as (_ & _ & Hnew).
    destruct Hnew as (c' & n' & Hrun & _ & Has & _); [vm_compute; reflexivity|].
    exists c'. split; [exact Hrun | exact Has].
  - apply (AssumePod_spec heap0 assumed_cache 1%positive "a" Hkey).
    vm_compute. eexists. reflexivity.
Defined.

(** [finishBinding_spec] on the cache that holds the assumed pod [a]. *)
Lemma finishBinding_spec_witness :
  exists c1,
    finishBinding heap0 assumed_cache 1%positive 0
      = Returned None c1
    /\ finishBinding heap0 c1 1%positive 0 = Returned None c1.
Proof.
  destruct (finishBinding_spec heap0 assumed_cache 1%positive "a" 0)
    as (_ & _ & c1 & H1 & H2 & _); [vm_compute; reflexivity|].
  exists c1. split; [exact H1 | exact H2].
Defined.

(** [RemoveNode_untracked] on the empty cache. *)
Lemma RemoveNode_untracked_witness :
  RemoveNode empty_cache node1 = Crashed NilDereference
  /\ exists c', AddNode empty_cache node1 = Returned None c'.
Proof.
  destruct (RemoveNode_untracked empty_cache node1) as (Hrm & (c' & Hadd & _) & _);
    [vm_compute; reflexivity|].
  split; [exact Hrm | exists c'; exact Hadd].
Defined.

(** C8, as stated, fails: pod [a] is confirmed on [n1], and [ForgetPod]
    of pod [a] as placed on [n2] finds the key present and not assumed,
    yet returns the node-mismatch error, not the not-assumed one. *)
Lemma ForgetPod_counterexample :
  ~ ForgetPod_as_claimed heap0 confirmed_cache 2%positive "a".
Proof.
  intros [_ Hna].
  assert (Hnot : "a" ∉ assumedPods confirmed_cache).
  { apply (bool_decide_eq_false_1 ("a" ∈ assumedPods confirmed_cache)).
    vm_compute. reflexivity. }
  specialize (Hna (or_intror Hnot)).
  vm_compute in Hna. discriminate Hna.
Qed.

(** [ForgetPod_spec] on the cache that holds the assumed pod [a]. *)
Lemma ForgetPod_spec_witness :
  exists c',
    ForgetPod heap0 assumed_cache 1%positive = Returned None c'
    /\ assumedPods c' = assumedPods assumed_cache ∖ {[ "a" ]}
    /\ podStates c' = delete "a" (podStates assumed_cache).
Proof.
  destruct (ForgetPod_spec heap0 assumed_cache 1%positive "a")
    as (_ & _ & Hok); [vm_compute; reflexivity|].
  destruct (Hok {| pod := 1%positive; deadline := None; bindingFinished := false |})
    as (c' & Hrun & Has & Hps & _).
  - vm_compute. reflexivity.
  - vm_compute. reflexivity.
  - apply (bool_decide_eq_true_1 ("a" ∈ assumedPods assumed_cache)).
    vm_compute. reflexivity.
  - vm_compute. lia.
  - exists c'. split; [exact Hrun|]. split; [exact Has | exact Hps].
Defined.

(** [AddPod_confirms]: pod [a], assumed on [n1], is confirmed on [n2]. *)
Lemma AddPod_confirms_witness :
  exists c',
    AddPod heap0 assumed_cache 2%positive = Returned None c'
    /\ ("a" ∉ assumedPods c')
    /\ podStates c' !! "a"
       = Some {| pod := 2%positive; deadline := None; bindingFinished := false |}
    /\ accounted heap0 c' "n2" "a" = 1%nat
    /\ accounted heap0 c' "n1" "a" = 0%nat.
Proof.
  destruct (AddPod_confirms heap0 assumed_cache 2%positive "a"
              {| pod := 1%positive; deadline := None; bindingFinished := false |})
    as (c' & Hrun & Hnot & _ & Hps & _ & _ & Hacc & _).
  - vm_compute. reflexivity.
  - vm_compute. reflexivity.
  - apply (bool_decide_eq_true_1 ("a" ∈ assumedPods assumed_cache)).
    vm_compute. reflexivity.
  - vm_compute. reflexivity.
  - intros name. destruct (decide (name = "n1")) as [->|Hne].
    + vm_compute. reflexivity.
    + unfold accounted. rewrite (assumed_cache_nodes name Hne).
      replace (NodeName (Spec (deref heap0 (pod
                 {| pod := 1%positive; deadline := None; bindingFinished := false |}))))
        with "n1" by (vm_compute; reflexivity).
      by rewrite bool_decide_eq_false_2.
  - exists c'. split; [exact Hrun|]. split; [exact Hnot|].
    split; [rewrite Hps; apply lookup_insert_eq|].
    split; rewrite Hacc; vm_compute; reflexivity.
Defined.

(** [operations_preserve_invariants]: from the empty cache, [AssumePod]
    of pod [a] and then [ForgetPod], which deletes the record of [n1]. *)
Lemma operations_preserve_invariants_witness :
  nodes (after assumed_cache
           (ForgetPod heap0 assumed_cache 1%positive)) !! "n1" = None
  /\ assumed_have_state
       (after assumed_cache
          (ForgetPod heap0 assumed_cache 1%positive))
  /\ deleted_only_when_empty heap0 assumed_cache
       (after assumed_cache
          (ForgetPod heap0 assumed_cache 1%positive)).
Proof.
  split; [vm_compute; reflexivity|].
  apply (operations_preserve_invariants (OpForgetPod 1%positive) heap0 heap0 assumed_cache _ None).
  - apply (operations_preserve_invariants (OpAssumePod 1%positive) heap0 heap0 empty_cache
             assumed_cache None).
    + intros k Hk. by apply elem_of_empty in Hk.
    + vm_compute. reflexivity.
  - vm_compute. reflexivity.
Defined.

(** [cleanupAssumedPods_spec]: pod [a] was bound at time 0 with a time to
    live of 10; the tick at time 15 evicts it. *)
Lemma cleanupAssumedPods_spec_witness :
  exists c',
    cleanupAssumedPods heap0 bound_cache 15 ["a"] = Done c'
    /\ ("a" ∉ assumedPods c') /\ podStates c' !! "a" = None
    /\ accounted heap0 c' "n1" "a" = 0%nat.
Proof.
  destruct (cleanupAssumedPods_spec heap0 bound_cache 15 ["a"]) as (c' & Hrun & Hall).
  - intros k Hk. rewrite bound_cache_assumed in Hk.
    apply elem_of_singleton in Hk as ->.
    exists {| pod := 1%positive; deadline := Some 10%Z; bindingFinished := true |}.
    split; [vm_compute; reflexivity|]. split; [vm_compute; reflexivity|].
    split; [vm_compute; lia|]. intros _. eexists. reflexivity.
  - unfold key_order.
    replace (elements (assumedPods bound_cache)) with ["a"]
      by (vm_compute; reflexivity).
    reflexivity.
  - destruct (Hall "a" {| pod := 1%positive; deadline := Some 10%Z;
                          bindingFinished := true |}) as (_ & Hev & _).
    + rewrite bound_cache_assumed. by apply elem_of_singleton.
    + vm_compute. reflexivity.
    + destruct (Hev 10%Z eq_refl eq_refl) as (Hnot & Hps & Hacc); [lia|].
      exists c'. split; [exact Hrun|]. split; [exact Hnot|]. split; [exact Hps|].
      etransitivity; [exact Hacc | vm_compute; reflexivity].
Defined.

(** [resize_request_cleared]: the large resize of pod [a] under the
    default policy, which ends in a reschedule. *)
Lemma resize_request_cleared_witness :
  exists e h' rr',
    engine heap0 updating_cache 3%positive 6%positive [] = Returned e h'
    /\ resize_of h' 6%positive = Some rr' /\ Request rr' = None.
Proof.
  destruct (resize_request_cleared heap0 heap0 updating_cache 3%positive 6%positive [] node1_info
              (resizeRequest 2500 1536)) as (Hclr & _ & Hret).
  - vm_compute. reflexivity.
  - vm_compute. reflexivity.
  - vm_compute. reflexivity.
  - vm_compute. discriminate.
  - destruct (Hret (fst requirements6) (snd requirements6)) as (e & h' & Hrun).
    + intros H. vm_compute in H. discriminate H.
    + vm_compute. reflexivity.
    + vm_compute. reflexivity.
    + destruct (Hclr e h' Hrun) as (rr' & Hr & Hq).
      exists e, h', rr'. split; [exact Hrun|]. split; [exact Hr | exact Hq].
Defined.

(** C9, as stated, fails.  Pod [a] is the only pod of node [n1], of
    which the cache has no descriptor: [updatePod] removes the old pod,
    and with it the record of the node, before it calls the engine.  The
    engine returns the unknown-node error and leaves the request of the
    incoming pod as it was. *)
Lemma resize_request_counterexample :
  ~ request_cleared_as_claimed heap0 vacated_cache 3%positive 4%positive []
  /\ engine heap0 vacated_cache 3%positive 4%positive []
     = Returned (Some (UnknownNode "n1")) heap0
  /\ resize_of heap0 4%positive = Some (resizeRequest 800 1536)
  /\ UpdatePod heap0 lone_cache 3%positive 4%positive []
     = Returned (Some (UnknownNode "n1"))
         (heap0, addPod heap0 vacated_cache 4%positive).
Proof.
  split; [|split; [|split]]; [|vm_compute; reflexivity..].
  intros Hclaim.
  destruct (Hclaim (resizeRequest 800 1536) (fst requirements4) (snd requirements4)
              (Some (UnknownNode "n1")) heap0)
    as (rr' & Hr & Hq).
  - vm_compute. reflexivity.
  - vm_compute. discriminate.
  - vm_compute. reflexivity.
  - vm_compute. reflexivity.
  - vm_compute in Hr. injection Hr as <-. discriminate Hq.
Qed.

(** C4.  The code at two inputs on which it departs from the claim.
    - The update of pod [c] asks for 600 milli-CPU and a limit of 1200
      for its container, which declares requests and no limits.  Node
      [n1] allocates 2000 milli-CPU and 4096 of memory and has nothing
      requested, so the resize fits; the commit assigns into the nil map
      of limits, and the engine, and with it [UpdatePod], panics: nothing
      is committed and no action is stamped.
    - The update of pod [a] asks for 800 milli-CPU and the largest 64-bit
      amount of memory, on node [n1] with 200 and 512 requested.  The
      resize does not fit; the sum of the memory test wraps around, the
      test passes, and the resize is committed in place with the action
      [Update]. *)
Theorem resize_commit_departs :
  (exists n rmap podResource,
     nodes bare_updating_cache !! "n1" = Some n
     /\ getPodResizeRequirements (deref heap0 9%positive) = Done (rmap, podResource)
     /\ fits n podResource
     /\ engine heap0 bare_updating_cache 8%positive 9%positive []
        = Crashed NilMapAssignment
     /\ UpdatePod heap0 bare_cache 8%positive 9%positive [] = Crashed NilMapAssignment
     /\ ~ commit_as_claimed heap0 bare_updating_cache 8%positive 9%positive [])
  /\ (exists n rmap podResource h3 rr3,
        nodes updating_cache !! "n1" = Some n
        /\ getPodResizeRequirements (deref heap2 12%positive) = Done (rmap, podResource)
        /\ ~ fits n podResource
        /\ engine heap2 updating_cache 3%positive 12%positive [] = Returned None h3
        /\ resize_of h3 12%positive = Some rr3
        /\ Action rr3 = ResizeActionUpdate
        /\ (fun ct => Requests (c_Resources ct)) <$> Containers (Spec (deref h3 12%positive))
           = [Some {[ "cpu" := 800%Z; "memory" := 9223372036854775807%Z ]}]).
Proof.
  split.
  - exists (default NewNodeInfo (nodes bare_updating_cache !! "n1")),
      (resizeContainersMap_of (Request limitRequest)),
      {| MilliCPU := 600; Memory := 1024; EphemeralStorage := 0;
         ScalarResources := ∅ |}.
    split; [vm_compute; reflexivity|]. split; [vm_compute; reflexivity|].
    split; [vm_compute; split; reflexivity|].
    split; [vm_compute; reflexivity|]. split; [vm_compute; reflexivity|].
    intros Hclaim.
    destruct (Hclaim (default NewNodeInfo (nodes bare_updating_cache !! "n1"))
                (resizeContainersMap_of (Request limitRequest))
                {| MilliCPU := 600; Memory := 1024; EphemeralStorage := 0;
                   ScalarResources := ∅ |})
      as (h3 & rr3 & Hrun & _).
    + vm_compute. reflexivity.
    + vm_compute. reflexivity.
    + vm_compute. split; reflexivity.
    + vm_compute in Hrun. discriminate Hrun.
  - destruct (engine heap2 updating_cache 3%positive 12%positive []) as [[e h3]|w] eqn:Hrun;
      [|vm_compute in Hrun; discriminate Hrun].
    exists node1_info, (resizeContainersMap_of (Request (resizeRequest 800 9223372036854775807))),
      {| MilliCPU := 800; Memory := 9223372036854775807; EphemeralStorage := 0;
         ScalarResources := ∅ |}, h3,
      {| Request := None; ActionVersion := "7"; Action := ResizeActionUpdate;
         Rollback := Some [ {| cr_Name := "app";
                               cr_Resources := c_Resources (container "app" 500 1024) |} ] |}.
    vm_compute in Hrun. injection Hrun as <- <-.
    split; [vm_compute; reflexivity|]. split; [vm_compute; reflexivity|].
    split; [intros [_ Hm]; vm_compute in Hm; discriminate Hm|].
    split; [reflexivity|]. split; [vm_compute; reflexivity|].
    split; [reflexivity|]. vm_compute. reflexivity.
Qed.

(** [resize_in_place_iff_capacity]: node [n1] allocates 2000 milli-CPU
    and 4096 of memory and has 200 and 512 requested; the resize of pod
    [a] to 800 and 1536 is committed in place. *)
Lemma resize_in_place_iff_capacity_witness :
  exists h3 rr3,
    engine heap0 updating_cache 3%positive 4%positive [] = Returned None h3
    /\ resize_of h3 4%positive = Some rr3
    /\ Action rr3 = ResizeActionUpdate
    /\ Containers (Spec (deref h3 4%positive)) !! 0%nat
       = Some (resize_container (fst requirements4)
                 (container "app" 500 1024) (container "app" 500 1024))
    /\ Containers (Spec (deref h3 3%positive)) !! 0%nat
       = Some (resize_container (fst requirements4)
                 (container "app" 500 1024) (container "app" 500 1024)).
Proof.
  destruct (resize_in_place_iff_capacity Scenario_getPodKey_identity heap0 heap0 updating_cache
              3%positive 4%positive [] node1_info (resizeRequest 800 1536)
              (fst requirements4) (snd requirements4)
              {| pod := 3%positive; deadline := None; bindingFinished := false |})
    as (Hfit & _).
  - vm_compute. reflexivity.
  - vm_compute. reflexivity.
  - vm_compute. reflexivity.
  - vm_compute. discriminate.
  - intros H. vm_compute in H. discriminate H.
  - vm_compute. reflexivity.
  - vm_compute. split; [discriminate | reflexivity].
  - vm_compute. split; [discriminate | reflexivity].
  - vm_compute. reflexivity.
  - intros i ct rc Hct Hrc.
    destruct i as [|i]; [|vm_compute in Hct; discriminate Hct].
    assert (ct = container "app" 500 1024) as ->
      by (vm_compute in Hct; injection Hct as <-; vm_compute; reflexivity).
    split; intros _.
    + split; [eexists; reflexivity|].
      eexists. split; [vm_compute; reflexivity | eexists; reflexivity].
    + split; [eexists; reflexivity|].
      eexists. split; [vm_compute; reflexivity | eexists; reflexivity].
  - destruct Hfit as (h3 & Hrun & Hr & Hcont & _).
    { vm_compute. split; reflexivity. }
    destruct (Hcont 0%nat (container "app" 500 1024)) as (Hnew & Hcached).
    { vm_compute. reflexivity. }
    eexists h3, _. split; [exact Hrun|]. split; [exact Hr|].
    split; [reflexivity|]. split; [exact Hnew|].
    apply Hcached. vm_compute. reflexivity.
Defined.

Lemma strict_budget_violating :
  violating (deref heap0 6%positive) strict_budget.
Proof.
  exists {| Matches := fun labels =>
              bool_decide ({[ "app" := "web" ]} ⊆ labels) && forallb
                (requirement_matches labels) [];
            Empty := bool_decide (({[ "app" := "web" ]} : gmap string string) = ∅)
                     && bool_decide (@nil LabelSelectorRequirement = []) |}.
  split; [reflexivity|]. split; [vm_compute; reflexivity|].
  split; [vm_compute; reflexivity|]. vm_compute. discriminate.
Qed.

(** C7, as stated, fails on a cache with the strict budget and the
    broken one, in whichever order the map yields them: with the strict
    budget first the consultation answers "no" and returns no error,
    although a selector does not convert; with the broken budget first it
    returns an error, although a matching budget allows no disruption. *)
Lemma consultation_counterexample :
  pdb_order two_budgets_cache [strict_budget; broken_budget]
  /\ pdb_order two_budgets_cache [broken_budget; strict_budget]
  /\ ~ consultation_as_claimed (deref heap0 6%positive) [strict_budget; broken_budget]
  /\ ~ consultation_as_claimed (deref heap0 6%positive) [broken_budget; strict_budget].
Proof.
  pose proof strict_budget_violating as Hv.
  assert (Hu : unparsable broken_budget)
    by (vm_compute; reflexivity).
  assert (Hord : (map_to_list (pdbs two_budgets_cache)).*2
                 = [strict_budget; broken_budget]) by (vm_compute; reflexivity).
  unfold pdb_order. rewrite Hord.
  split; [reflexivity|]. split; [apply perm_swap|]. split.
  - intros [_ Herr]. destruct Herr as [e He].
    + exists broken_budget. split; [|exact Hu].
      apply elem_of_cons. right. apply elem_of_cons. by left.
    + vm_compute in He. discriminate He.
  - intros [Hno _].
    assert (Hc : checkPodDisruptionBudgetOk (deref heap0 6%positive) [broken_budget; strict_budget]
                 = (false, None)).
    { apply Hno. exists strict_budget. split; [|exact Hv].
      apply elem_of_cons. right. apply elem_of_cons. by left. }
    vm_compute in Hc. discriminate Hc.
Qed.

(** [disruption_budgets_first_decisive]: the large resize of pod [a]
    under the default policy, with the strict budget in the cache. *)
Lemma disruption_budgets_first_decisive_witness :
  checkPodDisruptionBudgetOk (deref heap0 6%positive) [strict_budget] = (false, None)
  /\ engine heap0 budgeted_cache 3%positive 6%positive [strict_budget]
     = Returned None
         (<[6%positive := decline (Some ResizeActionNonePerPDBViolation)
                            (deref heap0 6%positive) (resizeRequest 2500 1536)]> heap0).
Proof.
  destruct (disruption_budgets_first_decisive heap0 heap0 budgeted_cache
              3%positive 6%positive [strict_budget] node1_info
              (resizeRequest 2500 1536) (fst requirements6) (snd requirements6))
    as (_ & Hfirst & _).
  - vm_compute. reflexivity.
  - vm_compute. reflexivity.
  - vm_compute. reflexivity.
  - vm_compute. discriminate.
  - intros H. vm_compute in H. discriminate H.
  - intros H. vm_compute in H. discriminate H.
  - vm_compute. reflexivity.
  - vm_compute. reflexivity.
  - vm_compute. lia.
  - unfold pdb_order.
    replace ((map_to_list (pdbs budgeted_cache)).*2) with [strict_budget]
      by (vm_compute; reflexivity).
    reflexivity.
  - destruct (Hfirst [] strict_budget [] eq_refl (Forall_nil_2 _)) as (Hv & _).
    apply Hv. exact strict_budget_violating.
Defined.

(** ** The other operations on the scenarios *)

Lemma node_cache_invariant : assumed_have_state node_cache.
Proof. intros k Hk. by apply elem_of_empty in Hk. Qed.

Lemma bound_cache_accounted : assumed_accounted heap0 bound_cache.
Proof.
  intros k Hk. rewrite bound_cache_assumed in Hk.
  apply elem_of_singleton in Hk as ->.
  exists bound_state.
  split; [vm_compute; reflexivity|]. split; [vm_compute; reflexivity|].
  split; [vm_compute; lia|]. intros _. eexists. reflexivity.
Qed.

(** [AddPod_not_repeatable]: pod [a] is added to node [n1], and the pod
    that the scheduler holds for it is then refused. *)
Lemma AddPod_not_repeatable_witness :
  exists key, getPodKey (deref heap0 3%positive) = (key, None)
    /\ AddPod heap0 added_cache 1%positive
       = Returned (Some (AlreadyAdded key)) added_cache.
Proof.
  apply (AddPod_not_repeatable heap0 node_cache added_cache 3%positive 1%positive).
  - exact node_cache_invariant.
  - vm_compute. reflexivity.
  - vm_compute. reflexivity.
Defined.

(** [AddPod_after_expiry]: pod [a], assumed on [n1] and expired, is
    reported on [n2]. *)
Lemma AddPod_after_expiry_witness :
  exists c2, AddPod heap0 expired_cache 2%positive = Returned None c2
    /\ GetPod heap0 c2 2%positive = (Some 2%positive, None)
    /\ IsAssumedPod heap0 c2 2%positive = (false, None).
Proof.
  destruct (AddPod_after_expiry heap0 bound_cache expired_cache 2%positive "a" bound_state)
    as (c2 & Hrun & _ & _ & _ & Hget & Hass).
  - vm_compute. reflexivity.
  - vm_compute. reflexivity.
  - exists c2. split; [exact Hrun|]. split; [exact Hget | exact Hass].
Defined.

(** [RemovePod_spec]: the confirmed pod [a] is removed, and the assumed
    pod [a] is not found. *)
Lemma RemovePod_spec_witness :
  (exists c', RemovePod heap0 confirmed_cache 3%positive = Returned None c'
     /\ podStates c' = delete "a" (podStates confirmed_cache)
     /\ accounted heap0 c' "n1" "a" = 0%nat)
  /\ RemovePod heap0 assumed_cache 1%positive
     = Returned (Some (NotFound "a")) assumed_cache.
Proof.
  split.
  - destruct (RemovePod_spec heap0 confirmed_cache 3%positive "a") as (_ & _ & Hok);
      [vm_compute; reflexivity|].
    destruct (Hok {| pod := 3%positive; deadline := None; bindingFinished := false |})
      as (c' & Hrun & Hps & _ & Hacc & _).
    + vm_compute. reflexivity.
    + apply (bool_decide_eq_false_1 ("a" ∈ assumedPods confirmed_cache)).
      vm_compute. reflexivity.
    + vm_compute. reflexivity.
    + vm_compute. reflexivity.
    + vm_compute. lia.
    + exists c'. split; [exact Hrun|]. split; [exact Hps|].
      rewrite Hacc. vm_compute. reflexivity.
  - apply (RemovePod_spec heap0 assumed_cache 1%positive "a"); [vm_compute; reflexivity|].
    right. rewrite assumed_cache_assumed. by apply elem_of_singleton.
Defined.

(** [ForgetPod_undoes_AssumePod] on the cache that knows node [n1]. *)
Lemma ForgetPod_undoes_AssumePod_witness :
  exists c2, ForgetPod heap0 node_assumed_cache 1%positive = Returned None c2
    /\ podStates c2 = podStates node_cache
    /\ assumedPods c2 = assumedPods node_cache
    /\ pods_on c2 "n1" = pods_on node_cache "n1".
Proof.
  destruct (ForgetPod_undoes_AssumePod heap0 node_cache node_assumed_cache 1%positive "a")
    as (c2 & Hrun & Hps & Has & _ & _ & Hpods & _).
  - exact node_cache_invariant.
  - vm_compute. reflexivity.
  - vm_compute. reflexivity.
  - vm_compute. reflexivity.
  - exists c2. split; [exact Hrun|]. split; [exact Hps|]. split; [exact Has|].
    apply Hpods.
Defined.

(** [RemovePod_undoes_AddPod] on the cache that knows node [n1]. *)
Lemma RemovePod_undoes_AddPod_witness :
  exists c2, RemovePod heap0 added_cache 3%positive = Returned None c2
    /\ podStates c2 = podStates node_cache
    /\ assumedPods c2 = assumedPods node_cache
    /\ pods_on c2 "n1" = pods_on node_cache "n1".
Proof.
  destruct (RemovePod_undoes_AddPod heap0 node_cache added_cache 3%positive "a")
    as (c2 & Hrun & Hps & Has & _ & _ & Hpods & _).
  - exact node_cache_invariant.
  - vm_compute. reflexivity.
  - vm_compute. reflexivity.
  - vm_compute. reflexivity.
  - vm_compute. reflexivity.
  - exists c2. split; [exact Hrun|]. split; [exact Hps|]. split; [exact Has|].
    apply Hpods.
Defined.

(** [UpdatePod_spec]: an update of the assumed pod [a] is refused, and an
    update of the confirmed pod [a] without resize record replaces it on
    node [n1]. *)
Lemma UpdatePod_spec_witness :
  UpdatePod heap0 assumed_cache 1%positive 3%positive []
    = Returned (Some (NotAdded "a")) (heap0, assumed_cache)
  /\ UpdatePod heap0 confirmed_cache 3%positive 3%positive []
     = Returned None (heap0, addPod heap0 updating_cache 3%positive).
Proof.
  split.
  - apply (UpdatePod_spec heap0 assumed_cache 1%positive 3%positive [] "a");
      [vm_compute; reflexivity|].
    right. rewrite assumed_cache_assumed. by apply elem_of_singleton.
  - destruct (UpdatePod_spec heap0 confirmed_cache 3%positive 3%positive [] "a")
      as (_ & _ & _ & Hplain); [vm_compute; reflexivity|].
    apply (Hplain {| pod := 3%positive; deadline := None; bindingFinished := false |}).
    + vm_compute. reflexivity.
    + apply (bool_decide_eq_false_1 ("a" ∈ assumedPods confirmed_cache)).
      vm_compute. reflexivity.
    + vm_compute. reflexivity.
    + vm_compute. reflexivity.
    + right. right. right. right. vm_compute. reflexivity.
Defined.

(** [FilteredList_spec] on the cache that holds pods [a] and [b] on node
    [n1]. *)
Lemma FilteredList_spec_witness :
  exists l,
    FilteredList heap0 (fun _ => true) Everything (nodes_of confirmed_cache) = (l, None)
    /\ (length l <= FilteredList_maxSize (nodes_of confirmed_cache))%nat
    /\ (3%positive ∈ l).
Proof.
  destruct (FilteredList_spec heap0 confirmed_cache (fun _ => true) Everything
              (nodes_of confirmed_cache) (nodes_of confirmed_cache))
    as (l & Hrun & Hmem & Hlen & _).
  - unfold node_order, nodes_of. reflexivity.
  - unfold node_order, nodes_of. reflexivity.
  - exists l. split; [exact Hrun|]. split; [exact Hlen|].
    apply Hmem. split; [reflexivity|]. split; [reflexivity|].
    exists "n1". apply (bool_decide_eq_true_1 (3%positive ∈ pods_on confirmed_cache "n1")).
    vm_compute. reflexivity.
Defined.

(** [List_after_AssumePod_AddPod]: the assumed pod [a] is listed. *)
Lemma List_after_AssumePod_AddPod_witness :
  1%positive ∈ fst (List heap0 Everything (nodes_of assumed_cache)).
Proof.
  destruct (List_after_AssumePod_AddPod heap0 empty_cache assumed_cache 1%positive
              (fun _ => true) Everything (nodes_of assumed_cache)) as (Hin & _).
  - left. vm_compute. reflexivity.
  - unfold node_order, nodes_of. reflexivity.
  - exact Hin.
Defined.

(** [AddNode_RemoveNode_round_trip] on the empty cache. *)
Lemma AddNode_RemoveNode_round_trip_witness :
  exists c1, AddNode empty_cache node1 = Returned None c1
    /\ RemoveNode c1 node1 = Returned None empty_cache.
Proof.
  destruct (AddNode_RemoveNode_round_trip empty_cache node1) as (c1 & Hadd & _ & Hrm).
  - vm_compute. reflexivity.
  - exists c1. split; [exact Hadd | exact Hrm].
Defined.

(** [node_events_keep_pods]: node [n1] is added after pod [a] was assumed
    on it. *)
Lemma node_events_keep_pods_witness :
  pods_on late_node_cache "n1" = pods_on assumed_cache "n1"
  /\ podStates late_node_cache = podStates assumed_cache.
Proof.
  destruct (node_events_keep_pods assumed_cache late_node_cache node1 None)
    as (_ & Hps & _ & _ & Hpods & _).
  - left. vm_compute. reflexivity.
  - split; [apply Hpods | exact Hps].
Defined.

(** [getPodResizeRequirements_spec] on the small resize of pod [a]. *)
Lemma getPodResizeRequirements_spec_witness :
  exists rmap res,
    getPodResizeRequirements (deref heap0 4%positive) = Done (rmap, res)
    /\ MilliCPU res = 800%Z /\ Memory res = 1536%Z.
Proof.
  destruct (getPodResizeRequirements_spec (deref heap0 4%positive) (resizeRequest 800 1536))
    as (_ & Hok & _); [vm_compute; reflexivity|].
  eexists _, _. split; [apply Hok|].
  - apply Forall_forall. intros ct Hct rc _ _.
    assert (Containers (Spec (deref heap0 4%positive)) = [container "app" 500 1024]) as Hc
      by (vm_compute; reflexivity).
    rewrite Hc in Hct. apply list_elem_of_singleton in Hct as ->. eexists. reflexivity.
  - vm_compute. split; reflexivity.
Defined.

(** [rollback_undoes_commit]: the small resize of pod [a] is committed
    and rolled back. *)
Lemma rollback_undoes_commit_witness :
  exists h3 h4,
    setupInPlaceResizeAction heap0 updating_cache 3%positive 4%positive (fst requirements4)
      = Done h3
    /\ Containers (Spec (deref h3 4%positive)) !! 0%nat
       <> Some (container "app" 500 1024)
    /\ rollbackPodResources h3 updating_cache 3%positive 4%positive = Done h4
    /\ Containers (Spec (deref h4 4%positive)) = [container "app" 500 1024]
    /\ Containers (Spec (deref h4 3%positive)) = [container "app" 500 1024].
Proof.
  destruct (rollback_undoes_commit Scenario_getPodKey_identity heap0 updating_cache
              3%positive 4%positive (fst requirements4)
              {| pod := 3%positive; deadline := None; bindingFinished := false |}
              (resizeRequest 800 1536))
    as (h3 & h4 & Hs & Hr & Hnew & _ & Hcached & _).
  - vm_compute. reflexivity.
  - vm_compute. reflexivity.
  - intros i ct rc Hct Hrc.
    destruct i as [|i]; [|vm_compute in Hct; discriminate Hct].
    assert (ct = container "app" 500 1024) as ->
      by (vm_compute in Hct; injection Hct as <-; vm_compute; reflexivity).
    split; intros _.
    + split; [eexists; reflexivity|].
      eexists. split; [vm_compute; reflexivity | eexists; reflexivity].
    + split; [eexists; reflexivity|].
      eexists. split; [vm_compute; reflexivity | eexists; reflexivity].
  - assert (c_Name <$> Containers (Spec (deref heap0 4%positive)) = ["app"]) as ->
      by (vm_compute; reflexivity).
    apply NoDup_singleton.
  - vm_compute. lia.
  - exists h3, h4. split; [exact Hs|]. split.
    + intros Hsame. vm_compute in Hs. injection Hs as <-.
      vm_compute in Hsame. discriminate Hsame.
    + split; [exact Hr|]. split.
      * rewrite Hnew. vm_compute. reflexivity.
      * cbn [pod] in Hcached. rewrite Hcached; vm_compute; reflexivity.
Defined.

(** [resize_status_acknowledged]: the node reports that the resize of
    pod [a] failed, and the requests of its container are restored. *)
Lemma resize_status_acknowledged_witness :
  exists h',
    processPodResizeStatus heap1 updating_cache 3%positive 11%positive = Done h'
    /\ resize_of h' 11%positive = Some (acknowledged failed_pod failedResize)
    /\ Containers (Spec (deref h' 11%positive)) !! 0%nat = Some (container "app" 500 1024).
Proof.
  destruct (resize_status_acknowledged heap1 updating_cache 3%positive 11%positive
              failedResize) as (_ & _ & _ & Hfail); [vm_compute; reflexivity|].
  destruct (Hfail failure (fst requirements4) [container "app" 500 1024]
              {| pod := 3%positive; deadline := None; bindingFinished := false |})
    as (h' & Hrun & Hrr & Hl).
  - vm_compute. reflexivity.
  - reflexivity.
  - reflexivity.
  - discriminate.
  - vm_compute. reflexivity.
  - apply NoDup_singleton.
  - vm_compute. reflexivity.
  - vm_compute. reflexivity.
  - vm_compute. lia.
  - exists h'. split; [exact Hrun|]. split.
    + rewrite Hrr. vm_compute. reflexivity.
    + rewrite Hl. vm_compute. reflexivity.
Defined.

(** [cleanupAssumedPods_crashes] on the cache that lost the state of the
    assumed pod [a]. *)
Lemma cleanupAssumedPods_crashes_witness :
  exists why, cleanupAssumedPods heap0 stateless_cache 0 ["a"] = Crashed why.
Proof.
  apply (cleanupAssumedPods_crashes heap0 stateless_cache 0 ["a"] "a").
  - by left.
  - left. vm_compute. reflexivity.
Defined.

(** [cleanupAssumedPods_idempotent]: the tick at time 15 that evicts pod
    [a], and a second tick. *)
Lemma cleanupAssumedPods_idempotent_witness :
  exists c', cleanupAssumedPods heap0 bound_cache 15 ["a"] = Done c'
    /\ cleanupAssumedPods heap0 c' 15 (elements (assumedPods c')) = Done c'.
Proof.
  destruct (cleanupAssumedPods_idempotent heap0 bound_cache 15 ["a"])
    as (c' & Hrun & Hagain).
  - exact bound_cache_accounted.
  - unfold key_order.
    replace (elements (assumedPods bound_cache)) with ["a"]
      by (vm_compute; reflexivity).
    reflexivity.
  - exists c'. split; [exact Hrun|]. apply Hagain; [unfold key_order; reflexivity | lia].
Defined.

(** [UpdateNodeNameToInfoMap_spec]: the empty map of a caller is filled
    with the record of node [n1]. *)
Lemma UpdateNodeNameToInfoMap_spec_witness :
  exists m',
    UpdateNodeNameToInfoMap confirmed_cache (Some ∅)
      (map_to_list (nodes confirmed_cache)) keys_of = Returned None (Some m')
    /\ dom m' = dom (nodes confirmed_cache)
    /\ m' !! "n1" = nodes confirmed_cache !! "n1".
Proof.
  destruct (UpdateNodeNameToInfoMap_spec confirmed_cache
              (map_to_list (nodes confirmed_cache)) keys_of) as (Hrun & _).
  - unfold entry_order. reflexivity.
  - intros m. unfold keys_of. reflexivity.
  - destruct (Hrun ∅) as (m' & Hm' & Hrec & Hdom & _).
    exists m'. split; [exact Hm'|]. split; [exact Hdom|].
    rewrite Hrec. unfold reconciled. rewrite lookup_empty.
    by destruct (nodes confirmed_cache !! "n1").
Defined.

(** [Swap_spec]: the first and the last host are exchanged. *)
Lemma Swap_spec_witness :
  exists h', SchedulerApi.Swap hosts 0 2 = Done h'
    /\ h' ≡ₚ hosts
    /\ SchedulerApi.index h' 0 = SchedulerApi.index hosts 2
    /\ SchedulerApi.index h' 2 = SchedulerApi.index hosts 0
    /\ SchedulerApi.Swap h' 0 2 = Done hosts.
Proof.
  destruct (Swap_spec hosts 0 2) as (h' & Hrun & Hperm & _ & H0 & H2 & _ & Hback).
  - vm_compute. split; congruence.
  - vm_compute. split; congruence.
  - exists h'. split; [exact Hrun|]. split; [exact Hperm|].
    split; [exact H0|]. split; [exact H2 | exact Hback].
Defined.

(** [budgets_not_consulted]: the resize of pod [a] under the policy
    [Restart] has the same outcome with the budget that allows no
    disruption and with the one whose selector does not convert. *)
Lemma budgets_not_consulted_witness :
  processPodResourcesScaling heap0 updating_cache 3%positive 10%positive [strict_budget]
  = processPodResourcesScaling heap0 updating_cache 3%positive 10%positive [broken_budget].
Proof.
  apply budgets_not_consulted. left. vm_compute. reflexivity.
Defined.

(** [UpdatePod_on_undescribed_node]: the resize of pod [a], the only pod
    of a node without descriptor. *)
Lemma UpdatePod_on_undescribed_node_witness :
  UpdatePod heap0 lone_cache 3%positive 4%positive []
  = Returned (Some (UnknownNode "n1")) (heap0, addPod heap0 vacated_cache 4%positive).
Proof.
  apply (UpdatePod_on_undescribed_node heap0 lone_cache vacated_cache
           3%positive 4%positive [] "a"
           {| pod := 3%positive; deadline := None; bindingFinished := false |}).
  - vm_compute. reflexivity.
  - vm_compute. reflexivity.
  - apply (bool_decide_eq_false_1 ("a" ∈ assumedPods lone_cache)).
    vm_compute. reflexivity.
  - vm_compute. reflexivity.
  - vm_compute. reflexivity.
  - vm_compute. reflexivity.
  - vm_compute. reflexivity.
  - reflexivity.
  - vm_compute. reflexivity.
  - vm_compute. reflexivity.
  - vm_compute. reflexivity.
  - vm_compute. discriminate.
Defined.

(** [commit_returns_iff_writable]: the resize of pod [c] sets a limit on
    a container that declares none; the capacity test passes and the
    engine panics. *)
Lemma commit_returns_iff_writable_witness :
  exists w,
    engine heap0 bare_updating_cache 8%positive 9%positive [] = Crashed w
    /\ (w = NilMapAssignment \/ w = IndexOutOfRange).
Proof.
  destruct (commit_returns_iff_writable Scenario_getPodKey_identity heap0 heap0
              bare_updating_cache 8%positive 9%positive []
              (default NewNodeInfo (nodes bare_updating_cache !! "n1"))
              limitRequest (resizeContainersMap_of (Request limitRequest))
              {| MilliCPU := 600; Memory := 1024; EphemeralStorage := 0;
                 ScalarResources := ∅ |}
              {| pod := 8%positive; deadline := None; bindingFinished := false |})
    as (_ & Hcrash).
  - vm_compute. reflexivity.
  - vm_compute. reflexivity.
  - vm_compute. reflexivity.
  - vm_compute. discriminate.
  - intros H. vm_compute in H. discriminate H.
  - vm_compute. reflexivity.
  - vm_compute. reflexivity.
  - vm_compute. reflexivity.
  - apply Hcrash. intros Hw.
    destruct (Hw 0%nat (bare_container "app" 500 1024)
                {| c_Name := "app";
                   c_Resources := {| Limits := Some {[ "cpu" := 1200%Z ]};
                                     Requests := Some {[ "cpu" := 600%Z ]} |} |})
      as [_ Hlim].
    + vm_compute. reflexivity.
    + vm_compute. reflexivity.
    + destruct Hlim as [[x Hx] _]; [|discriminate Hx].
      exists {[ "cpu" := 1200%Z ]}. split; [reflexivity|].
      intros He. vm_compute in He. discriminate He.
Defined.
